(** * The voice pipeline of the virtual tour guide (Chatbot component)

    A shallow embedding of the audio code of the Chatbot component:
    the PCM codec ([createPcmBlob], [decodeAudioData]), the playback
    scheduler ([scheduleAudio], [toggleAudio]), the TTS promise queue
    ([processTtsQueue], [processNextTts]), the text-chat chunk loop of
    [handleSendMessage] and the live-session callbacks
    ([handleLiveMessage], [onerror], [stopLiveSession]).

    Conventions.
    - JavaScript numbers are modelled by exact rationals ([Q]) extended
      with NaN and the two infinities where the code can meet them.  For
      the codec this is exact: a 32-bit float times 32767 or 32768 and a
      16-bit integer over 32768 are both representable without rounding.
    - JavaScript strings are lists of UTF-16 code units.
    - A base64 payload is represented by the bytes it stands for; [encode]
      and [decode] of the source only change the representation.
    - The component is single-threaded: every handler runs to its next
      [await]; what follows the [await] is a separate step of the model.
    - A handler sees the state of the render in which it was created:
      an [async] handler keeps those values across its [await]s.  The
      component renders between two steps of the model.  A state setter
      given a value, or an updater that reads nothing that changes before
      that render, is applied at the call; an updater that reads a ref
      is run when React runs it, at the call or at the render. *)

From Stdlib Require Import ZArith QArith Qround Qabs Qminmax Lqa Lia.
From Stdlib Require Import List Bool Strings.Byte String Ascii.
Import ListNotations.

Set Implicit Arguments.

(** ** JavaScript values *)

(** A JavaScript number: NaN, the infinities, or a finite value. *)
Inductive num : Type :=
| NaN
| PInf
| NInf
| Fin (q : Q).

(** A string as the sequence of its UTF-16 code units. *)
Definition jsstring := list N.

(** The code units of an ASCII literal. *)
Definition js (s : string) : jsstring :=
  map N_of_ascii (list_ascii_of_string s).

(** [x < y] on rationals, as a boolean. *)
Definition Qltb (x y : Q) : bool := negb (Qle_bool y x).

(** Truncation towards zero (ToIntegerOrInfinity on a finite number). *)
Definition Qtrunc (q : Q) : Z :=
  if Qle_bool 0 q then Qfloor q else Qceiling q.

(** ToIndex, as the typed-array constructors apply it to a length. *)
Definition ToIndex (q : Q) : nat := Z.to_nat (Qtrunc q).

(** Writing at an index of a typed array; an index past the end is ignored. *)
Fixpoint store {A : Type} (l : list A) (i : nat) (v : A) : list A :=
  match l, i with
  | [], _ => []
  | _ :: t, O => v :: t
  | h :: t, S j => h :: store t j v
  end.

(** ** PCM codec *)

Module Codec.

(** [Math.min(1, x)] and [Math.max(-1, x)]. *)
Definition min1 (x : num) : num :=
  match x with
  | NaN => NaN
  | PInf => Fin 1
  | NInf => NInf
  | Fin q => Fin (Qmin 1 q)
  end.

Definition maxm1 (x : num) : num :=
  match x with
  | NaN => NaN
  | PInf => PInf
  | NInf => Fin (-1)
  | Fin q => Fin (Qmax (-1) q)
  end.

(** [Math.max(-1, Math.min(1, x))]. *)
Definition clamp (x : num) : num := maxm1 (min1 x).

(** [s < 0]; a comparison with NaN is false. *)
Definition ltz (s : num) : bool :=
  match s with
  | NaN | PInf => false
  | NInf => true
  | Fin q => Qltb q 0
  end.

(** [s * c] for a positive constant [c]. *)
Definition mulc (s : num) (c : Q) : num :=
  match s with
  | Fin q => Fin (q * c)
  | other => other
  end.

(** [s < 0 ? s * 0x8000 : s * 0x7FFF]. *)
Definition scale (s : num) : num :=
  if ltz s then mulc s 32768 else mulc s 32767.

(** ToInt16: what storing a number into an [Int16Array] keeps. *)
Definition ToInt16 (x : num) : Z :=
  match x with
  | Fin q =>
      let m := (Qtrunc q mod 65536)%Z in
      if (32768 <=? m)%Z then (m - 65536)%Z else m
  | _ => 0%Z
  end.

(** The loop of [createPcmBlob]: the [Int16Array] built from the samples. *)
Definition toInt16Array (data : list num) : list Z :=
  map (fun x => ToInt16 (scale (clamp x))) data.

Definition byte_of_Z (z : Z) : byte :=
  match Byte.of_N (Z.to_N (z mod 256)) with
  | Some b => b
  | None => x00
  end.

Definition Z_of_byte (b : byte) : Z := Z.of_N (Byte.to_N b).

(** The two bytes of a 16-bit word, low byte first. *)
Definition int16_bytes (v : Z) : list byte :=
  let u := (v mod 65536)%Z in
  [byte_of_Z (u mod 256); byte_of_Z (u / 256)].

(** [new Uint8Array(int16.buffer)]. *)
Definition bufferBytes (int16 : list Z) : list byte :=
  flat_map int16_bytes int16.

Record GeminiBlob : Type := mkBlob {
  blob_data : list byte;
  blob_mimeType : string
}.

Definition createPcmBlob (data : list num) : GeminiBlob :=
  {| blob_data := bufferBytes (toInt16Array data);
     blob_mimeType := "audio/pcm;rate=16000" |}.

(** *** Decoder *)

(** [data.length / 2]: a number, a half-integer when the length is odd. *)
Definition sampleLengthOf (data : list byte) : Q :=
  inject_Z (Z.of_nat (List.length data)) / 2.

(** The signed 16-bit word held by two bytes, low byte first. *)
Definition int16_of (lo hi : byte) : Z :=
  let u := (Z_of_byte lo + 256 * Z_of_byte hi)%Z in
  if (32768 <=? u)%Z then (u - 65536)%Z else u.

(** [dataInt16[i]] for the view [new Int16Array(data.buffer, 0, n)];
    [None] is [undefined], read past the end of the view. *)
Definition int16_get (data : list byte) (n i : nat) : option Z :=
  if (i <? n)%nat then
    match nth_error data (2 * i), nth_error data (2 * i + 1) with
    | Some lo, Some hi => Some (int16_of lo hi)
    | _, _ => None
    end
  else None.

(** [v / 32768.0]; [undefined / 32768.0] is NaN. *)
Definition normalize (v : option Z) : num :=
  match v with
  | Some z => Fin (inject_Z z / 32768)
  | None => NaN
  end.

(** Lines 94-104: the [Float32Array] of normalised samples.  The loop
    runs while [i < sampleLength], one round more than the array is long
    when the byte length is odd; that last write falls past the end. *)
Definition toFloat32 (data : list byte) : list num :=
  let sampleLength := sampleLengthOf data in
  let n := ToIndex sampleLength in
  let rounds := Z.to_nat (Qceiling sampleLength) in
  fold_left (fun float32 i => store float32 i (normalize (int16_get data n i)))
            (seq 0 rounds) (repeat (Fin 0) n).

Record AudioBuffer : Type := mkBuffer {
  numberOfChannels : nat;
  frames : nat;
  sampleRate : Q;
  channels : list (list num)
}.

(** [audioBuffer.duration], in seconds. *)
Definition duration (b : AudioBuffer) : Q :=
  inject_Z (Z.of_nat (frames b)) / sampleRate b.

Inductive DecodeResult : Type :=
| Decoded (b : AudioBuffer)
| NotSupportedError.

(** The nominal ranges of [createBuffer]: the Web Audio API has every
    implementation support 1 to 32 channels and 8000 to 96000 frames per
    second; what an implementation accepts beyond them is its own
    choice, and the model accepts nothing there.  The component itself
    only asks for one channel at 24000. *)
Definition supported (numChannels : nat) (rate : Q) : bool :=
  (1 <=? numChannels)%nat && (numChannels <=? 32)%nat
  && Qle_bool 8000 rate && Qle_bool rate 96000.

(** [ctx.createBuffer(numChannels, length, rate)].  The length argument
    is converted to an unsigned long (truncation, then modulo 2^32); the
    platform raises NotSupportedError for a channel count or a rate
    outside the nominal range, and for a buffer with no frame. *)
Definition createBuffer (numChannels : nat) (len : Q) (rate : Q)
  : option AudioBuffer :=
  let n := Z.to_nat (Qtrunc len mod 4294967296) in
  if negb (supported numChannels rate) || (n =? 0)%nat then None
  else Some {| numberOfChannels := numChannels; frames := n;
               sampleRate := rate;
               channels := repeat (repeat (Fin 0) n) numChannels |}.

(** [audioBuffer.copyToChannel(float32, 0)]. *)
Definition copyToChannel0 (float32 : list num) (b : AudioBuffer) : AudioBuffer :=
  {| numberOfChannels := numberOfChannels b; frames := frames b;
     sampleRate := sampleRate b;
     channels :=
       match channels b with
       | [] => []
       | c0 :: rest =>
           (firstn (frames b) float32 ++ skipn (List.length float32) c0) :: rest
       end |}.

(** [float32[i]] read as a number; [undefined] stored in a float array
    is NaN. *)
Definition float32_get (float32 : list num) (i : nat) : num :=
  nth i float32 NaN.

(** The de-interleaving loops, for more than one channel. *)
Definition deinterleave (float32 : list num) (numChannels : nat)
  (b : AudioBuffer) : AudioBuffer :=
  {| numberOfChannels := numberOfChannels b; frames := frames b;
     sampleRate := sampleRate b;
     channels :=
       map (fun ch =>
              map (fun i => float32_get float32 (i * numChannels + ch))
                  (seq 0 (frames b)))
           (seq 0 numChannels) |}.

Definition decodeAudioData (data : list byte) (sourceSampleRate : Q)
  (numChannels : nat) : DecodeResult :=
  let sampleLength := sampleLengthOf data in
  let float32 := toFloat32 data in
  match createBuffer numChannels
          (sampleLength / inject_Z (Z.of_nat numChannels)) sourceSampleRate with
  | None => NotSupportedError
  | Some audioBuffer =>
      if (numChannels =? 1)%nat
      then Decoded (copyToChannel0 float32 audioBuffer)
      else Decoded (deinterleave float32 numChannels audioBuffer)
  end.

(** The [k]-th little-endian 16-bit word of [data], over 32768: the
    sample the decoder is meant to produce at index [k]. *)
Definition pcm_sample (data : list byte) (k : nat) : num :=
  Fin (inject_Z (int16_of (nth (2 * k) data x00) (nth (2 * k + 1) data x00)) / 32768).

(** Two finite numbers less than [eps] apart, and at most [eps] apart. *)
Definition within (eps : Q) (x y : num) : Prop :=
  match x, y with
  | Fin a, Fin b => Qabs (b - a) < eps
  | _, _ => False
  end.

Definition within_le (eps : Q) (x y : num) : Prop :=
  match x, y with
  | Fin a, Fin b => Qabs (b - a) <= eps
  | _, _ => False
  end.

End Codec.

(** ** Playback scheduler *)

Module Player.
Import Codec.

(** An entry of [audioQueueRef]. *)
Record Segment : Type := mkSegment {
  audioData : list byte;
  messageIndex : option nat
}.

(** A buffer source started on the output device. *)
Record Source : Type := mkSource {
  src_item : Segment;
  src_start : Q;
  src_duration : Q;
  src_stopped : bool
}.

(** Where a call of [scheduleAudio] is suspended.  The guard flag lets
    at most one call get past its first line, so one slot is enough.
    The callback closes over [isOpen]. *)
Inductive Pass : Type :=
| NoPass
| AwaitResume (isOpen : bool)
| AwaitDecode (isOpen : bool) (item : Segment) (result : DecodeResult).

Record State : Type := mkState {
  audioQueue : list Segment;             (* audioQueueRef *)
  isAudioPlaying : bool;                 (* isAudioPlayingRef *)
  isScheduling : bool;                   (* isSchedulingRef *)
  nextStartTime : Q;                     (* nextStartTimeRef *)
  audioSource : option nat;              (* audioSourceRef: a position in [sources] *)
  currentlyPlayingIndex : option nat;    (* React state *)
  hasContext : bool;                     (* outputAudioContextRef is not null *)
  suspended : bool;                      (* audioContext.state === 'suspended' *)
  sources : list Source;                 (* every [source.start], oldest first *)
  pass : Pass;
  pushed : list Segment;                 (* history: every [audioQueueRef.push] *)
  reinvocations : nat                    (* history: calls made by the [finally] block *)
}.

Definition set_audioQueue (v : list Segment) (s : State) : State :=
  mkState v (isAudioPlaying s) (isScheduling s) (nextStartTime s) (audioSource s)
          (currentlyPlayingIndex s) (hasContext s) (suspended s) (sources s)
          (pass s) (pushed s) (reinvocations s).
Definition set_isAudioPlaying (v : bool) (s : State) : State :=
  mkState (audioQueue s) v (isScheduling s) (nextStartTime s) (audioSource s)
          (currentlyPlayingIndex s) (hasContext s) (suspended s) (sources s)
          (pass s) (pushed s) (reinvocations s).
Definition set_isScheduling (v : bool) (s : State) : State :=
  mkState (audioQueue s) (isAudioPlaying s) v (nextStartTime s) (audioSource s)
          (currentlyPlayingIndex s) (hasContext s) (suspended s) (sources s)
          (pass s) (pushed s) (reinvocations s).
Definition set_nextStartTime (v : Q) (s : State) : State :=
  mkState (audioQueue s) (isAudioPlaying s) (isScheduling s) v (audioSource s)
          (currentlyPlayingIndex s) (hasContext s) (suspended s) (sources s)
          (pass s) (pushed s) (reinvocations s).
Definition set_audioSource (v : option nat) (s : State) : State :=
  mkState (audioQueue s) (isAudioPlaying s) (isScheduling s) (nextStartTime s) v
          (currentlyPlayingIndex s) (hasContext s) (suspended s) (sources s)
          (pass s) (pushed s) (reinvocations s).
Definition set_currentlyPlayingIndex (v : option nat) (s : State) : State :=
  mkState (audioQueue s) (isAudioPlaying s) (isScheduling s) (nextStartTime s)
          (audioSource s) v (hasContext s) (suspended s) (sources s)
          (pass s) (pushed s) (reinvocations s).
Definition set_suspended (v : bool) (s : State) : State :=
  mkState (audioQueue s) (isAudioPlaying s) (isScheduling s) (nextStartTime s)
          (audioSource s) (currentlyPlayingIndex s) (hasContext s) v (sources s)
          (pass s) (pushed s) (reinvocations s).
Definition set_sources (v : list Source) (s : State) : State :=
  mkState (audioQueue s) (isAudioPlaying s) (isScheduling s) (nextStartTime s)
          (audioSource s) (currentlyPlayingIndex s) (hasContext s) (suspended s) v
          (pass s) (pushed s) (reinvocations s).
Definition set_pass (v : Pass) (s : State) : State :=
  mkState (audioQueue s) (isAudioPlaying s) (isScheduling s) (nextStartTime s)
          (audioSource s) (currentlyPlayingIndex s) (hasContext s) (suspended s)
          (sources s) v (pushed s) (reinvocations s).
Definition set_pushed (v : list Segment) (s : State) : State :=
  mkState (audioQueue s) (isAudioPlaying s) (isScheduling s) (nextStartTime s)
          (audioSource s) (currentlyPlayingIndex s) (hasContext s) (suspended s)
          (sources s) (pass s) v (reinvocations s).
Definition set_reinvocations (v : nat) (s : State) : State :=
  mkState (audioQueue s) (isAudioPlaying s) (isScheduling s) (nextStartTime s)
          (audioSource s) (currentlyPlayingIndex s) (hasContext s) (suspended s)
          (sources s) (pass s) (pushed s) v.

(** The state at mount: the one-time effect has built the output
    context, or failed to. *)
Definition init (ctx susp : bool) : State :=
  mkState [] false false 0 None None ctx susp [] NoPass [] 0.

(** [const item = audioQueueRef.current[0]] and the call of
    [decodeAudioData(decode(item.audioData), audioContext, 24000, 1)];
    the call returns a promise and the pass waits for it. *)
Definition awaitHead (isOpen : bool) (item : Segment) (s : State) : State :=
  set_pass (AwaitDecode isOpen item (decodeAudioData (audioData item) 24000 1)) s.

(** The [finally] block when the queue is empty: the flag is cleared
    and the call returns. *)
Definition leave (s : State) : State :=
  set_pass NoPass (set_isScheduling false s).

(** The head of the [while] loop.  Leaving the loop runs the [finally]
    block with an empty queue, whose test then fails. *)
Definition loopHead (isOpen : bool) (s : State) : State :=
  match audioQueue s with
  | [] => leave s
  | item :: _ => awaitHead isOpen item s
  end.

(** [scheduleAudio()], up to its first [await]. *)
Definition scheduleAudio (isOpen : bool) (s : State) : State :=
  if isScheduling s then s
  else
    let s := set_isScheduling true s in
    if negb (hasContext s) then set_isScheduling false s
    else if suspended s then set_pass (AwaitResume isOpen) s
    else loopHead isOpen s.

(** The [finally] block: the flag is cleared and, with segments left in
    the queue, [scheduleAudio()] is called again. *)
Definition finally (isOpen : bool) (s : State) : State :=
  let s := leave s in
  match audioQueue s with
  | [] => s
  | _ :: _ => scheduleAudio isOpen (set_reinvocations (S (reinvocations s)) s)
  end.

(** The cursor rule: [if (next < currentTime) next = currentTime + 0.05]. *)
Definition bump (currentTime next : Q) : Q :=
  if Qltb next currentTime then currentTime + (1 # 20) else next.

(** The loop body after the decoded buffer has arrived (lines 261-294). *)
Definition playItem (isOpen : bool) (item : Segment) (audioBuffer : AudioBuffer)
  (currentTime : Q) (s : State) : State :=
  let s := set_audioQueue (tl (audioQueue s)) s in
  let s := match isOpen, messageIndex item with
           | true, Some i => set_currentlyPlayingIndex (Some i) s
           | _, _ => s
           end in
  let s := set_nextStartTime (bump currentTime (nextStartTime s)) s in
  let source := mkSource item (nextStartTime s) (duration audioBuffer) false in
  let s := set_audioSource (Some (List.length (sources s)))
             (set_sources (sources s ++ [source]) s) in
  let s := set_nextStartTime (nextStartTime s + duration audioBuffer) s in
  set_isAudioPlaying true s.

(** The suspended pass goes on; [currentTime] is the device clock it
    reads. *)
Definition continue (currentTime : Q) (s : State) : State :=
  match pass s with
  | NoPass => s
  | AwaitResume isOpen => loopHead isOpen (set_suspended false s)
  | AwaitDecode isOpen item (Decoded audioBuffer) =>
      loopHead isOpen (playItem isOpen item audioBuffer currentTime s)
  | AwaitDecode isOpen item NotSupportedError => finally isOpen s
  end.

(** [audioQueueRef.current.push(seg); scheduleAudio()], as both
    producers do. *)
Definition enqueue (isOpen : bool) (seg : Segment) (s : State) : State :=
  scheduleAudio isOpen
    (set_pushed (pushed s ++ [seg]) (set_audioQueue (audioQueue s ++ [seg]) s)).

(** [source.onended]. *)
Definition onended (isOpen : bool) (currentTime : Q) (s : State) : State :=
  match audioQueue s with
  | [] =>
      if Qltb (Qabs (nextStartTime s - currentTime)) (1 # 2)
      then set_isAudioPlaying false
             (if isOpen then set_currentlyPlayingIndex None s else s)
      else s
  | _ :: _ => s
  end.

(** [source.stop()] on the source at position [k]. *)
Definition stopSource (k : nat) (l : list Source) : list Source :=
  match nth_error l k with
  | Some src => store l k (mkSource (src_item src) (src_start src) (src_duration src) true)
  | None => l
  end.

(** The body of [if (isAudioEnabled)] in [toggleAudio]. *)
Definition stopAndClear (s : State) : State :=
  let s := match audioSource s with
           | Some k => set_sources (stopSource k (sources s)) s
           | None => s
           end in
  set_currentlyPlayingIndex None (set_audioQueue [] s).

Inductive Event : Type :=
| Enqueue (isOpen : bool) (seg : Segment)
| Continue (currentTime : Q)
| Ended (isOpen : bool) (currentTime : Q)
| StopAndClear.

Definition step (s : State) (e : Event) : State :=
  match e with
  | Enqueue isOpen seg => enqueue isOpen seg s
  | Continue t => continue t s
  | Ended isOpen t => onended isOpen t s
  | StopAndClear => stopAndClear s
  end.

Definition run (s : State) (es : list Event) : State := fold_left step es s.

(** Consecutive sources do not overlap: each starts no earlier than
    the one before it ends. *)
Fixpoint chained (l : list Source) : Prop :=
  match l with
  | a :: (b :: _) as t => src_start a + src_duration a <= src_start b /\ chained t
  | _ => True
  end.

(** Start times never go back. *)
Fixpoint ascending (l : list Source) : Prop :=
  match l with
  | a :: (b :: _) as t => src_start a <= src_start b /\ ascending t
  | _ => True
  end.

(** The payload of a segment decodes to a buffer. *)
Definition decodes (seg : Segment) : bool :=
  match decodeAudioData (audioData seg) 24000 1 with
  | Decoded _ => true
  | NotSupportedError => false
  end.

(** A state with an output context in which no decode fails: an idle
    scheduler has an empty queue and a clear flag, a suspended pass holds
    the flag, and what is awaited or queued decodes. *)
Definition ready (s : State) : bool :=
  hasContext s
  && match pass s with
     | NoPass => negb (isScheduling s)
                 && match audioQueue s with [] => true | _ :: _ => false end
     | AwaitResume _ => isScheduling s
     | AwaitDecode _ _ (Decoded _) => isScheduling s
     | AwaitDecode _ _ NotSupportedError => false
     end
  && forallb decodes (audioQueue s).

(** How many continuations the suspended pass still needs. *)
Definition pending (s : State) : nat :=
  match pass s with
  | NoPass => 0
  | AwaitResume _ => S (List.length (audioQueue s))
  | AwaitDecode _ _ _ => Nat.max 1 (List.length (audioQueue s))
  end.

(** When a source ends. *)
Definition src_end (a : Source) : Q := src_start a + src_duration a.

(** Two sources at the same place of the timeline. *)
Definition same_times (a b : Source) : Prop :=
  src_start a = src_start b /\ src_duration a = src_duration b.

(** What every reachable state satisfies. *)
Record Timeline (s : State) : Prop := mkTimeline {
  tl_chained : chained (sources s);
  tl_durations : forall a, In a (sources s) -> 0 <= src_duration a;
  tl_cursor : forall a, In a (sources s) -> src_end a <= nextStartTime s;
  tl_decoding : match pass s with
                | AwaitDecode _ item r => r = decodeAudioData (audioData item) 24000 1
                | _ => True
                end
}.

(** An event that brings no payload that fails to decode. *)
Definition decodable_event (e : Event) : bool :=
  match e with
  | Enqueue _ seg => decodes seg
  | _ => true
  end.

(** No event of the list is the flush of the audio toggle. *)
Definition noFlush (es : list Event) : bool :=
  forallb (fun e => match e with StopAndClear => false | _ => true end) es.

(** The queue starts with the segment whose decode the pass awaits. *)
Definition headAwaited (s : State) : Prop :=
  match pass s with
  | AwaitDecode _ item _ => exists rest, audioQueue s = item :: rest
  | _ => True
  end.

(** The flag is set exactly while a pass is suspended, and an idle
    scheduler has nothing queued. *)
Definition settledOrBusy (s : State) : Prop :=
  match pass s with
  | NoPass => isScheduling s = false /\ audioQueue s = []
  | _ => isScheduling s = true
  end.

(** The segments started on the device, oldest first, then those
    still in the queue. *)
Definition lineup (s : State) : list Segment :=
  map src_item (sources s) ++ audioQueue s.

(** The source is sounding at device time [t]: it has started, has
    not reached its end and was not stopped. *)
Definition playingAt (t : Q) (a : Source) : bool :=
  Qle_bool (src_start a) t && Qltb t (src_start a + src_duration a)
  && negb (src_stopped a).

(** A property of the message index of a segment, when it has one. *)
Definition optP (P : nat -> Prop) (o : option nat) : Prop :=
  match o with Some i => P i | None => True end.

(** Every message index the player holds satisfies [P]: those of the
    queued segments, that of the segment being decoded, and the playing
    marker. *)
Record Indexed (P : nat -> Prop) (s : State) : Prop := mkIndexed {
  ix_queue : Forall (fun seg => optP P (messageIndex seg)) (audioQueue s);
  ix_pass : match pass s with
            | AwaitDecode _ item _ => optP P (messageIndex item)
            | _ => True
            end;
  ix_marker : optP P (currentlyPlayingIndex s)
}.

(** The cursor is where the source started last ends. *)
Definition cursorAtEnd (s : State) : Prop :=
  forall l a, sources s = l ++ [a] -> nextStartTime s = src_start a + src_duration a.

(** What was pushed is what was started, in that order, followed by
    what is still queued. *)
Definition fifo (s : State) : Prop :=
  pushed s = map src_item (sources s) ++ audioQueue s /\ headAwaited s.

(** There is no output context and nothing has been started. *)
Definition silent (s : State) : Prop :=
  hasContext s = false /\ pass s = NoPass /\ isScheduling s = false /\
  sources s = [] /\ currentlyPlayingIndex s = None.

End Player.

(** ** Strings *)

Module Str.

(** WhiteSpace and LineTerminator code units, what [trim] removes. *)
Definition isWhiteSpace (c : N) : bool :=
  ((9 <=? c) && (c <=? 13) || (c =? 32) || (c =? 160) || (c =? 5760)
   || (8192 <=? c) && (c <=? 8202) || (c =? 8232) || (c =? 8233)
   || (c =? 8239) || (c =? 8287) || (c =? 12288) || (c =? 65279))%N.

Fixpoint trimStart (s : jsstring) : jsstring :=
  match s with
  | c :: rest => if isWhiteSpace c then trimStart rest else s
  | [] => []
  end.

Definition trim (s : jsstring) : jsstring :=
  rev (trimStart (rev (trimStart s))).

(** Truthiness of a string: it is not empty. *)
Definition truthy (s : jsstring) : bool :=
  match s with [] => false | _ :: _ => true end.

Fixpoint eqb (a b : jsstring) : bool :=
  match a, b with
  | [], [] => true
  | x :: a', y :: b' => (x =? y)%N && eqb a' b'
  | _, _ => false
  end.

Definition endsWith (s suffix : jsstring) : bool :=
  (List.length suffix <=? List.length s)%nat
  && eqb (skipn (List.length s - List.length suffix) s) suffix.

(** [text.match(/[.!?]/)] finds something. *)
Definition hasSentenceEnd (s : jsstring) : bool :=
  existsb (fun c => (c =? 46) || (c =? 33) || (c =? 63))%N s.

Definition ellipsis : jsstring := js "...".

End Str.

(** ** The component *)

Module Chatbot.
Import Codec.

Inductive Role : Type := User | Model.

Record Message : Type := mkMessage {
  role : Role;
  text : jsstring;
  imageData : option jsstring
}.

(** A platform resource reached through a ref: whether the ref is
    set, whether the resource it points to is still held (tracks
    running, context or session open), and how many resources the ref
    pointed to before were left held when the ref was given another:
    nothing reaches those any more. *)
Record Handle : Type := mkHandle {
  attached : bool;
  held : bool;
  abandoned : nat
}.

Definition noHandle : Handle := mkHandle false false 0.

(** [ref.current = fresh], for a resource just created. *)
Definition assign (h : Handle) : Handle :=
  mkHandle true true (if held h then S (abandoned h) else abandoned h).

(** [ref.current?.close(); ref.current = null]. *)
Definition release (h : Handle) : Handle :=
  mkHandle false (if attached h then false else held h) (abandoned h).

(** The refs of the live session. *)
Record Live : Type := mkLive {
  liveSession : Handle;
  microphoneStream : Handle;
  audioWorkletNode : Handle;
  inputAudioContext : Handle;
  currentUserTranscription : jsstring;
  currentModelTranscription : jsstring
}.

(** The four refs of the live session. *)
Definition handlesOf (lv : Live) : Handle * Handle * Handle * Handle :=
  (liveSession lv, microphoneStream lv, audioWorkletNode lv, inputAudioContext lv).

(** An entry of [ttsPromiseQueueRef]; the promise is named by the rank
    of the [textToSpeech] call that made it. *)
Record TtsJob : Type := mkJob {
  promise : nat;
  job_messageIndex : nat
}.

(** How a synthesis promise settles: with a string or [null], or
    rejected. *)
Inductive Outcome : Type :=
| Resolved (audio : option (list byte))
| Rejected.

Record Tts : Type := mkTts {
  ttsPromiseQueue : list TtsJob;        (* ttsPromiseQueueRef *)
  isProcessingTts : bool;               (* isProcessingTtsRef *)
  awaited : option TtsJob;              (* the job [processNextTts] waits for *)
  requests : list (jsstring * nat);     (* history: every job made, with its text *)
  settled : list (nat * Outcome)        (* the promises settled so far *)
}.

(** What a running [handleSendMessage] closed over at its render, and
    its local [fullText]. *)
Record SendFrame : Type := mkFrame {
  sf_isAudioEnabled : bool;
  sf_isLiveSessionActive : bool;
  sf_messagesLength : nat;
  fullText : jsstring
}.

Inductive TimerAction : Type := ClearLiveError.

Record State : Type := mkState {
  messages : list Message;
  isLoading : bool;
  isLiveSessionActive : bool;
  liveError : option jsstring;
  isAudioEnabled : bool;
  live : Live;
  tts : Tts;
  player : Player.State;
  timers : list (N * TimerAction);      (* pending [setTimeout], delay in ms *)
  sending : option SendFrame
}.

Definition set_messages (v : list Message) (s : State) : State :=
  mkState v (isLoading s) (isLiveSessionActive s) (liveError s) (isAudioEnabled s)
          (live s) (tts s) (player s) (timers s) (sending s).
Definition set_isLoading (v : bool) (s : State) : State :=
  mkState (messages s) v (isLiveSessionActive s) (liveError s) (isAudioEnabled s)
          (live s) (tts s) (player s) (timers s) (sending s).
Definition set_isLiveSessionActive (v : bool) (s : State) : State :=
  mkState (messages s) (isLoading s) v (liveError s) (isAudioEnabled s)
          (live s) (tts s) (player s) (timers s) (sending s).
Definition set_liveError (v : option jsstring) (s : State) : State :=
  mkState (messages s) (isLoading s) (isLiveSessionActive s) v (isAudioEnabled s)
          (live s) (tts s) (player s) (timers s) (sending s).
Definition set_isAudioEnabled (v : bool) (s : State) : State :=
  mkState (messages s) (isLoading s) (isLiveSessionActive s) (liveError s) v
          (live s) (tts s) (player s) (timers s) (sending s).
Definition set_live (v : Live) (s : State) : State :=
  mkState (messages s) (isLoading s) (isLiveSessionActive s) (liveError s)
          (isAudioEnabled s) v (tts s) (player s) (timers s) (sending s).
Definition set_tts (v : Tts) (s : State) : State :=
  mkState (messages s) (isLoading s) (isLiveSessionActive s) (liveError s)
          (isAudioEnabled s) (live s) v (player s) (timers s) (sending s).
Definition set_player (v : Player.State) (s : State) : State :=
  mkState (messages s) (isLoading s) (isLiveSessionActive s) (liveError s)
          (isAudioEnabled s) (live s) (tts s) v (timers s) (sending s).
Definition set_timers (v : list (N * TimerAction)) (s : State) : State :=
  mkState (messages s) (isLoading s) (isLiveSessionActive s) (liveError s)
          (isAudioEnabled s) (live s) (tts s) (player s) v (sending s).
Definition set_sending (v : option SendFrame) (s : State) : State :=
  mkState (messages s) (isLoading s) (isLiveSessionActive s) (liveError s)
          (isAudioEnabled s) (live s) (tts s) (player s) (timers s) v.

(** The greeting shown at mount, and the messages of the error paths,
    as UTF-16 code units. *)
Definition greeting : jsstring :=
  [88; 105; 110; 32; 99; 104; 224; 111; 33; 32; 84; 244; 105; 32; 108; 224; 32;
   104; 432; 7899; 110; 103; 32; 100; 7851; 110; 32; 118; 105; 234; 110; 32;
   7843; 111; 32; 99; 7911; 97; 32; 98; 7841; 110; 46; 32; 72; 227; 121; 32;
   104; 7887; 105; 32; 116; 244; 105; 32; 98; 7845; 116; 32; 99; 7913; 32; 273;
   105; 7873; 117; 32; 103; 236; 32; 118; 7873; 32; 81; 117; 7843; 110; 103;
   32; 84; 114; 7883; 32; 110; 104; 233; 33]%N.

Definition serverError : jsstring :=
  [76; 7895; 105; 32; 107; 7871; 116; 32; 110; 7889; 105; 32; 109; 225; 121;
   32; 99; 104; 7911; 46; 32; 86; 117; 105; 32; 108; 242; 110; 103; 32; 116;
   104; 7917; 32; 108; 7841; 105; 32; 115; 97; 117; 46]%N.

Definition micError : jsstring :=
  [75; 104; 244; 110; 103; 32; 116; 104; 7875; 32; 116; 114; 117; 121; 32; 99;
   7853; 112; 32; 109; 105; 99; 114; 111; 112; 104; 111; 110; 101; 32; 104;
   111; 7863; 99; 32; 108; 7895; 105; 32; 107; 7871; 116; 32; 110; 7889; 105;
   46]%N.

Definition sendError : jsstring :=
  [88; 105; 110; 32; 108; 7895; 105; 44; 32; 116; 244; 105; 32; 103; 7863; 112;
   32; 115; 7921; 32; 99; 7889; 32; 107; 104; 105; 32; 107; 7871; 116; 32; 110;
   7889; 105; 46]%N.

Definition init (ctx susp : bool) : State :=
  mkState [mkMessage Model greeting None] false false None true
          (mkLive noHandle noHandle noHandle noHandle [] [])
          (mkTts [] false None [] [])
          (Player.init ctx susp) [] None.

(** *** Messages *)

Definition setText (v : jsstring) (m : Message) : Message :=
  mkMessage (role m) v (imageData m).

Definition isUser (m : Message) : bool :=
  match role m with User => true | Model => false end.

(** [const last = newMessages[newMessages.length - 1]; ...]: an update
    of the last message.  The list is never empty. *)
Fixpoint updateLast (f : Message -> Message) (l : list Message) : list Message :=
  match l with
  | [] => []
  | [m] => [f m]
  | m :: rest => m :: updateLast f rest
  end.

Fixpoint updateFirstUser (f : Message -> Message) (l : list Message) : list Message :=
  match l with
  | [] => []
  | m :: rest => if isUser m then f m :: rest else m :: updateFirstUser f rest
  end.

(** [newMessages.slice().reverse().find(m => m.role === 'user')], and an
    update of the message found. *)
Definition lastUserMessage (l : list Message) : option Message :=
  find isUser (rev l).

Definition updateLastUser (f : Message -> Message) (l : list Message) : list Message :=
  rev (updateFirstUser f (rev l)).

(** *** Audio toggle *)

Definition toggleAudio (s : State) : State :=
  let s' := set_isAudioEnabled (negb (isAudioEnabled s)) s in
  if isAudioEnabled s
  then set_player (Player.stopAndClear (player s')) s'
  else s'.

(** *** Live session *)

Record LiveServerMessage : Type := mkLiveMessage {
  inputTranscription : option jsstring;
  outputTranscription : option jsstring;
  inlineData : option (list byte);   (* modelTurn.parts[0].inlineData.data *)
  turnComplete : bool
}.

(** A [setMessages(prev => ...)] whose updater reads a ref.  React
    runs the updater at the call when the component has no update
    pending and it computes the state eagerly; otherwise when it next
    renders, after the handler has returned.  The updater sees the refs
    as they are when it runs. *)
Definition Updater : Type := Live -> list Message -> list Message.

(** A handler in progress: the state, the updaters not yet run, and
    whether the next [setMessages] is computed at the call. *)
Record Handler : Type := mkHandler {
  h_state : State;
  h_pending : list Updater;
  h_eager : bool
}.

Definition setMessages (u : Updater) (h : Handler) : Handler :=
  let s := h_state h in
  if h_eager h
  then mkHandler (set_messages (u (live s) (messages s)) s) (h_pending h) false
  else mkHandler s (h_pending h ++ [u]) false.

(** A statement of the handler that does not call [setMessages]. *)
Definition onState (f : State -> State) (h : Handler) : Handler :=
  mkHandler (f (h_state h)) (h_pending h) (h_eager h).

(** The render after the handler: the pending updaters run in the
    order of their calls, with the refs as the handler left them. *)
Definition render (h : Handler) : State :=
  let s := h_state h in
  match h_pending h with
  | [] => s
  | _ :: _ => set_messages (fold_left (fun l u => u (live s) l) (h_pending h) (messages s)) s
  end.

Definition set_currentUserTranscription (v : jsstring) (s : State) : State :=
  let lv := live s in
  set_live (mkLive (liveSession lv) (microphoneStream lv) (audioWorkletNode lv)
                   (inputAudioContext lv) v (currentModelTranscription lv)) s.

Definition set_currentModelTranscription (v : jsstring) (s : State) : State :=
  let lv := live s in
  set_live (mkLive (liveSession lv) (microphoneStream lv) (audioWorkletNode lv)
                   (inputAudioContext lv) (currentUserTranscription lv) v) s.

(** Lines 330-340. *)
Definition onInputTranscription (t : jsstring) (h : Handler) : Handler :=
  let h := onState (fun s => set_currentUserTranscription
                               (currentUserTranscription (live s) ++ t) s) h in
  setMessages
    (fun lv => updateLast
       (fun m => if isUser m
                 then setText (currentUserTranscription lv ++ Str.ellipsis) m
                 else m)) h.

(** Lines 341-355. *)
Definition onOutputTranscription (t : jsstring) (h : Handler) : Handler :=
  let h := if Str.truthy (currentModelTranscription (live (h_state h))) then h
           else setMessages (fun _ l => l ++ [mkMessage Model [] None]) h in
  let h := onState (fun s => set_currentModelTranscription
                               (currentModelTranscription (live s) ++ t) s) h in
  setMessages
    (fun lv => updateLast
       (fun m => if isUser m then m else setText (currentModelTranscription lv) m)) h.

(** [if (audioData) { audioQueueRef.current.push(...); scheduleAudio(); }]. *)
Definition onInlineData (isOpen : bool) (audioData : list byte) (s : State) : State :=
  match audioData with
  | [] => s
  | _ :: _ =>
      set_player (Player.enqueue isOpen (Player.mkSegment audioData None) (player s)) s
  end.

(** Lines 361-372: the updater is handed to React, then both refs are
    reset. *)
Definition onTurnComplete (h : Handler) : Handler :=
  let h := setMessages
             (fun lv => updateLastUser
                (fun m => if Str.endsWith (text m) Str.ellipsis
                          then setText (currentUserTranscription lv) m else m)) h in
  onState (fun s => set_currentModelTranscription []
                      (set_currentUserTranscription [] s)) h.

(** [handleLiveMessage], and the render that follows it.  [eager]
    tells whether React computes the first state update of the handler
    at the call, which it can only do when the component has no update
    pending. *)
Definition handleLiveMessage (eager : bool) (isOpen : bool)
  (message : LiveServerMessage) (s : State) : State :=
  let h := mkHandler s [] eager in
  let h := match inputTranscription message with
           | Some t => onInputTranscription t h
           | None => h
           end in
  let h := match outputTranscription message with
           | Some t => onOutputTranscription t h
           | None => h
           end in
  let h := match inlineData message with
           | Some d => onState (onInlineData isOpen d) h
           | None => h
           end in
  let h := if turnComplete message then onTurnComplete h else h in
  render h.

(** [startLiveSession], up to [await getUserMedia]. *)
Definition startLiveSession (s : State) : State :=
  set_messages (messages s ++ [mkMessage User Str.ellipsis None])
    (set_liveError None (set_isLiveSessionActive true s)).

(** The microphone is granted: [microphoneStreamRef.current = stream]. *)
Definition micGranted (s : State) : State :=
  let lv := live s in
  set_live (mkLive (liveSession lv) (assign (microphoneStream lv)) (audioWorkletNode lv)
                   (inputAudioContext lv) (currentUserTranscription lv)
                   (currentModelTranscription lv)) s.

(** [onopen], when nothing fails: the input context and the worklet
    node are created. *)
Definition onopen (s : State) : State :=
  let lv := live s in
  set_live (mkLive (liveSession lv) (microphoneStream lv)
                   (assign (audioWorkletNode lv)) (assign (inputAudioContext lv))
                   (currentUserTranscription lv) (currentModelTranscription lv)) s.

(** [liveSessionRef.current = await sessionPromise]. *)
Definition connected (s : State) : State :=
  let lv := live s in
  set_live (mkLive (assign (liveSession lv)) (microphoneStream lv) (audioWorkletNode lv)
                   (inputAudioContext lv) (currentUserTranscription lv)
                   (currentModelTranscription lv)) s.

(** The [catch] of [startLiveSession]. *)
Definition startFailed (s : State) : State :=
  set_timers (timers s ++ [(5000%N, ClearLiveError)])
    (set_liveError (Some micError) (set_isLiveSessionActive false s)).

(** The [onerror] callback of the session. *)
Definition onerror (s : State) : State :=
  set_timers (timers s ++ [(5000%N, ClearLiveError)])
    (set_liveError (Some serverError) (set_isLiveSessionActive false s)).

(** The [onclose] callback of the session. *)
Definition onclose (s : State) : State :=
  set_isLiveSessionActive false s.

Definition stopLiveSession (s : State) : State :=
  let lv := live s in
  set_isLiveSessionActive false
    (set_live (mkLive (release (liveSession lv)) (release (microphoneStream lv))
                      (release (audioWorkletNode lv)) (release (inputAudioContext lv))
                      (currentUserTranscription lv) (currentModelTranscription lv)) s).

(** The [k]-th pending timeout fires. *)
Definition fireTimer (k : nat) (s : State) : State :=
  match nth_error (timers s) k with
  | Some (_, ClearLiveError) =>
      set_liveError None (set_timers (firstn k (timers s) ++ skipn (S k) (timers s)) s)
  | None => s
  end.

(** *** TTS queue *)

Definition processNextTts (s : State) : State :=
  let t := tts s in
  match ttsPromiseQueue t with
  | [] => set_tts (mkTts [] false None (requests t) (settled t)) s
  | job :: rest => set_tts (mkTts rest true (Some job) (requests t) (settled t)) s
  end.

Definition processTtsQueue (txt : jsstring) (messageIndex : nat) (s : State) : State :=
  if Str.truthy (Str.trim txt) then
    let t := tts s in
    let job := mkJob (List.length (requests t)) messageIndex in
    let s := set_tts (mkTts (ttsPromiseQueue t ++ [job]) (isProcessingTts t)
                            (awaited t) (requests t ++ [(txt, messageIndex)])
                            (settled t)) s in
    if isProcessingTts t then s else processNextTts s
  else s.

Fixpoint outcomeOf (id : nat) (l : list (nat * Outcome)) : option Outcome :=
  match l with
  | [] => None
  | (k, o) :: rest => if (k =? id)%nat then Some o else outcomeOf id rest
  end.

(** The promise of a job settles; a promise settles once. *)
Definition ttsSettle (id : nat) (o : Outcome) (s : State) : State :=
  let t := tts s in
  if (id <? List.length (requests t))%nat then
    match outcomeOf id (settled t) with
    | Some _ => s
    | None => set_tts (mkTts (ttsPromiseQueue t) (isProcessingTts t) (awaited t)
                             (requests t) (settled t ++ [(id, o)])) s
    end
  else s.

(** The segment a job gives once its promise has settled, if any:
    [if (audioData) audioQueueRef.current.push({ audioData, messageIndex })]. *)
Definition segmentOf (o : Outcome) (job : TtsJob) : option Player.Segment :=
  match o with
  | Resolved (Some (b :: d)) => Some (Player.mkSegment (b :: d) (Some (job_messageIndex job)))
  | _ => None
  end.

(** [processNextTts] after its [await]; it goes on once the awaited
    promise has settled. *)
Definition ttsContinue (isOpen : bool) (s : State) : State :=
  match awaited (tts s) with
  | None => s
  | Some job =>
      match outcomeOf (promise job) (settled (tts s)) with
      | None => s
      | Some o =>
          let s := match segmentOf o job with
                   | Some seg => set_player (Player.enqueue isOpen seg (player s)) s
                   | None => s
                   end in
          processNextTts s
      end
  end.

(** *** Text chat *)

(** [handleSendMessage], up to the first chunk of the stream. *)
Definition handleSendMessage (input : jsstring) (imagePreview : option jsstring)
  (s : State) : State :=
  let noImage := match imagePreview with None => true | Some _ => false end in
  if (negb (Str.truthy (Str.trim input)) && noImage) || isLoading s then s
  else
    let userMessage := mkMessage User input imagePreview in
    let s1 := set_isLoading true (set_messages (messages s ++ [userMessage]) s) in
    let s2 := set_messages (messages s1 ++ [mkMessage Model [] None]) s1 in
    set_sending
      (Some (mkFrame (isAudioEnabled s) (isLiveSessionActive s)
                     (List.length (messages s)) [])) s2.

(** One round of [for await (const chunk of stream)]. *)
Definition onChunk (chunkText : option jsstring) (s : State) : State :=
  match sending s, chunkText with
  | Some f, Some (c :: t) =>
      let chunk := c :: t in
      let full := fullText f ++ chunk in
      let s := set_sending
                 (Some (mkFrame (sf_isAudioEnabled f) (sf_isLiveSessionActive f)
                                (sf_messagesLength f) full)) s in
      let s := set_messages
                 (updateLast (fun m => if isUser m then m else setText full m)
                             (messages s)) s in
      if sf_isAudioEnabled f && negb (sf_isLiveSessionActive f) then
        if (10 <? List.length chunk)%nat || Str.hasSentenceEnd chunk
        then processTtsQueue chunk (sf_messagesLength f) s
        else s
      else s
  | _, _ => s
  end.

(** The [finally] of [handleSendMessage], and its [catch]. *)
Definition streamEnd (s : State) : State :=
  set_sending None (set_isLoading false s).

Definition streamError (s : State) : State :=
  streamEnd (set_messages (messages s ++ [mkMessage Model sendError None]) s).

(** *** Events *)

Inductive Event : Type :=
| ToggleAudio
| StartLive | MicGranted | Open | Connected | StartFailed
| LiveMessage (eager isOpen : bool) (message : LiveServerMessage)
| LiveError | LiveClose | StopLive
| Timer (k : nat)
| Send (input : jsstring) (imagePreview : option jsstring)
| Chunk (chunkText : option jsstring)
| StreamEnd | StreamError
| TtsSettle (id : nat) (o : Outcome)
| TtsContinue (isOpen : bool)
| PassContinue (currentTime : Q)
| SourceEnded (isOpen : bool) (currentTime : Q).

Definition step (s : State) (e : Event) : State :=
  match e with
  | ToggleAudio => toggleAudio s
  | StartLive => startLiveSession s
  | MicGranted => micGranted s
  | Open => onopen s
  | Connected => connected s
  | StartFailed => startFailed s
  | LiveMessage eager isOpen m => handleLiveMessage eager isOpen m s
  | LiveError => onerror s
  | LiveClose => onclose s
  | StopLive => stopLiveSession s
  | Timer k => fireTimer k s
  | Send input image => handleSendMessage input image s
  | Chunk c => onChunk c s
  | StreamEnd => streamEnd s
  | StreamError => streamError s
  | TtsSettle id o => ttsSettle id o s
  | TtsContinue isOpen => ttsContinue isOpen s
  | PassContinue t => set_player (Player.continue t (player s)) s
  | SourceEnded isOpen t => set_player (Player.onended isOpen t (player s)) s
  end.

Definition run (s : State) (es : list Event) : State := fold_left step es s.

(** *** What the TTS path is expected to push *)

(** The jobs made so far, in the order of their making. *)
Fixpoint jobsFrom (k : nat) (reqs : list (jsstring * nat)) : list TtsJob :=
  match reqs with
  | [] => []
  | (_, idx) :: rest => mkJob k idx :: jobsFrom (S k) rest
  end.

Definition jobs (t : Tts) : list TtsJob := jobsFrom 0 (requests t).

(** The jobs not yet dealt with: the awaited one, then the queue. *)
Definition waiting (t : Tts) : list TtsJob :=
  match awaited t with
  | Some j => j :: ttsPromiseQueue t
  | None => ttsPromiseQueue t
  end.

(** The segments of the jobs of [l] whose synthesis gave audio, in the
    order of [l]. *)
Definition segmentsOf (st : list (nat * Outcome)) (l : list TtsJob)
  : list Player.Segment :=
  flat_map (fun j => match outcomeOf (promise j) st with
                     | Some o => match segmentOf o j with
                                 | Some seg => [seg]
                                 | None => []
                                 end
                     | None => []
                     end) l.

Definition fromTts (seg : Player.Segment) : bool :=
  match Player.messageIndex seg with Some _ => true | None => false end.

(** The segments the TTS path has appended to the playback queue, in
    the order of the appends; those of the live session carry no message
    index. *)
Definition ttsPushed (s : State) : list Player.Segment :=
  filter fromTts (Player.pushed (player s)).

(** *** The three-chunk scenario *)

Definition chunk_Xin : jsstring := [88; 105; 110]%N.
Definition chunk_chao : jsstring := [99; 104; 224; 111; 33]%N.
Definition chunk_ban : jsstring := [98; 7841; 110]%N.
(** "Xin chào!", the text accumulated when the second chunk arrives,
    with the space a reader would put. *)
Definition text_Xin_chao : jsstring := [88; 105; 110; 32; 99; 104; 224; 111; 33]%N.

(** The gate of the running send is closed. *)
Definition gate_closed (s : State) : bool :=
  match sending s with
  | Some f => negb (sf_isAudioEnabled f && negb (sf_isLiveSessionActive f))
  | None => true
  end.

(** What holds of the TTS queue in every reachable state. *)
Record TtsInv (s : State) (done : list TtsJob) : Prop := mkTtsInv {
  inv_jobs : jobs (tts s) = done ++ waiting (tts s);
  inv_pushed : ttsPushed s = segmentsOf (settled (tts s)) done;
  inv_done : Forall (fun j => outcomeOf (promise j) (settled (tts s)) <> None) done;
  inv_flag : isProcessingTts (tts s) =
             match awaited (tts s) with Some _ => true | None => false end;
  inv_idle : awaited (tts s) = None -> ttsPromiseQueue (tts s) = []
}.

(** Every waiting job has settled. *)
Definition all_settled (s : State) : Prop :=
  Forall (fun j => outcomeOf (promise j) (settled (tts s)) <> None) (waiting (tts s)).

(** *** The message list as rendered *)

(** [msg.role === 'model' && currentlyPlayingIndex === idx]: whether
    the playing indicator is drawn on the message at [idx]. *)
Definition showsIndicator (s : State) (idx : nat) : bool :=
  match nth_error (messages s) idx with
  | Some msg =>
      match role msg with Model => true | User => false end
      && match Player.currentlyPlayingIndex (player s) with
         | Some i => (i =? idx)%nat
         | None => false
         end
  | None => false
  end.

(** The message at [i] exists and is a user message. *)
Definition userAt (l : list Message) (i : nat) : Prop :=
  nth_error (map role l) i = Some User.

(** [l'] has the messages of [l], with the same roles, and maybe more
    after them. *)
Definition grows (l l' : list Message) : Prop :=
  exists extra, map role l' = map role l ++ extra.

(** An updater that keeps the messages it is given, with their roles. *)
Definition Growing (u : Updater) : Prop := forall lv l, grows l (u lv l).

(** [s'] differs from [s] at most in the messages, the transcription
    buffers and the player: what the handler of a live message can
    change. *)
Definition sameBut (s s' : State) : Prop :=
  tts s' = tts s /\ sending s' = sending s /\ isLoading s' = isLoading s /\
  isLiveSessionActive s' = isLiveSessionActive s /\ liveError s' = liveError s /\
  isAudioEnabled s' = isAudioEnabled s /\ timers s' = timers s /\
  handlesOf (live s') = handlesOf (live s).

(** What holds of a handler of a live message, started in [s0], at
    each of its statements. *)
Record Tracks (s0 : State) (h : Handler) : Prop := mkTracks {
  tr_same : sameBut s0 (h_state h);
  tr_grows : grows (messages s0) (messages (h_state h));
  tr_pending : Forall Growing (h_pending h)
}.

(** The part of a live message that reaches the player. *)
Definition audioOf (isOpen : bool) (message : LiveServerMessage) (s : State) : State :=
  match inlineData message with
  | Some d => onInlineData isOpen d s
  | None => s
  end.

(** Every message index in flight is that of a user message. *)
Record IndexInv (s : State) : Prop := mkIndexInv {
  ii_player : Player.Indexed (userAt (messages s)) (player s);
  ii_tts : Forall (fun j => userAt (messages s) (job_messageIndex j)) (waiting (tts s));
  ii_sending : match sending s with
               | Some f => userAt (messages s) (sf_messagesLength f)
               | None => True
               end
}.

(** The text of the chunks among the events, in order; a chunk without
    text adds nothing. *)
Definition chunkTexts (es : list Event) : jsstring :=
  flat_map (fun e => match e with
                     | Chunk (Some t) => t
                     | _ => []
                     end) es.

(** Only chunks and attempts to send. *)
Definition streaming (es : list Event) : bool :=
  forallb (fun e => match e with Chunk _ | Send _ _ => true | _ => false end) es.

(** *** What the claim on the TTS order expects *)

(** The audio of a job whose synthesis succeeded: its promise has
    resolved with a string that is not empty. *)
Definition succeeded (st : list (nat * Outcome)) (j : TtsJob) : option (list byte) :=
  match outcomeOf (promise j) st with
  | Some (Resolved (Some (b :: d))) => Some (b :: d)
  | _ => None
  end.

(** The jobs of [l] whose synthesis succeeded, in the order of [l],
    each as the segment of its audio for its message. *)
Definition expectedSegments (st : list (nat * Outcome)) (l : list TtsJob)
  : list Player.Segment :=
  flat_map (fun j => match succeeded st j with
                     | Some audio => [Player.mkSegment audio (Some (job_messageIndex j))]
                     | None => []
                     end) l.

(** What a step of the component asks of the player. *)
Definition playerEvents (s : State) (e : Event) : list Player.Event :=
  match e with
  | ToggleAudio => if isAudioEnabled s then [Player.StopAndClear] else []
  | LiveMessage _ isOpen m =>
      match inlineData m with
      | Some (b :: d) => [Player.Enqueue isOpen (Player.mkSegment (b :: d) None)]
      | _ => []
      end
  | TtsContinue isOpen =>
      match awaited (tts s) with
      | Some job =>
          match outcomeOf (promise job) (settled (tts s)) with
          | Some o =>
              match segmentOf o job with
              | Some seg => [Player.Enqueue isOpen seg]
              | None => []
              end
          | None => []
          end
      | None => []
      end
  | PassContinue t => [Player.Continue t]
  | SourceEnded isOpen t => [Player.Ended isOpen t]
  | _ => []
  end.

Fixpoint playerTrace (s : State) (es : list Event) : list Player.Event :=
  match es with
  | [] => []
  | e :: rest => playerEvents s e ++ playerTrace (step s e) rest
  end.

(** The audio toggle is not used. *)
Definition noToggle (es : list Event) : bool :=
  forallb (fun e => match e with ToggleAudio => false | _ => true end) es.

(** Events that neither start a send nor belong to its stream. *)
Definition betweenChunks (es : list Event) : bool :=
  forallb (fun e => match e with
                    | Send _ _ | Chunk _ | StreamEnd | StreamError => false
                    | _ => true
                    end) es.

(** No handle is held without its ref being set. *)
Definition tidy (h : Handle) : bool := implb (held h) (attached h).

Definition tidyLive (lv : Live) : bool :=
  tidy (liveSession lv) && tidy (microphoneStream lv)
  && tidy (audioWorkletNode lv) && tidy (inputAudioContext lv).

(** The display while a send is in flight: the reply is the last
    message and holds the text received so far. *)
Definition replying (base : list Message) (s : State) : Prop :=
  isLoading s = true /\
  exists f, sending s = Some f /\
            messages s = base ++ [mkMessage Model (fullText f) None].

End Chatbot.

(** ** Capture worklet *)

Module Worklet.

(** [PcmProcessor]: [_buffer] and [_bytesWritten]; [_bufferSize] is
    4096. *)
Record State : Type := mkState {
  buffer : list num;
  bytesWritten : nat
}.

Definition bufferSize : nat := 4096%nat.

Definition init : State := mkState (repeat (Fin 0) bufferSize) 0%nat.

(** One round of the loop over [channelData]: the sample is written,
    and a full buffer is posted as a copy ([this._buffer.slice()]).  The
    second component collects what [port.postMessage] was given. *)
Definition write (st : State * list (list num)) (x : num)
  : State * list (list num) :=
  let (s, posted) := st in
  let buf := store (buffer s) (bytesWritten s) x in
  let w := S (bytesWritten s) in
  if (bufferSize <=? w)%nat
  then (mkState buf 0%nat, posted ++ [buf])
  else (mkState buf w, posted).

(** [process(inputs, outputs, parameters)]; [inputs[0]] is the list of
    channels of the first input. *)
Definition process (inputs : list (list (list num))) (s : State)
  : State * list (list num) :=
  match inputs with
  | (channelData :: _) :: _ => fold_left write channelData (s, [])
  | _ => (s, [])
  end.

(** A run of [process] calls, with everything posted on the way. *)
Fixpoint processAll (calls : list (list (list (list num)))) (s : State)
  : State * list (list num) :=
  match calls with
  | [] => (s, [])
  | inputs :: rest =>
      let (s1, p1) := process inputs s in
      let (s2, p2) := processAll rest s1 in
      (s2, p1 ++ p2)
  end.

(** The samples a call hands to the processor: channel 0 of input 0. *)
Definition samplesOf (inputs : list (list (list num))) : list num :=
  match inputs with
  | (channelData :: _) :: _ => channelData
  | _ => []
  end.

(** The samples written to the buffer and not yet posted. *)
Definition unsent (s : State) : list num := firstn (bytesWritten s) (buffer s).

(** [processor.port.onmessage]: the blob sent for a posted window. *)
Definition onmessage (window : list num) : Codec.GeminiBlob :=
  Codec.createPcmBlob window.

(** The buffer keeps its size and the write position stays inside. *)
Definition wf (s : State) : Prop :=
  List.length (buffer s) = bufferSize /\ (bytesWritten s < bufferSize)%nat.

(** Every posted window has the size of the buffer. *)
Definition windows (posted : list (list num)) : Prop :=
  Forall (fun w => List.length w = bufferSize) posted.

End Worklet.

(** ** Quiz *)

Module Quiz.

Record Question : Type := mkQuestion {
  question : jsstring;
  options : list jsstring;
  correctIndex : Z;
  explanation : jsstring
}.

Record State : Type := mkState {
  selectedLocation : option jsstring;
  loading : bool;
  questions : list Question;
  currentIndex : nat;
  userAnswers : list (option Z);        (* [None] is [null] *)
  showResult : bool
}.

Definition init : State := mkState None false [] 0%nat [] false.

(** [generateQuiz], up to the request. *)
Definition generateQuiz (location : jsstring) (s : State) : State :=
  mkState (Some location) true [] 0%nat [] false.

(** The reply was parsed: [setQuestions(data)] and one [null] per
    question, then the [finally]. *)
Definition quizLoaded (data : list Question) (s : State) : State :=
  mkState (selectedLocation s) false data (currentIndex s)
          (repeat None (List.length data)) (showResult s).

(** No text, or the request or the parse failed: only the [finally]. *)
Definition quizFailed (s : State) : State :=
  mkState (selectedLocation s) false (questions s) (currentIndex s)
          (userAnswers s) (showResult s).

(** [userAnswers[questionIndex] !== null] is true for a recorded answer
    and also past the end of the array, where the read is [undefined]. *)
Definition handleAnswer (questionIndex : nat) (optionIndex : Z) (s : State) : State :=
  match nth_error (userAnswers s) questionIndex with
  | Some None =>
      mkState (selectedLocation s) (loading s) (questions s) (currentIndex s)
              (store (userAnswers s) questionIndex (Some optionIndex)) (showResult s)
  | _ => s
  end.

Definition nextQuestion (s : State) : State :=
  if (Z.of_nat (currentIndex s) <? Z.of_nat (List.length (questions s)) - 1)%Z
  then mkState (selectedLocation s) (loading s) (questions s) (S (currentIndex s))
               (userAnswers s) (showResult s)
  else mkState (selectedLocation s) (loading s) (questions s) (currentIndex s)
               (userAnswers s) true.

Definition resetQuiz (s : State) : State := mkState None (loading s) [] 0%nat [] false.

(** The callback of [reduce]: one more when the question exists and the
    answer is its correct index. *)
Definition scoreStep (qs : list Question) (acc : nat) (entry : nat * option Z) : nat :=
  match nth_error qs (fst entry), snd entry with
  | Some q, Some answer => if (answer =? correctIndex q)%Z then S acc else acc
  | _, _ => acc
  end.

Definition calculateScore (s : State) : nat :=
  fold_left (scoreStep (questions s))
            (combine (seq 0 (List.length (userAnswers s))) (userAnswers s)) 0%nat.

(** The first option chosen for a question in a list of clicks. *)
Fixpoint firstChoice (clicks : list (nat * Z)) (questionIndex : nat) : option Z :=
  match clicks with
  | [] => None
  | (q, o) :: rest => if (q =? questionIndex)%nat then Some o else firstChoice rest questionIndex
  end.

Definition answerAll (clicks : list (nat * Z)) (s : State) : State :=
  fold_left (fun st c => handleAnswer (fst c) (snd c) st) clicks s.

(** The point a recorded answer is worth, and the points of a list of
    answers starting at question [k]. *)
Definition point (qs : list Question) (k : nat) (a : option Z) : nat :=
  match nth_error qs k, a with
  | Some q, Some v => if (v =? correctIndex q)%Z then 1%nat else 0%nat
  | _, _ => 0%nat
  end.

Fixpoint pointsFrom (qs : list Question) (k : nat) (l : list (option Z)) : nat :=
  match l with
  | [] => 0%nat
  | a :: t => point qs k a + pointsFrom qs (S k) t
  end.

(** [k] clicks on the "next" button. *)
Fixpoint clickNext (k : nat) (s : State) : State :=
  match k with
  | O => s
  | S k' => clickNext k' (nextQuestion s)
  end.

End Quiz.

(** ** API service *)

Module Api.
Import Chatbot.

(** An entry of the chat history: a role and its parts, which here
    are text parts only. *)
Record HistoryEntry : Type := mkEntry {
  h_role : Role;
  h_parts : list jsstring
}.

(** The body of the loop of [formatHistory]. *)
Definition historyStep (history : list HistoryEntry) (message : Message)
  : list HistoryEntry :=
  if (if isUser message then false else true) && negb (Str.truthy (text message))
  then history
  else
    let parts := if Str.truthy (text message) then [text message] else [] in
    match parts with
    | [] => history
    | _ :: _ => history ++ [mkEntry (role message) parts]
    end.

(** [messages.slice(0, -1)], then the loop. *)
Definition formatHistory (messages : list Message) : list HistoryEntry :=
  fold_left historyStep (removelast messages) [].

(** The argument [streamChat] receives from [handleSendMessage]:
    [messages.concat(userMessage)]. *)
Definition historyOfSend (messages : list Message) (userMessage : Message)
  : list HistoryEntry :=
  formatHistory (messages ++ [userMessage]).

(** The history entry of a message with text. *)
Definition entryOf (m : Message) : HistoryEntry := mkEntry (role m) [text m].

End Api.

(* ================================================================= *)
(** * Properties *)

(** ** Arithmetic of the number model *)

Lemma Qle_bool_false (x y : Q) : Qle_bool x y = false -> y < x.
Proof.
  intros H. apply Qnot_le_lt. intros Hle.
  apply Qle_bool_iff in Hle. congruence.
Qed.

Lemma Qltb_true (x y : Q) : Qltb x y = true <-> x < y.
Proof.
  unfold Qltb. split.
  - intros H. apply negb_true_iff in H. now apply Qle_bool_false.
  - intros H. apply negb_true_iff. destruct (Qle_bool y x) eqn:E; auto.
    apply Qle_bool_iff in E. lra.
Qed.

Lemma Qltb_false (x y : Q) : Qltb x y = false <-> y <= x.
Proof.
  unfold Qltb. rewrite negb_false_iff. apply Qle_bool_iff.
Qed.

Lemma Qtrunc_nonneg (q : Q) : 0 <= q -> Qtrunc q = Qfloor q.
Proof.
  intros H. unfold Qtrunc. apply Qle_bool_iff in H. now rewrite H.
Qed.

Lemma Qtrunc_neg (q : Q) : q < 0 -> Qtrunc q = Qceiling q.
Proof.
  intros H. unfold Qtrunc. destruct (Qle_bool 0 q) eqn:E; auto.
  apply Qle_bool_iff in E. lra.
Qed.

Lemma Qfloor_half (n : nat) :
  Qfloor (inject_Z (Z.of_nat n) / 2) = Z.of_nat (n / 2).
Proof.
  change 2 with (inject_Z 2). rewrite <- Zdiv_Qdiv.
  now rewrite Nat2Z.inj_div.
Qed.

Lemma Qdiv_32768 (q : Q) : q / 32768 == q * (1 # 32768).
Proof. reflexivity. Qed.

Lemma wrap16 (z : Z) :
  (-32768 <= z < 32768)%Z ->
  (let m := (z mod 65536)%Z in if (32768 <=? m)%Z then (m - 65536)%Z else m) = z.
Proof.
  intros H. cbv zeta.
  destruct (Z.leb_spec 32768 (z mod 65536));
    Z.to_euclidean_division_equations; lia.
Qed.

(** ** The codec *)

Module CodecFacts.
Import Codec.

Lemma Z_of_byte_of_Z (z : Z) : Z_of_byte (byte_of_Z z) = (z mod 256)%Z.
Proof.
  unfold Z_of_byte, byte_of_Z.
  assert (0 <= z mod 256 < 256)%Z as R by (apply Z.mod_pos_bound; lia).
  destruct (Byte.of_N (Z.to_N (z mod 256))) as [b|] eqn:E.
  - apply Byte.to_of_N in E. rewrite E. lia.
  - apply Byte.of_N_None_iff in E. lia.
Qed.

Lemma int16_of_bytes (v : Z) :
  (-32768 <= v < 32768)%Z ->
  int16_of (byte_of_Z ((v mod 65536) mod 256)) (byte_of_Z ((v mod 65536) / 256)) = v.
Proof.
  intros H. unfold int16_of. rewrite !Z_of_byte_of_Z.
  assert (((v mod 65536) mod 256) mod 256
          + 256 * (((v mod 65536) / 256) mod 256) = v mod 65536)%Z as E
    by (Z.to_euclidean_division_equations; lia).
  rewrite E. now apply wrap16.
Qed.

Lemma ToInt16_range (x : num) : (-32768 <= ToInt16 x < 32768)%Z.
Proof.
  destruct x as [| | |q]; simpl; try lia.
  destruct (Z.leb_spec 32768 (Qtrunc q mod 65536));
    Z.to_euclidean_division_equations; lia.
Qed.

(** *** The sample loop of the decoder *)

Lemma store_length {A} (l : list A) i v : List.length (store l i v) = List.length l.
Proof.
  revert i; induction l as [|h t IH]; intros [|i]; simpl; auto.
Qed.

Lemma nth_error_store {A} (l : list A) i v j :
  nth_error (store l i v) j =
  if ((j =? i) && (i <? List.length l))%nat then Some v else nth_error l j.
Proof.
  revert i j; induction l as [|h t IH]; intros [|i] [|j]; simpl; auto.
  now destruct (j =? i)%nat.
Qed.

Section Loop.
Variable A : Type.
Variable f : nat -> A.

Let body (arr : list A) (i : nat) : list A := store arr i (f i).

Lemma loop_length r (l : list A) :
  List.length (fold_left body (seq 0 r) l) = List.length l.
Proof.
  induction r as [|r IH].
  - reflexivity.
  - rewrite seq_S, fold_left_app. simpl. unfold body at 1.
    now rewrite store_length.
Qed.

Lemma loop_nth r (l : list A) j :
  nth_error (fold_left body (seq 0 r) l) j =
  if ((j <? r) && (j <? List.length l))%nat then Some (f j) else nth_error l j.
Proof.
  induction r as [|r IH].
  - reflexivity.
  - rewrite seq_S, fold_left_app. simpl. unfold body at 1.
    rewrite nth_error_store, loop_length, IH.
    destruct (Nat.eqb_spec j r) as [->|Hne]; simpl.
    + destruct (Nat.ltb_spec r (List.length l)); simpl.
      * rewrite (proj2 (Nat.ltb_lt r (S r))) by lia. reflexivity.
      * rewrite Nat.ltb_irrefl. simpl. rewrite andb_false_r. reflexivity.
    + destruct (Nat.ltb_spec j r), (Nat.ltb_spec j (S r)); try lia; reflexivity.
Qed.

Lemma loop_map r n d :
  (n <= r)%nat ->
  fold_left body (seq 0 r) (repeat d n) = map f (seq 0 n).
Proof.
  intros Hr. apply nth_error_ext. intros j.
  rewrite loop_nth, repeat_length.
  rewrite nth_error_map.
  destruct (Nat.ltb_spec j n) as [Hj|Hj].
  - rewrite (proj2 (Nat.ltb_lt j r)) by lia. simpl.
    rewrite (nth_error_nth' _ 0%nat) by (rewrite length_seq; lia).
    rewrite seq_nth by lia. reflexivity.
  - rewrite andb_false_r.
    rewrite (proj2 (nth_error_None _ _)) by (rewrite repeat_length; lia).
    rewrite (proj2 (nth_error_None (seq 0 n) j)) by (rewrite length_seq; lia).
    reflexivity.
Qed.
End Loop.

Lemma ToIndex_sampleLength (data : list byte) :
  ToIndex (sampleLengthOf data) = (List.length data / 2)%nat.
Proof.
  unfold ToIndex, sampleLengthOf.
  rewrite Qtrunc_nonneg.
  - rewrite Qfloor_half. apply Nat2Z.id.
  - apply Qle_shift_div_l; [lra|].
    rewrite Qmult_0_l. change 0 with (inject_Z 0). rewrite <- Zle_Qle. lia.
Qed.

Lemma toFloat32_map (data : list byte) :
  let n := (List.length data / 2)%nat in
  toFloat32 data = map (fun i => normalize (int16_get data n i)) (seq 0 n).
Proof.
  cbv zeta. unfold toFloat32. rewrite ToIndex_sampleLength.
  apply (loop_map (fun i => normalize (int16_get data (List.length data / 2) i))).
  pose proof (Qle_floor_ceiling (sampleLengthOf data)) as H.
  unfold sampleLengthOf in H at 1. rewrite Qfloor_half in H.
  rewrite <- Zle_Qle in H. lia.
Qed.

Lemma toFloat32_samples (data : list byte) :
  toFloat32 data = map (pcm_sample data) (seq 0 (List.length data / 2)).
Proof.
  rewrite toFloat32_map. apply map_ext_in. intros i Hi.
  apply in_seq in Hi. unfold int16_get, pcm_sample.
  rewrite (proj2 (Nat.ltb_lt _ _)) by lia.
  assert (2 * (List.length data / 2) <= List.length data)%nat as Hlen
    by (apply Nat.Div0.mul_div_le).
  rewrite (nth_error_nth' data x00) by lia.
  rewrite (nth_error_nth' data x00) by lia.
  reflexivity.
Qed.

Lemma toFloat32_length (data : list byte) :
  List.length (toFloat32 data) = (List.length data / 2)%nat.
Proof.
  now rewrite toFloat32_samples, length_map, length_seq.
Qed.

(** Frames handed to [createBuffer]: the floor of the floor. *)
Lemma frames_of (data : list byte) (ch : nat) :
  (0 < ch)%nat ->
  Qtrunc (sampleLengthOf data / inject_Z (Z.of_nat ch)) =
  Z.of_nat (List.length data / 2 / ch).
Proof.
  intros Hch. unfold sampleLengthOf.
  set (a := Z.of_nat (List.length data)). set (c := Z.of_nat ch).
  assert (0 < c)%Z as Hc by lia.
  assert (0 < inject_Z c) as Hc' by (change 0 with (inject_Z 0); now rewrite <- Zlt_Qlt).
  assert (0 <= inject_Z a) as Ha'
    by (change 0 with (inject_Z 0); rewrite <- Zle_Qle; lia).
  rewrite Qtrunc_nonneg.
  - assert (inject_Z a / 2 / inject_Z c == inject_Z a / inject_Z (2 * c)) as E.
    { rewrite inject_Z_mult. change (inject_Z 2) with 2. field. lra. }
    rewrite E, <- Zdiv_Qdiv, !Nat2Z.inj_div. fold a c.
    change (Z.of_nat 2) with 2%Z. now rewrite Z.div_div by lia.
  - apply Qle_shift_div_l; [assumption|]. rewrite Qmult_0_l.
    apply Qle_shift_div_l; lra.
Qed.

Lemma nth_map_seq {A} (f : nat -> A) (n k : nat) (d : A) :
  (k < n)%nat -> nth k (map f (seq 0 n)) d = f k.
Proof.
  intros Hk. apply nth_error_nth.
  rewrite nth_error_map, (nth_error_nth' _ 0%nat) by (rewrite length_seq; lia).
  now rewrite seq_nth by lia.
Qed.

(** C6, the claim as stated, fails: three bytes are not a whole number
    of 16-bit mono samples, and the decoder returns a one-sample buffer
    (the last byte is ignored) instead of failing. *)
Lemma decode_odd_length_succeeds :
  (List.length [x00; x40; x07] mod (2 * 1) <> 0)%nat /\
  decodeAudioData [x00; x40; x07] 24000 1 =
    Decoded {| numberOfChannels := 1; frames := 1; sampleRate := 24000;
               channels := [[Fin (16384 # 32768)]] |}.
Proof.
  split; [discriminate | reflexivity].
Qed.

(** What the decoder returns, for every input. *)
Lemma decodeAudioData_frames (data : list byte) (rate : Q) (ch : nat) :
  supported ch rate = true ->
  (Z.of_nat (List.length data / 2 / ch) < 4294967296)%Z ->
  decodeAudioData data rate ch =
    let f := (List.length data / 2 / ch)%nat in
    if (f =? 0)%nat then NotSupportedError
    else Decoded {| numberOfChannels := ch; frames := f; sampleRate := rate;
                    channels :=
                      map (fun c => map (fun i => pcm_sample data (i * ch + c))
                                        (seq 0 f))
                          (seq 0 ch) |}.
Proof.
  intros Hsup Hbig. cbv zeta. unfold decodeAudioData, createBuffer.
  assert (0 < ch)%nat as Hch.
  { unfold supported in Hsup. rewrite !andb_true_iff in Hsup.
    destruct Hsup as [[[H1 _] _] _]. apply Nat.leb_le in H1. lia. }
  rewrite (frames_of data Hch), Z.mod_small, Nat2Z.id by lia.
  rewrite Hsup. cbn [negb orb].
  destruct (Nat.eqb_spec (List.length data / 2 / ch) 0) as [E0|E0]; [reflexivity|].
  destruct (Nat.eqb_spec ch 1) as [->|Hne].
  - rewrite Nat.div_1_r in *. unfold copyToChannel0.
    cbn [channels frames numberOfChannels sampleRate repeat seq map].
    rewrite firstn_all2 by (rewrite toFloat32_length; lia).
    rewrite skipn_all2 by (rewrite toFloat32_length, repeat_length; lia).
    rewrite app_nil_r, toFloat32_samples.
    do 3 f_equal. apply map_ext. intros i.
    now rewrite Nat.mul_1_r, Nat.add_0_r.
  - unfold deinterleave.
    cbn [channels frames numberOfChannels sampleRate]. do 2 f_equal.
    apply map_ext_in. intros c Hc. apply in_seq in Hc.
    apply map_ext_in. intros i Hi. apply in_seq in Hi.
    unfold float32_get. rewrite toFloat32_samples. apply nth_map_seq.
    pose proof (Nat.Div0.mul_div_le (List.length data / 2) ch). nia.
Qed.

(** C6, amended: the decoder checks no length and raises no decode
    error of its own.  For a channel count and a rate of the nominal
    range (1 to 32 channels, 8000 to 96000 frames per second) and an
    input of fewer than 2^32 frames, it reads the [len / 2] whole
    little-endian 16-bit words of the input, each divided by 32768, and
    returns [len / 2 / channels] frames per channel, de-interleaved;
    left-over bytes and samples are ignored.  On such input it fails
    exactly when that frame count is zero, with the error of the buffer
    creation. *)
Theorem decodeAudioData_spec (data : list byte) (rate : Q) (ch : nat) :
  supported ch rate = true ->
  (Z.of_nat (List.length data / 2 / ch) < 4294967296)%Z ->
  decodeAudioData data rate ch =
    let f := (List.length data / 2 / ch)%nat in
    if (f =? 0)%nat then NotSupportedError
    else Decoded {| numberOfChannels := ch; frames := f; sampleRate := rate;
                    channels :=
                      map (fun c => map (fun i => pcm_sample data (i * ch + c))
                                        (seq 0 f))
                          (seq 0 ch) |}.
Proof.
  intros Hsup Hbig. now apply decodeAudioData_frames.
Qed.

Lemma decodeAudioData_spec_witness :
  decodeAudioData [x01; x02; x03; x04; x05; x06; x07] 24000 2 =
    Decoded {| numberOfChannels := 2; frames := 1; sampleRate := 24000;
               channels := [[pcm_sample [x01; x02; x03; x04; x05; x06; x07] 0];
                            [pcm_sample [x01; x02; x03; x04; x05; x06; x07] 1]] |}.
Proof.
  apply (@decodeAudioData_spec [x01; x02; x03; x04; x05; x06; x07] 24000 2).
  - reflexivity.
  - simpl. lia.
Defined.

(** *** Encoding then decoding *)

Lemma pcm_sample_cons2 (a b : byte) (rest : list byte) (k : nat) :
  pcm_sample (a :: b :: rest) (S k) = pcm_sample rest k.
Proof.
  unfold pcm_sample.
  replace (2 * S k)%nat with (S (S (2 * k))) by lia.
  replace (S (S (2 * k)) + 1)%nat with (S (S (2 * k + 1))) by lia.
  reflexivity.
Qed.

Lemma bufferBytes_length (l : list Z) :
  List.length (bufferBytes l) = (2 * List.length l)%nat.
Proof.
  induction l as [|v l IH]; simpl in *; lia.
Qed.

Lemma toFloat32_bufferBytes (l : list Z) :
  Forall (fun v => (-32768 <= v < 32768)%Z) l ->
  toFloat32 (bufferBytes l) = map (fun v => Fin (inject_Z v / 32768)) l.
Proof.
  intros Hl. rewrite toFloat32_samples, bufferBytes_length.
  replace (2 * List.length l / 2)%nat with (List.length l)
    by (rewrite Nat.mul_comm, Nat.div_mul; lia).
  induction Hl as [|v l Hv Hl IH].
  - reflexivity.
  - cbn [List.length seq map]. f_equal.
    + unfold pcm_sample. cbn [bufferBytes flat_map int16_bytes app nth Nat.mul Nat.add].
      now rewrite int16_of_bytes.
    + rewrite <- seq_shift, map_map. rewrite <- IH.
      apply map_ext. intros k. apply pcm_sample_cons2.
Qed.

Lemma clamp_finite (x : num) :
  x <> NaN -> exists s, clamp x = Fin s /\ -1 <= s <= 1.
Proof.
  intros Hx. destruct x as [| | |q]; [congruence| | |]; unfold clamp; simpl.
  - exists (Qmax (-1) 1). split; [reflexivity|].
    destruct (Q.max_spec (-1) 1) as [[_ E]|[_ E]]; rewrite E; lra.
  - exists (-1). split; [reflexivity|lra].
  - exists (Qmax (-1) (Qmin 1 q)). split; [reflexivity|].
    destruct (Q.min_spec 1 q) as [[H1 E1]|[H1 E1]];
      destruct (Q.max_spec (-1) (Qmin 1 q)) as [[H2 E2]|[H2 E2]];
      rewrite E2; rewrite ?E1 in *; lra.
Qed.

(** The word stored for a clamped sample, and how far its decoding is
    from the sample: below for a non-negative sample, above for a
    negative one. *)
Lemma quantize_neg (s : Q) :
  -1 <= s -> s < 0 ->
  let v := ToInt16 (scale (Fin s)) in
  0 <= inject_Z v / 32768 - s /\ inject_Z v / 32768 - s < 1 # 32768.
Proof.
  intros Hlo Hneg. cbv zeta. unfold scale. cbn [ltz].
  rewrite (proj2 (Qltb_true s 0) Hneg). cbn [mulc ToInt16].
  rewrite Qtrunc_neg by lra.
  pose proof (Qle_ceiling (s * 32768)) as Hc1.
  pose proof (Qceiling_lt (s * 32768)) as Hc2.
  set (c := Qceiling (s * 32768)) in *.
  unfold Z.sub in Hc2. rewrite inject_Z_plus in Hc2.
  change (inject_Z (- (1))) with (- (1)) in Hc2.
  assert (-32768 <= c < 1)%Z as Hr.
  { split.
    - rewrite Zle_Qle. change (inject_Z (-32768)) with (-32768). lra.
    - rewrite Zlt_Qlt. change (inject_Z 1) with 1. lra. }
  rewrite wrap16 by lia. clear Hr. clearbody c.
  set (ic := inject_Z c) in *. clearbody ic.
  rewrite Qdiv_32768. split; lra.
Qed.

Lemma quantize_nonneg (s : Q) :
  0 <= s -> s <= 1 ->
  let v := ToInt16 (scale (Fin s)) in
  0 <= s - inject_Z v / 32768 /\ s - inject_Z v / 32768 < 2 # 32768.
Proof.
  intros Hlo Hhi. cbv zeta. unfold scale. cbn [ltz].
  rewrite (proj2 (Qltb_false s 0) Hlo). cbn [mulc ToInt16].
  rewrite Qtrunc_nonneg by lra.
  pose proof (Qfloor_le (s * 32767)) as Hf1.
  pose proof (Qlt_floor (s * 32767)) as Hf2.
  set (f := Qfloor (s * 32767)) in *.
  rewrite inject_Z_plus in Hf2. change (inject_Z 1) with 1 in Hf2.
  assert (-1 < f < 32768)%Z as Hr.
  { split.
    - rewrite Zlt_Qlt. change (inject_Z (-1)) with (-1). lra.
    - rewrite Zlt_Qlt. change (inject_Z 32768) with 32768. lra. }
  rewrite wrap16 by lia. clear Hr. clearbody f.
  set (jf := inject_Z f) in *. clearbody jf.
  rewrite Qdiv_32768. split; lra.
Qed.

Lemma quantize_within (x : num) :
  x <> NaN ->
  within (2 # 32768) (clamp x)
         (Fin (inject_Z (ToInt16 (scale (clamp x))) / 32768)).
Proof.
  intros Hx. destruct (clamp_finite Hx) as (s & -> & Hs).
  unfold within. apply Qabs_Qlt_condition.
  destruct (Qlt_le_dec s 0) as [Hneg|Hpos].
  - destruct (@quantize_neg s) as [A B]; lra.
  - destruct (@quantize_nonneg s) as [A B]; lra.
Qed.

(** C3, the claim as stated, fails: the sample 65535/65536 is encoded
    as the word 32766 (the floor of 32766.5) and decoded as 32766/32768,
    which is 1.5 steps of 1/32768 below the sample. *)
Lemma roundtrip_exceeds_one_step :
  clamp (Fin (65535 # 65536)) = Fin (65535 # 65536) /\
  decodeAudioData (blob_data (createPcmBlob [Fin (65535 # 65536)])) 24000 1 =
    Decoded {| numberOfChannels := 1; frames := 1; sampleRate := 24000;
               channels := [[Fin (32766 # 32768)]] |} /\
  ~ within_le (1 # 32768) (Fin (65535 # 65536)) (Fin (32766 # 32768)).
Proof.
  split; [reflexivity|]. split; [reflexivity|].
  intros H. vm_compute in H. now apply H.
Qed.

Lemma roundtrip_samples (x : list num) :
  Forall (fun e => e <> NaN) x ->
  Forall2 (within (2 # 32768)) (map clamp x)
          (toFloat32 (blob_data (createPcmBlob x))).
Proof.
  intros Hx. unfold createPcmBlob, toInt16Array. cbn [blob_data].
  rewrite toFloat32_bufferBytes.
  - induction Hx as [|e x He Hx IH]; cbn [map]; constructor; auto.
    now apply quantize_within.
  - apply Forall_forall. intros v Hv. apply in_map_iff in Hv.
    destruct Hv as (e & <- & _). apply ToInt16_range.
Qed.

(** C3, amended: for samples that are not NaN, the samples the
    decoder computes from the encoder's bytes (each 16-bit word divided
    by 32768) are as many as the input and each is less than 2/32768
    away from the clamped sample (the encoder scales non-negative
    samples by 32767 and the decoder divides by 32768).  For a non-empty
    input of fewer than 2^32 samples and a rate of the nominal range the
    decoder returns them as the one channel of a mono buffer; for the
    empty input it fails, with the error of the buffer creation. *)
Theorem roundtrip_quantization (x : list num) (rate : Q) :
  Forall (fun e => e <> NaN) x ->
  let ys := toFloat32 (blob_data (createPcmBlob x)) in
  Forall2 (within (2 # 32768)) (map clamp x) ys /\
  (x <> [] ->
   (Z.of_nat (List.length x) < 4294967296)%Z ->
   supported 1 rate = true ->
   decodeAudioData (blob_data (createPcmBlob x)) rate 1 =
     Decoded {| numberOfChannels := 1; frames := List.length x;
                sampleRate := rate; channels := [ys] |}) /\
  (x = [] ->
   decodeAudioData (blob_data (createPcmBlob x)) rate 1 = NotSupportedError).
Proof.
  intros Hx ys. split; [now apply roundtrip_samples|]. split.
  - intros Hne Hbig Hsup.
    assert (List.length (blob_data (createPcmBlob x)) / 2 = List.length x)%nat as E.
    { unfold createPcmBlob, toInt16Array. cbn [blob_data].
      rewrite bufferBytes_length, length_map, Nat.mul_comm, Nat.div_mul; lia. }
    rewrite decodeAudioData_frames by (rewrite ?E, ?Nat.div_1_r; first [exact Hsup|lia]).
    cbv zeta. rewrite E, Nat.div_1_r.
    destruct (Nat.eqb_spec (List.length x) 0) as [E0|_].
    + destruct x; [congruence|discriminate].
    + subst ys. rewrite toFloat32_samples, E. cbn [seq map]. do 3 f_equal.
      apply map_ext. intros i. now rewrite Nat.mul_1_r, Nat.add_0_r.
  - intros ->. unfold decodeAudioData, createBuffer. cbn.
    now rewrite orb_true_r.
Qed.

Lemma roundtrip_quantization_witness :
  let x := [Fin (65535 # 65536); Fin (-1 # 3); PInf] in
  let ys := toFloat32 (blob_data (createPcmBlob x)) in
  Forall2 (within (2 # 32768)) (map clamp x) ys /\
  decodeAudioData (blob_data (createPcmBlob x)) 24000 1 =
    Decoded {| numberOfChannels := 1; frames := 3;
               sampleRate := 24000; channels := [ys] |}.
Proof.
  cbv zeta.
  destruct (@roundtrip_quantization [Fin (65535 # 65536); Fin (-1 # 3); PInf] 24000)
    as (A & B & _).
  - repeat constructor; discriminate.
  - split; [exact A|]. apply B.
    + discriminate.
    + simpl. lia.
    + reflexivity.
Defined.

End CodecFacts.

(** ** The playback scheduler *)

Module PlayerFacts.
Import Codec Player.

Lemma bump_ge_now (t c : Q) : t <= bump t c.
Proof.
  unfold bump. destruct (Qltb c t) eqn:E.
  - lra.
  - now apply Qltb_false in E.
Qed.

Lemma bump_ge_cursor (t c : Q) : c <= bump t c.
Proof.
  unfold bump. destruct (Qltb c t) eqn:E.
  - apply Qltb_true in E. lra.
  - lra.
Qed.

Lemma decoded_sampleRate data rate ch b :
  decodeAudioData data rate ch = Decoded b -> sampleRate b = rate.
Proof.
  unfold decodeAudioData, createBuffer.
  destruct (_ || _)%bool; [discriminate|].
  destruct (ch =? 1)%nat; intros H; injection H as <-; reflexivity.
Qed.

Lemma decoded_duration_nonneg data ch b :
  decodeAudioData data 24000 ch = Decoded b -> 0 <= duration b.
Proof.
  intros H. unfold duration. rewrite (decoded_sampleRate _ _ _ H).
  apply Qle_shift_div_l; [lra|]. rewrite Qmult_0_l.
  change 0 with (inject_Z 0). rewrite <- Zle_Qle. lia.
Qed.

(** *** The timeline of started sources *)


Lemma chained_snoc (l : list Source) (x : Source) :
  chained l ->
  (forall a, In a l -> src_end a <= src_start x) ->
  chained (l ++ [x]).
Proof.
  induction l as [|a [|b t] IH]; intros Hc Hall.
  - exact I.
  - cbn. split; [|exact I]. apply Hall. now left.
  - destruct Hc as [Hab Hc]. split; [exact Hab|].
    apply IH; [exact Hc|]. intros c Hin. apply Hall. now right.
Qed.

Lemma chained_ascending (l : list Source) :
  (forall a, In a l -> 0 <= src_duration a) ->
  chained l -> ascending l.
Proof.
  induction l as [|a [|b t] IH]; intros Hd Hc; try exact I.
  destruct Hc as [Hab Hc]. split.
  - assert (0 <= src_duration a) by (apply Hd; now left). lra.
  - apply IH; [|exact Hc]. intros c Hin. apply Hd. now right.
Qed.


(** Stopping a source leaves the timeline as it is. *)
Lemma stopSource_times (k : nat) (l : list Source) :
  Forall2 same_times l (stopSource k l).
Proof.
  unfold stopSource. destruct (nth_error l k) as [src|] eqn:E.
  - revert k E. induction l as [|a t IH]; intros [|k] E; try discriminate.
    + injection E as ->. constructor; [now split|].
      clear. induction t; constructor; auto. now split.
    + constructor; [now split|]. now apply IH.
  - clear. induction l; constructor; auto. now split.
Qed.

Lemma chained_same_times (l l' : list Source) :
  Forall2 same_times l l' -> chained l -> chained l'.
Proof.
  intros H. induction H as [|a a' t t' Ha Ht IH]; [auto|].
  destruct Ht as [|b b' u u' Hb Hu]; [auto|].
  intros [Hab Hc]. split.
  - destruct Ha as [Ea Ea'], Hb as [Eb _]. rewrite <- Ea, <- Ea', <- Eb. exact Hab.
  - apply IH. exact Hc.
Qed.

Lemma Forall_same_times (P : Q -> Q -> Prop) (l l' : list Source) :
  Forall2 same_times l l' ->
  (forall a, In a l -> P (src_start a) (src_duration a)) ->
  forall a, In a l' -> P (src_start a) (src_duration a).
Proof.
  intros H. induction H as [|a a' t t' Ha Ht IH]; intros Hall c Hin.
  - destruct Hin.
  - destruct Hin as [<-|Hin].
    + destruct Ha as [<- <-]. apply Hall. now left.
    + apply IH; [|exact Hin]. intros d Hd. apply Hall. now right.
Qed.


Lemma Timeline_init ctx susp : Timeline (init ctx susp).
Proof.
  split; cbn; auto; intros a [].
Qed.

Lemma Timeline_loopHead isOpen s :
  Timeline (set_pass NoPass s) -> Timeline (loopHead isOpen s).
Proof.
  intros [H1 H2 H3 _]. unfold loopHead.
  destruct (audioQueue s); split; cbn in *; auto.
Qed.

Lemma Timeline_scheduleAudio isOpen s :
  Timeline s -> Timeline (scheduleAudio isOpen s).
Proof.
  intros H. unfold scheduleAudio.
  destruct (isScheduling s); [exact H|]. cbn.
  destruct (hasContext s); cbn.
  - destruct (suspended s).
    + destruct H as [H1 H2 H3 _]. split; cbn; auto.
    + apply Timeline_loopHead. destruct H as [H1 H2 H3 _]. split; cbn; auto.
  - destruct H as [H1 H2 H3 H4]. split; cbn; auto.
Qed.

Lemma Timeline_finally isOpen s :
  Timeline s -> Timeline (finally isOpen s).
Proof.
  intros [H1 H2 H3 _]. unfold finally. cbv zeta.
  change (audioQueue (leave s)) with (audioQueue s).
  destruct (audioQueue s).
  - split; cbn; auto.
  - apply Timeline_scheduleAudio. split; cbn; auto.
Qed.

Lemma Timeline_playItem isOpen item b t s :
  0 <= duration b ->
  Timeline s -> Timeline (set_pass NoPass (playItem isOpen item b t s)).
Proof.
  intros Hd [H1 H2 H3 _].
  assert (forall a, In a (sources s) -> src_end a <= bump t (nextStartTime s)) as Hb.
  { intros a Ha. pose proof (H3 a Ha). pose proof (bump_ge_cursor t (nextStartTime s)). lra. }
  unfold playItem.
  destruct isOpen, (messageIndex item); split; cbn; auto;
    try (apply chained_snoc; [exact H1|exact Hb]);
    intros a Ha; apply in_app_iff in Ha; destruct Ha as [Ha|[<-|[]]]; cbn;
    auto; try (pose proof (Hb a Ha)); unfold src_end in *; cbn; lra.
Qed.

Lemma Timeline_step s e : Timeline s -> Timeline (step s e).
Proof.
  intros H. destruct e as [isOpen seg|t|isOpen t|]; cbn [step].
  - unfold enqueue. apply Timeline_scheduleAudio.
    destruct H as [H1 H2 H3 H4]. split; cbn; auto.
  - unfold continue. pose proof (tl_decoding H) as Hdec.
    destruct (pass s) as [|isOpen|isOpen item [b|]] eqn:Ep.
    + exact H.
    + apply Timeline_loopHead. destruct H as [H1 H2 H3 _]. split; cbn; auto.
    + apply Timeline_loopHead, Timeline_playItem; [|exact H].
      symmetry in Hdec. exact (decoded_duration_nonneg _ _ Hdec).
    + now apply Timeline_finally.
  - unfold onended. destruct H as [H1 H2 H3 H4].
    destruct (audioQueue s); [|split; auto].
    destruct (Qltb _ _); [|split; auto].
    destruct isOpen; split; cbn; auto.
  - unfold stopAndClear. destruct H as [H1 H2 H3 H4].
    destruct (audioSource s) as [k|]; [|split; cbn; auto].
    pose proof (stopSource_times k (sources s)) as Hst.
    split; cbn; auto.
    + exact (chained_same_times Hst H1).
    + exact (Forall_same_times (fun _ d => 0 <= d) Hst H2).
    + exact (Forall_same_times (fun st d => st + d <= nextStartTime s) Hst H3).
Qed.

Lemma Timeline_run es s : Timeline s -> Timeline (run s es).
Proof.
  revert s. induction es as [|e es IH]; intros s H; [exact H|].
  cbn. apply IH. now apply Timeline_step.
Qed.

(** C1: over every run of the scheduler the started sources do not
    overlap (each starts no earlier than the previous start plus the
    previous duration) and their start times never decrease; a segment
    is started at the cursor after the lead-in rule, which is the
    maximum of the device time and that cursor; the rule moves the
    cursor to the device time plus 50 ms only when the cursor is behind
    the device time; and the cursor then advances by the duration of
    the decoded buffer. *)
Theorem schedule_times_ordered :
  (forall (ctx susp : bool) (es : list Event),
      chained (sources (run (init ctx susp) es)) /\
      ascending (sources (run (init ctx susp) es))) /\
  (forall (isOpen : bool) (item : Segment) (audioBuffer : AudioBuffer)
          (currentTime : Q) (s : State),
      let start := bump currentTime (nextStartTime s) in
      let s' := playItem isOpen item audioBuffer currentTime s in
      sources s' = sources s ++ [mkSource item start (duration audioBuffer) false] /\
      start == Qmax currentTime start /\
      start = (if Qltb (nextStartTime s) currentTime
               then currentTime + (1 # 20) else nextStartTime s) /\
      nextStartTime s' = start + duration audioBuffer).
Proof.
  split.
  - intros ctx susp es.
    pose proof (Timeline_run es (Timeline_init ctx susp)) as [H1 H2 _ _].
    split; [exact H1|]. now apply chained_ascending.
  - intros isOpen item audioBuffer currentTime s. cbv zeta.
    repeat split.
    + unfold playItem. destruct isOpen, (messageIndex item); reflexivity.
    + symmetry. apply Q.max_r. apply bump_ge_now.
    + unfold playItem. destruct isOpen, (messageIndex item); reflexivity.
Qed.

(** *** What a call does to the queue *)

Lemma loopHead_queue isOpen p :
  audioQueue (loopHead isOpen p) = audioQueue p /\
  pushed (loopHead isOpen p) = pushed p.
Proof.
  unfold loopHead. destruct (audioQueue p) eqn:E; cbn; auto.
Qed.

Lemma scheduleAudio_queue isOpen p :
  audioQueue (scheduleAudio isOpen p) = audioQueue p /\
  pushed (scheduleAudio isOpen p) = pushed p.
Proof.
  unfold scheduleAudio.
  destruct (isScheduling p); [auto|]. cbn.
  destruct (hasContext p); cbn; [|auto].
  destruct (suspended p); [auto|].
  destruct (loopHead_queue isOpen (set_isScheduling true p)) as [A B].
  rewrite A, B. auto.
Qed.

Lemma enqueue_queue isOpen seg p :
  audioQueue (enqueue isOpen seg p) = audioQueue p ++ [seg] /\
  pushed (enqueue isOpen seg p) = pushed p ++ [seg].
Proof.
  unfold enqueue.
  destruct (scheduleAudio_queue isOpen
              (set_pushed (pushed p ++ [seg])
                 (set_audioQueue (audioQueue p ++ [seg]) p))) as [A B].
  rewrite A, B. auto.
Qed.

(** *** The in-flight guard and the end of a pass *)

Lemma scheduleAudio_reinvocations isOpen s :
  reinvocations (scheduleAudio isOpen s) = reinvocations s.
Proof.
  unfold scheduleAudio. destruct (isScheduling s); [reflexivity|]. cbn.
  destruct (hasContext s); cbn; [|reflexivity].
  destruct (suspended s); [reflexivity|].
  unfold loopHead. cbn. destruct (audioQueue s); reflexivity.
Qed.

Lemma playItem_frame isOpen item b t s :
  audioQueue (playItem isOpen item b t s) = tl (audioQueue s) /\
  isScheduling (playItem isOpen item b t s) = isScheduling s /\
  hasContext (playItem isOpen item b t s) = hasContext s.
Proof.
  unfold playItem. destruct isOpen, (messageIndex item); repeat split.
Qed.

Lemma forallb_decodes_head item q :
  forallb decodes (item :: q) = true ->
  exists b, decodeAudioData (audioData item) 24000 1 = Decoded b.
Proof.
  cbn. intros H. apply andb_prop in H. destruct H as [H _].
  unfold decodes in H. destruct (decodeAudioData _ _ _) as [b|]; [now exists b|discriminate].
Qed.

Lemma ready_loopHead isOpen s :
  hasContext s = true -> isScheduling s = true ->
  forallb decodes (audioQueue s) = true ->
  ready (loopHead isOpen s) = true /\
  pending (loopHead isOpen s) = List.length (audioQueue s).
Proof.
  intros Hc Hf Hq. unfold loopHead.
  destruct (audioQueue s) as [|item q] eqn:Eq.
  - unfold ready, pending. cbn. rewrite Hc, Eq. auto.
  - destruct (forallb_decodes_head _ _ Hq) as [b Hb].
    unfold ready, pending, awaitHead. cbn. rewrite Hc, Hf, Eq, Hb, Hq. auto.
Qed.

Lemma ready_continue t s :
  ready s = true ->
  ready (continue t s) = true /\ (pending (continue t s) <= pending s - 1)%nat.
Proof.
  intros H. unfold ready in H.
  apply andb_prop in H. destruct H as [H Hq].
  apply andb_prop in H. destruct H as [Hc Hp].
  unfold continue, pending at 2.
  destruct (pass s) as [|isOpen|isOpen item [b|]] eqn:Ep.
  - unfold ready, pending. rewrite Ep, Hc, Hp, Hq. auto.
  - destruct (@ready_loopHead isOpen (set_suspended false s)) as [R P]; auto.
    split; [exact R|]. rewrite P. cbn. lia.
  - destruct (playItem_frame isOpen item b t s) as (Eq & Ef & Ec).
    destruct (@ready_loopHead isOpen (playItem isOpen item b t s)) as [R P].
    + congruence.
    + congruence.
    + rewrite Eq. destruct (audioQueue s); [reflexivity|].
      cbn in Hq. apply andb_prop in Hq. apply Hq.
    + split; [exact R|]. rewrite P, Eq.
      destruct (audioQueue s); cbn; lia.
  - discriminate.
Qed.

Lemma ready_idle s :
  ready s = true -> pending s = 0%nat ->
  audioQueue s = [] /\ pass s = NoPass /\ isScheduling s = false.
Proof.
  unfold ready, pending. intros H P.
  destruct (pass s) as [| |]; [|discriminate|lia].
  apply andb_prop in H. destruct H as [H _].
  apply andb_prop in H. destruct H as [_ H].
  apply andb_prop in H. destruct H as [Hf Hq].
  destruct (audioQueue s); [|discriminate].
  apply negb_true_iff in Hf. auto.
Qed.

Lemma drain ts : forall s,
  ready s = true -> (pending s <= List.length ts)%nat ->
  ready (run s (map Continue ts)) = true /\
  pending (run s (map Continue ts)) = 0%nat.
Proof.
  induction ts as [|t ts IH]; intros s R P.
  - cbn in *. split; [exact R|lia].
  - cbn [map run fold_left step]. destruct (@ready_continue t s R) as [R' P'].
    apply IH; [exact R'|]. cbn in P. lia.
Qed.

Lemma pending_bound s : (pending s <= S (List.length (audioQueue s)))%nat.
Proof.
  unfold pending. destruct (pass s); lia.
Qed.

Lemma loopHead_reinvocations isOpen s :
  reinvocations (loopHead isOpen s) = reinvocations s.
Proof.
  unfold loopHead. destruct (audioQueue s); reflexivity.
Qed.

Lemma continue_reinvocations t s :
  ready s = true -> reinvocations (continue t s) = reinvocations s.
Proof.
  intros H. unfold ready in H. unfold continue.
  destruct (pass s) as [|isOpen|isOpen item [b|]].
  - reflexivity.
  - now rewrite loopHead_reinvocations.
  - rewrite loopHead_reinvocations. unfold playItem.
    destruct isOpen, (messageIndex item); reflexivity.
  - rewrite andb_false_r in H. discriminate.
Qed.

Lemma drain_reinvocations ts : forall s,
  ready s = true ->
  reinvocations (run s (map Continue ts)) = reinvocations s.
Proof.
  induction ts as [|t ts IH]; intros s R; [reflexivity|].
  cbn [map run fold_left step].
  destruct (@ready_continue t s R) as [R' _].
  change (reinvocations (run (continue t s) (map Continue ts)) = reinvocations s).
  rewrite (IH _ R'). now apply continue_reinvocations.
Qed.

Lemma finally_reinvocations isOpen s :
  reinvocations (finally isOpen s) =
  match audioQueue s with
  | [] => reinvocations s
  | _ :: _ => S (reinvocations s)
  end.
Proof.
  unfold finally. cbv zeta.
  change (audioQueue (leave s)) with (audioQueue s).
  destruct (audioQueue s); [reflexivity|].
  now rewrite scheduleAudio_reinvocations.
Qed.

(** States reached with an output context and payloads that decode
    are [ready]. *)
Lemma ready_enqueue isOpen seg s :
  ready s = true -> decodes seg = true -> ready (enqueue isOpen seg s) = true.
Proof.
  intros R D. unfold ready in R.
  apply andb_prop in R. destruct R as [R Hq].
  apply andb_prop in R. destruct R as [Hc Hp].
  unfold enqueue, scheduleAudio. cbn.
  destruct (isScheduling s) eqn:Ef.
  - unfold ready. cbn. rewrite Hc, Ef, forallb_app, Hq. cbn. rewrite D.
    destruct (pass s) as [| |? ? [|]]; try discriminate; reflexivity.
  - rewrite Hc. cbn.
    destruct (pass s) as [| |? ? [|]] eqn:Ep; try discriminate.
    apply andb_prop in Hp. destruct Hp as [_ Hp].
    destruct (audioQueue s) eqn:Eq; [|discriminate].
    destruct (suspended s).
    + unfold ready. cbn. rewrite Hc, D. reflexivity.
    + apply ready_loopHead; cbn; auto. rewrite D. reflexivity.
Qed.

Lemma ready_onended isOpen t s : ready s = true -> ready (onended isOpen t s) = true.
Proof.
  intros R. unfold onended.
  destruct (audioQueue s) eqn:Eq; [|exact R].
  destruct (Qltb _ _); [|exact R].
  unfold ready in *. destruct isOpen; cbn; rewrite Eq in *; exact R.
Qed.

Lemma ready_stopAndClear s : ready s = true -> ready (stopAndClear s) = true.
Proof.
  intros R. unfold ready in R.
  apply andb_prop in R. destruct R as [R Hq].
  apply andb_prop in R. destruct R as [Hc Hp].
  unfold stopAndClear, ready.
  destruct (audioSource s); cbn; rewrite Hc; cbn; rewrite andb_true_r;
    destruct (pass s) as [| |? ? [|]]; try discriminate; auto;
    apply andb_prop in Hp; destruct Hp as [-> _]; reflexivity.
Qed.


Lemma ready_run es : forall s,
  ready s = true -> forallb decodable_event es = true -> ready (run s es) = true.
Proof.
  induction es as [|e es IH]; intros s R D; [exact R|].
  cbn in D. apply andb_prop in D. destruct D as [De Des].
  cbn [run fold_left]. apply IH; [|exact Des].
  destruct e as [isOpen seg|t|isOpen t|]; cbn [step].
  - now apply ready_enqueue.
  - now apply ready_continue.
  - now apply ready_onended.
  - now apply ready_stopAndClear.
Qed.

(** C9, the claim as stated, fails: segment [b] arrives while the pass
    started for [a] awaits its decode; the call made for [b] is skipped,
    the running loop schedules both, and the pass ends without calling
    itself again. *)
Lemma arrival_during_pass_is_not_reinvoked :
  let a := mkSegment [x00; x40] None in
  let b := mkSegment [x00; xc0; x00; x20] None in
  let s1 := enqueue true a (init true false) in
  let s2 := enqueue true b s1 in
  let s3 := run s2 [Continue 0; Continue 0] in
  isScheduling s1 = true /\
  audioQueue s2 = [a; b] /\
  pass s3 = NoPass /\ audioQueue s3 = [] /\
  map src_item (sources s3) = [a; b] /\
  reinvocations s3 = 0%nat.
Proof.
  repeat split.
Qed.

(** C9, amended: a call made while the in-flight flag is set returns
    the state as it is (queue, cursor, marker and flag included); the
    [finally] block of a pass calls the scheduler again exactly when the
    queue is not empty at that point; and with an output context and
    payloads that decode, the suspended pass empties the queue, segments
    that arrived meanwhile included, within one continuation per queued
    segment plus one, then clears the flag, without calling itself
    again. *)
Theorem guard_and_drain (isOpen : bool) (s : State) (ts : list Q) :
  (isScheduling s = true -> scheduleAudio isOpen s = s) /\
  reinvocations (finally isOpen s) =
    match audioQueue s with
    | [] => reinvocations s
    | _ :: _ => S (reinvocations s)
    end /\
  (ready s = true ->
   (List.length (audioQueue s) < List.length ts)%nat ->
   let s' := run s (map Continue ts) in
   audioQueue s' = [] /\ pass s' = NoPass /\ isScheduling s' = false /\
   reinvocations s' = reinvocations s).
Proof.
  split; [|split].
  - intros H. unfold scheduleAudio. now rewrite H.
  - apply finally_reinvocations.
  - intros R L. cbv zeta.
    destruct (@drain ts s R) as [R' P'].
    { pose proof (pending_bound s). lia. }
    destruct (ready_idle _ R' P') as (A & B & C).
    repeat split; auto. now apply drain_reinvocations.
Qed.

Lemma guard_and_drain_witness :
  let a := mkSegment [x00; x40] (Some 1%nat) in
  let b := mkSegment [x00; xc0; x00; x20] None in
  let s := enqueue true b (enqueue true a (init true true)) in
  scheduleAudio true s = s /\
  audioQueue (run s (map Continue [0; 1 # 10; 1 # 10])) = [].
Proof.
  cbv zeta.
  destruct (guard_and_drain true
              (enqueue true (mkSegment [x00; xc0; x00; x20] None)
                 (enqueue true (mkSegment [x00; x40] (Some 1%nat)) (init true true)))
              [0; 1 # 10; 1 # 10]) as (G & _ & D).
  split.
  - apply G. reflexivity.
  - apply D.
    + reflexivity.
    + simpl. lia.
Defined.

End PlayerFacts.

(** ** The live session *)

Module LiveFacts.
Import Chatbot.

Lemma find_updateFirstUser (f : Message -> Message) (l : list Message) :
  (forall m, isUser (f m) = isUser m) ->
  find isUser (updateFirstUser f l) = option_map f (find isUser l).
Proof.
  intros Hf. induction l as [|m l IH]; [reflexivity|].
  cbn. destruct (isUser m) eqn:E.
  - cbn. now rewrite Hf, E.
  - cbn. now rewrite E.
Qed.

Lemma lastUserMessage_updateLastUser (f : Message -> Message) (l : list Message) :
  (forall m, isUser (f m) = isUser m) ->
  lastUserMessage (updateLastUser f l) = option_map f (lastUserMessage l).
Proof.
  intros Hf. unfold lastUserMessage, updateLastUser.
  rewrite rev_involutive. now apply find_updateFirstUser.
Qed.

Lemma updateLast_last f l m : updateLast f (l ++ [m]) = l ++ [f m].
Proof.
  induction l as [|a l IH]; [reflexivity|].
  cbn [app]. destruct (l ++ [m]) as [|b r] eqn:E.
  - now destruct l.
  - change (updateLast f (a :: b :: r)) with (a :: updateLast f (b :: r)).
    now rewrite IH.
Qed.

Lemma updateLastUser_last f l m :
  role m = User -> updateLastUser f (l ++ [m]) = l ++ [f m].
Proof.
  intros Hm. unfold updateLastUser. rewrite rev_app_distr. cbn [rev app].
  cbn [updateFirstUser]. unfold isUser. rewrite Hm.
  cbn [rev]. now rewrite rev_involutive.
Qed.

Lemma eqb_refl (a : jsstring) : Str.eqb a a = true.
Proof.
  induction a as [|c a IH]; [reflexivity|]. cbn. now rewrite N.eqb_refl.
Qed.

Lemma endsWith_app (x suffix : jsstring) : Str.endsWith (x ++ suffix) suffix = true.
Proof.
  unfold Str.endsWith. rewrite length_app.
  rewrite (proj2 (Nat.leb_le _ _)) by lia.
  replace (List.length x + List.length suffix - List.length suffix)%nat
    with (List.length x) by lia.
  rewrite skipn_app, skipn_all, Nat.sub_diag. cbn [skipn app].
  apply eqb_refl.
Qed.

(** C8, on the code: the updater that finalizes the transcript reads
    the buffer when React runs it, and the handler empties the buffer
    right after handing the updater over.  With the last user message
    shown ending with the ellipsis: when the turn-complete signal comes
    in a message that also carries an input transcription, or when React
    does not compute the update at the call, the user message ends up
    empty and the transcript is lost; only an update computed at the
    call keeps the buffer.  Both buffers are emptied in every case. *)
Theorem turn_complete_erases_transcript (eager isOpen : bool) (t : jsstring)
  (audio : option (list byte)) (s : State) (l : list Message) (m : Message) :
  messages s = l ++ [m] ->
  role m = User ->
  Str.endsWith (text m) Str.ellipsis = true ->
  let both := handleLiveMessage eager isOpen (mkLiveMessage (Some t) None audio true) s in
  let late := handleLiveMessage false isOpen (mkLiveMessage None None audio true) s in
  let early := handleLiveMessage true isOpen (mkLiveMessage None None audio true) s in
  (messages both = l ++ [setText [] m] /\
   currentUserTranscription (live both) = [] /\
   currentModelTranscription (live both) = []) /\
  (messages late = l ++ [setText [] m] /\
   currentUserTranscription (live late) = [] /\
   currentModelTranscription (live late) = []) /\
  (messages early = l ++ [setText (currentUserTranscription (live s)) m] /\
   currentUserTranscription (live early) = [] /\
   currentModelTranscription (live early) = []).
Proof.
  intros Hl Hm Hdots. cbv zeta.
  assert (isUser m = true) as Hu by (unfold isUser; now rewrite Hm).
  split; [|split].
  - unfold handleLiveMessage. cbn [inputTranscription outputTranscription inlineData
                                   turnComplete].
    destruct eager, audio as [[|b d]|];
      cbn -[Str.ellipsis Str.endsWith updateLast updateLastUser];
      rewrite Hl, updateLast_last, Hu;
      (rewrite updateLastUser_last by exact Hm);
      cbn -[Str.ellipsis Str.endsWith];
      rewrite ?app_nil_l, ?endsWith_app;
      try (change (Str.endsWith Str.ellipsis Str.ellipsis) with true);
      cbn -[Str.ellipsis Str.endsWith]; repeat split.
  - unfold handleLiveMessage. cbn [inputTranscription outputTranscription inlineData
                                   turnComplete].
    destruct audio as [[|b d]|];
      cbn -[Str.ellipsis Str.endsWith updateLast updateLastUser];
      rewrite Hl; (rewrite updateLastUser_last by exact Hm);
      rewrite Hdots; repeat split.
  - unfold handleLiveMessage. cbn [inputTranscription outputTranscription inlineData
                                   turnComplete].
    destruct audio as [[|b d]|];
      cbn -[Str.ellipsis Str.endsWith updateLast updateLastUser];
      rewrite Hl; (rewrite updateLastUser_last by exact Hm);
      rewrite Hdots; repeat split.
Qed.

Lemma turn_complete_erases_transcript_witness :
  let s := run (init true false)
               [StartLive; MicGranted; Open; Connected;
                LiveMessage true true (mkLiveMessage (Some (js "toi dang")) None None false)] in
  let both := handleLiveMessage true true
                (mkLiveMessage (Some (js " o dau")) None None true) s in
  let late := handleLiveMessage false true (mkLiveMessage None None None true) s in
  map text (messages s) = [greeting; js "toi dang..."] /\
  currentUserTranscription (live s) = js "toi dang" /\
  map text (messages both) = [greeting; []] /\
  map text (messages late) = [greeting; []].
Proof.
  cbv zeta. split; [reflexivity|]. split; [reflexivity|].
  destruct (@turn_complete_erases_transcript true true (js " o dau") None
              (run (init true false)
                 [StartLive; MicGranted; Open; Connected;
                  LiveMessage true true
                    (mkLiveMessage (Some (js "toi dang")) None None false)])
              [mkMessage Model greeting None]
              (mkMessage User (js "toi dang...") None))
    as ((A & _) & (B & _) & _).
  - reflexivity.
  - reflexivity.
  - reflexivity.
  - rewrite A, B. split; reflexivity.
Defined.

(** C7, on the code: from an active session holding the microphone and
    the input context, the error callback makes the session inactive,
    shows the error and arms a five-second timer that clears it; the
    microphone stream and the input audio context stay held, where
    [stopLiveSession] releases them. *)
Theorem onerror_keeps_microphone :
  let active := run (init true false) [StartLive; MicGranted; Open; Connected] in
  let s' := step active LiveError in
  isLiveSessionActive active = true /\
  isLiveSessionActive s' = false /\
  liveError s' = Some serverError /\
  timers s' = [(5000%N, ClearLiveError)] /\
  liveError (step s' (Timer 0)) = None /\
  held (microphoneStream (live s')) = true /\
  held (inputAudioContext (live s')) = true /\
  held (microphoneStream (live (step s' (Timer 0)))) = true /\
  held (microphoneStream (live (step active StopLive))) = false /\
  held (inputAudioContext (live (step active StopLive))) = false.
Proof.
  repeat split.
Qed.

End LiveFacts.

(** ** Text chat and the TTS gate *)

Module ChatFacts.
Import Chatbot.

Lemma trimStart_blank (txt : jsstring) :
  forallb Str.isWhiteSpace txt = true -> Str.trimStart txt = [].
Proof.
  induction txt as [|c txt IH]; [reflexivity|].
  cbn [forallb Str.trimStart]. intros H. apply andb_prop in H.
  destruct H as [Hc Ht]. rewrite Hc. now apply IH.
Qed.

Lemma trim_blank (txt : jsstring) :
  forallb Str.isWhiteSpace txt = true -> Str.trim txt = [].
Proof.
  intros H. unfold Str.trim. now rewrite (trimStart_blank _ H).
Qed.

Lemma processTtsQueue_blank txt messageIndex s :
  forallb Str.isWhiteSpace txt = true -> processTtsQueue txt messageIndex s = s.
Proof.
  intros H. unfold processTtsQueue. now rewrite (trim_blank _ H).
Qed.


Lemma onChunk_gate_closed c s :
  gate_closed s = true ->
  gate_closed (onChunk c s) = true /\ tts (onChunk c s) = tts s.
Proof.
  unfold gate_closed, onChunk. intros H.
  destruct (sending s) as [f|] eqn:Es; [|rewrite Es; auto].
  destruct c as [[|c t]|]; try (rewrite Es; auto).
  apply negb_true_iff in H. rewrite H. cbn. rewrite H. auto.
Qed.

Lemma chunks_gate_closed cs : forall s,
  gate_closed s = true -> tts (run s (map Chunk cs)) = tts s.
Proof.
  induction cs as [|c cs IH]; intros s H; [reflexivity|].
  cbn [map run fold_left step].
  destruct (onChunk_gate_closed c s H) as [H' E].
  change (tts (run (onChunk c s) (map Chunk cs)) = tts s).
  now rewrite (IH _ H').
Qed.

(** The running send tests the two flags of the render in which it
    started; they are constants of that closure.  When output is
    disabled, or a live session starts, after the send and before a
    chunk, the chunk still creates a TTS job. *)
Lemma toggle_during_stream_still_submits :
  let chunk := js "Thanh co Quang Tri." in
  let muted := run (init true false)
                   [Send (js "Thanh co o dau?") None; ToggleAudio; Chunk (Some chunk)] in
  let live := run (init true false)
                  [Send (js "Thanh co o dau?") None; StartLive; Chunk (Some chunk)] in
  (isAudioEnabled muted = false /\ map fst (requests (tts muted)) = [chunk]) /\
  (isLiveSessionActive live = true /\ map fst (requests (tts live)) = [chunk]).
Proof.
  repeat split.
Qed.

(** What the gate does hold back: a send started while a live session
    is active or audio output is disabled creates no TTS job, whatever
    chunks stream in; the test is on the two flags as the running send
    holds them, those of the moment it started; and a submission whose
    text is empty or only white space returns before creating a job,
    leaving the TTS queue, and the whole state, as it was. *)
Theorem tts_submission_gated (s : State) (input : jsstring)
  (imagePreview : option jsstring) (chunks : list (option jsstring))
  (txt : jsstring) (messageIndex : nat) :
  (sending s = None ->
   isLiveSessionActive s = true \/ isAudioEnabled s = false ->
   tts (run (handleSendMessage input imagePreview s) (map Chunk chunks)) = tts s) /\
  (forall f c,
      sending s = Some f ->
      sf_isLiveSessionActive f = true \/ sf_isAudioEnabled f = false ->
      tts (onChunk c s) = tts s) /\
  (forallb Str.isWhiteSpace txt = true ->
   processTtsQueue txt messageIndex s = s).
Proof.
  split; [|split].
  - intros Hs Hflags. rewrite chunks_gate_closed.
    + unfold handleSendMessage. destruct (_ || _)%bool; reflexivity.
    + unfold gate_closed, handleSendMessage.
      destruct (_ || _)%bool; cbn; [now rewrite Hs|].
      destruct Hflags as [-> | ->]; cbn; [now rewrite andb_false_r|reflexivity].
  - intros f c Hf Hflags. apply onChunk_gate_closed.
    unfold gate_closed. rewrite Hf.
    destruct Hflags as [-> | ->]; cbn; [now rewrite andb_false_r|reflexivity].
  - apply processTtsQueue_blank.
Qed.

Lemma tts_submission_gated_witness :
  let muted := step (init true false) ToggleAudio in
  tts (run (handleSendMessage (js "Thanh co o dau?") None muted)
           (map Chunk [Some (js "Thanh co Quang Tri."); Some (js " Ben song Thach Han.")]))
    = tts muted /\
  processTtsQueue (js "   ") 3 muted = muted.
Proof.
  cbv zeta.
  destruct (tts_submission_gated (step (init true false) ToggleAudio)
              (js "Thanh co o dau?") None
              [Some (js "Thanh co Quang Tri."); Some (js " Ben song Thach Han.")]
              (js "   ") 3) as (A & _ & C).
  split.
  - apply A; [reflexivity|right; reflexivity].
  - apply C. reflexivity.
Defined.

(** C5, the claim as stated, fails: the only synthesis request made
    for the three chunks carries the second chunk alone, not the text
    accumulated so far. *)
Lemma job_text_is_the_chunk_alone :
  let s := run (init true false)
               [Send (js "xin chao") None; Chunk (Some chunk_Xin);
                Chunk (Some chunk_chao); Chunk (Some chunk_ban)] in
  map fst (requests (tts s)) = [chunk_chao] /\
  map fst (requests (tts s)) <> [text_Xin_chao].
Proof.
  split; [reflexivity|discriminate].
Qed.

Lemma processTtsQueue_requests txt messageIndex s :
  Str.truthy (Str.trim txt) = true ->
  requests (tts (processTtsQueue txt messageIndex s)) =
  requests (tts s) ++ [(txt, messageIndex)].
Proof.
  intros H. unfold processTtsQueue. rewrite H. cbv zeta.
  destruct (isProcessingTts (tts s)); [reflexivity|].
  unfold processNextTts. cbn.
  destruct (ttsPromiseQueue (tts s)); reflexivity.
Qed.

Lemma processTtsQueue_sending txt messageIndex s :
  sending (processTtsQueue txt messageIndex s) = sending s.
Proof.
  unfold processTtsQueue. destruct (Str.truthy _); [|reflexivity]. cbv zeta.
  destruct (isProcessingTts (tts s)); [reflexivity|].
  unfold processNextTts. cbn.
  destruct (ttsPromiseQueue (tts s)); reflexivity.
Qed.

Lemma onChunk_frame c t s f :
  sending s = Some f ->
  exists f1, sending (onChunk (Some (c :: t)) s) = Some f1 /\
             sf_isAudioEnabled f1 = sf_isAudioEnabled f /\
             sf_isLiveSessionActive f1 = sf_isLiveSessionActive f /\
             sf_messagesLength f1 = sf_messagesLength f.
Proof.
  intros H. unfold onChunk. rewrite H.
  eexists. split.
  - destruct (_ && _)%bool; [|reflexivity].
    destruct (_ || _)%bool; [|reflexivity].
    rewrite processTtsQueue_sending. reflexivity.
  - auto.
Qed.

Lemma onChunk_requests c t s f :
  sending s = Some f ->
  sf_isAudioEnabled f = true ->
  sf_isLiveSessionActive f = false ->
  requests (tts (onChunk (Some (c :: t)) s)) =
  if ((10 <? List.length (c :: t))%nat || Str.hasSentenceEnd (c :: t))
     && Str.truthy (Str.trim (c :: t))
  then requests (tts s) ++ [(c :: t, sf_messagesLength f)]
  else requests (tts s).
Proof.
  intros H Ha Hl. unfold onChunk. rewrite H, Ha, Hl. cbv zeta. cbn [andb negb].
  destruct (_ || _)%bool; [|reflexivity]. cbn [andb].
  destruct (Str.truthy (Str.trim (c :: t))) eqn:E.
  - now rewrite processTtsQueue_requests.
  - unfold processTtsQueue. now rewrite E.
Qed.

(** C5, amended: with audio enabled and no live session at the send,
    the chunks "Xin", "chào!", "bạn" create exactly one TTS job; the
    second chunk triggers it, and the text sent for synthesis is that
    chunk, "chào!". *)
Theorem one_job_for_three_chunks (s : State) (f : SendFrame) :
  sending s = Some f ->
  sf_isAudioEnabled f = true ->
  sf_isLiveSessionActive f = false ->
  let s1 := onChunk (Some chunk_Xin) s in
  let s2 := onChunk (Some chunk_chao) s1 in
  let s3 := onChunk (Some chunk_ban) s2 in
  requests (tts s1) = requests (tts s) /\
  requests (tts s2) = requests (tts s) ++ [(chunk_chao, sf_messagesLength f)] /\
  requests (tts s3) = requests (tts s2).
Proof.
  intros Hf Ha Hl. cbv zeta.
  assert (requests (tts (onChunk (Some chunk_Xin) s)) = requests (tts s)) as E1.
  { unfold chunk_Xin. rewrite (onChunk_requests _ _ _ Hf Ha Hl). reflexivity. }
  destruct (onChunk_frame 88%N [105; 110]%N s Hf) as (f1 & Hf1 & Ha1 & Hl1 & Hm1).
  remember (onChunk (Some chunk_Xin) s) as s1 eqn:Es1.
  assert (sending s1 = Some f1) as Hs1 by (rewrite Es1; exact Hf1).
  clear Hf1. rename Hs1 into Hf1.
  destruct (onChunk_frame 99%N [104; 224; 111; 33]%N s1 Hf1)
    as (f2 & Hf2 & Ha2 & Hl2 & Hm2).
  remember (onChunk (Some chunk_chao) s1) as s2 eqn:Es2.
  assert (sending s2 = Some f2) as Hs2 by (rewrite Es2; exact Hf2).
  clear Hf2. rename Hs2 into Hf2.
  assert (requests (tts s2) = requests (tts s) ++ [(chunk_chao, sf_messagesLength f)])
    as E2.
  { rewrite Es2. unfold chunk_chao at 1.
    rewrite (onChunk_requests _ _ _ Hf1) by congruence.
    rewrite E1, Hm1. reflexivity. }
  repeat split.
  - exact E1.
  - exact E2.
  - unfold chunk_ban.
    rewrite (onChunk_requests _ _ _ Hf2) by congruence. reflexivity.
Qed.

Lemma one_job_for_three_chunks_witness :
  let s := handleSendMessage (js "xin chao") None (init true false) in
  requests (tts (onChunk (Some chunk_Xin) s)) = [] /\
  requests (tts (onChunk (Some chunk_chao) (onChunk (Some chunk_Xin) s))) =
    [(chunk_chao, 1%nat)] /\
  requests (tts (onChunk (Some chunk_ban)
                   (onChunk (Some chunk_chao) (onChunk (Some chunk_Xin) s)))) =
    requests (tts (onChunk (Some chunk_chao) (onChunk (Some chunk_Xin) s))).
Proof.
  cbv zeta.
  apply (@one_job_for_three_chunks
           (handleSendMessage (js "xin chao") None (init true false))
           (mkFrame true false 1 [])); reflexivity.
Defined.

End ChatFacts.

(** ** The handler of a live message *)

Module HandlerFacts.
Import Chatbot.

Lemma grows_id l : grows l l.
Proof. exists []. now rewrite app_nil_r. Qed.

Lemma grows_then l1 l2 l3 : grows l1 l2 -> grows l2 l3 -> grows l1 l3.
Proof.
  intros [x Hx] [y Hy]. exists (x ++ y). now rewrite Hy, Hx, app_assoc.
Qed.

Lemma grows_same_roles l l' : map role l' = map role l -> grows l l'.
Proof. intros H. exists []. now rewrite app_nil_r. Qed.

Lemma grows_more l x : grows l (l ++ x).
Proof. exists (map role x). apply map_app. Qed.

Lemma updateLast_roles f l :
  (forall m, role (f m) = role m) -> map role (updateLast f l) = map role l.
Proof.
  intros Hf. induction l as [|m [|m' rest] IH]; [reflexivity|cbn; now rewrite Hf|].
  change (updateLast f (m :: m' :: rest)) with (m :: updateLast f (m' :: rest)).
  cbn [map]. now rewrite IH.
Qed.

Lemma updateFirstUser_roles f l :
  (forall m, role (f m) = role m) -> map role (updateFirstUser f l) = map role l.
Proof.
  intros Hf. induction l as [|m rest IH]; [reflexivity|]. cbn.
  destruct (isUser m); cbn; [now rewrite Hf|now rewrite IH].
Qed.

Lemma updateLastUser_roles f l :
  (forall m, role (f m) = role m) -> map role (updateLastUser f l) = map role l.
Proof.
  intros Hf. unfold updateLastUser.
  now rewrite map_rev, updateFirstUser_roles, <- map_rev, rev_involutive.
Qed.

Lemma sameBut_refl s : sameBut s s.
Proof. repeat split. Qed.

Lemma Tracks_start s eager : Tracks s (mkHandler s [] eager).
Proof.
  constructor; cbn; [apply sameBut_refl|apply grows_id|constructor].
Qed.

Lemma Tracks_setMessages s0 u h :
  Growing u -> Tracks s0 h -> Tracks s0 (setMessages u h).
Proof.
  intros Hu [Hs Hg Hp]. unfold setMessages. cbv zeta.
  destruct (h_eager h); constructor; cbn; try assumption.
  - eapply grows_then; [exact Hg|apply Hu].
  - apply Forall_app. split; [exact Hp|]. now constructor.
Qed.

Lemma Tracks_onState s0 f h :
  (forall s, sameBut s (f s) /\ messages (f s) = messages s) ->
  Tracks s0 h -> Tracks s0 (onState f h).
Proof.
  intros Hf [Hs Hg Hp]. destruct (Hf (h_state h)) as [Hf1 Hf2].
  constructor; cbn; [|now rewrite Hf2|exact Hp].
  unfold sameBut in *.
  destruct Hs as (A1 & A2 & A3 & A4 & A5 & A6 & A7 & A8).
  destruct Hf1 as (B1 & B2 & B3 & B4 & B5 & B6 & B7 & B8).
  repeat split; congruence.
Qed.

Lemma fold_grows (lv : Live) (us : list Updater) : forall l,
  Forall Growing us -> grows l (fold_left (fun l u => u lv l) us l).
Proof.
  induction us as [|u us IH]; intros l H; [apply grows_id|].
  inversion H as [|? ? Hu Hus]; subst. cbn [fold_left].
  eapply grows_then; [apply Hu|]. now apply IH.
Qed.

Lemma Tracks_render s0 h :
  Tracks s0 h ->
  sameBut s0 (render h) /\ grows (messages s0) (messages (render h)).
Proof.
  intros [Hs Hg Hp]. unfold render. cbv zeta.
  destruct (h_pending h) as [|u us] eqn:E; [now split|].
  split; [exact Hs|]. cbn [messages set_messages].
  eapply grows_then; [exact Hg|]. now apply fold_grows.
Qed.

Lemma Tracks_onInputTranscription s0 t h :
  Tracks s0 h -> Tracks s0 (onInputTranscription t h).
Proof.
  intros H. unfold onInputTranscription. cbv zeta.
  apply Tracks_setMessages.
  - intros lv l. apply grows_same_roles, updateLast_roles.
    intros m. now destruct (isUser m).
  - apply Tracks_onState; [|exact H]. intros s. repeat split.
Qed.

Lemma Tracks_onOutputTranscription s0 t h :
  Tracks s0 h -> Tracks s0 (onOutputTranscription t h).
Proof.
  intros H. unfold onOutputTranscription. cbv zeta.
  apply Tracks_setMessages.
  - intros lv l. apply grows_same_roles, updateLast_roles.
    intros m. now destruct (isUser m).
  - apply Tracks_onState; [intros s; repeat split|].
    destruct (Str.truthy _); [exact H|].
    apply Tracks_setMessages; [|exact H]. intros lv l. apply grows_more.
Qed.

Lemma Tracks_onTurnComplete s0 h :
  Tracks s0 h -> Tracks s0 (onTurnComplete h).
Proof.
  intros H. unfold onTurnComplete. cbv zeta.
  apply Tracks_onState; [intros s; repeat split|].
  apply Tracks_setMessages; [|exact H].
  intros lv l. apply grows_same_roles, updateLastUser_roles.
  intros m. now destruct (Str.endsWith _ _).
Qed.

Lemma Tracks_onInlineData s0 isOpen d h :
  Tracks s0 h -> Tracks s0 (onState (onInlineData isOpen d) h).
Proof.
  apply Tracks_onState. intros s. unfold onInlineData.
  destruct d; repeat split.
Qed.

(** The handler of a live message changes at most the messages, which
    it keeps with their roles, the transcription buffers and the
    player. *)
Lemma handleLiveMessage_sameBut eager isOpen m s :
  sameBut s (handleLiveMessage eager isOpen m s) /\
  grows (messages s) (messages (handleLiveMessage eager isOpen m s)).
Proof.
  unfold handleLiveMessage. cbv zeta. apply Tracks_render.
  assert (Tracks s (mkHandler s [] eager)) as H0 by apply Tracks_start.
  set (h0 := mkHandler s [] eager) in *. clearbody h0.
  set (h1 := match inputTranscription m with
             | Some t => onInputTranscription t h0 | None => h0 end).
  assert (Tracks s h1) as H1
    by (subst h1; destruct (inputTranscription m);
        [now apply Tracks_onInputTranscription|exact H0]).
  clearbody h1.
  set (h2 := match outputTranscription m with
             | Some t => onOutputTranscription t h1 | None => h1 end).
  assert (Tracks s h2) as H2
    by (subst h2; destruct (outputTranscription m);
        [now apply Tracks_onOutputTranscription|exact H1]).
  clearbody h2.
  set (h3 := match inlineData m with
             | Some d => onState (onInlineData isOpen d) h2 | None => h2 end).
  assert (Tracks s h3) as H3
    by (subst h3; destruct (inlineData m);
        [now apply Tracks_onInlineData|exact H2]).
  clearbody h3.
  destruct (turnComplete m); [now apply Tracks_onTurnComplete|exact H3].
Qed.

Lemma player_setMessages u h :
  player (h_state (setMessages u h)) = player (h_state h).
Proof. unfold setMessages. cbv zeta. now destruct (h_eager h). Qed.

Lemma player_render h : player (render h) = player (h_state h).
Proof. unfold render. cbv zeta. now destruct (h_pending h). Qed.

(** The player sees of a live message its audio only. *)
Lemma handleLiveMessage_player eager isOpen m s :
  player (handleLiveMessage eager isOpen m s) = player (audioOf isOpen m s).
Proof.
  unfold handleLiveMessage, audioOf. cbv zeta. rewrite player_render.
  set (h0 := mkHandler s [] eager).
  assert (player (h_state h0) = player s) as H0 by reflexivity.
  clearbody h0.
  set (h1 := match inputTranscription m with
             | Some t => onInputTranscription t h0 | None => h0 end).
  assert (player (h_state h1) = player s) as H1.
  { subst h1. destruct (inputTranscription m); [|exact H0].
    unfold onInputTranscription. cbv zeta. now rewrite player_setMessages. }
  clearbody h1.
  set (h2 := match outputTranscription m with
             | Some t => onOutputTranscription t h1 | None => h1 end).
  assert (player (h_state h2) = player s) as H2.
  { subst h2. destruct (outputTranscription m); [|exact H1].
    unfold onOutputTranscription. cbv zeta. rewrite player_setMessages. cbn.
    destruct (Str.truthy _); [exact H1|]. now rewrite player_setMessages. }
  clearbody h2.
  set (h3 := match inlineData m with
             | Some d => onState (onInlineData isOpen d) h2 | None => h2 end).
  assert (player (h_state h3) =
          player (match inlineData m with
                  | Some d => onInlineData isOpen d s | None => s end)) as H3.
  { subst h3. destruct (inlineData m) as [d|]; [|exact H2].
    cbn. unfold onInlineData. destruct d; [exact H2|]. cbn. now rewrite H2. }
  clearbody h3.
  destruct (turnComplete m); [|exact H3].
  unfold onTurnComplete. cbv zeta. cbn. now rewrite player_setMessages.
Qed.

End HandlerFacts.

(** ** The gate of the synthesis, during a stream *)

Module GateFacts.
Import Chatbot.

Lemma sending_processNextTts s : sending (processNextTts s) = sending s.
Proof.
  unfold processNextTts. cbv zeta. now destruct (ttsPromiseQueue (tts s)).
Qed.

Lemma sending_step s e :
  betweenChunks [e] = true -> sending (step s e) = sending s.
Proof.
  intros He. destruct e; try discriminate; cbn [step]; try reflexivity.
  - unfold toggleAudio. cbv zeta. now destruct (isAudioEnabled s).
  - apply (HandlerFacts.handleLiveMessage_sameBut eager isOpen message s).
  - unfold fireTimer. now destruct (nth_error (timers s) k) as [[d []]|].
  - unfold ttsSettle. cbv zeta. destruct (_ <? _)%nat; [|reflexivity].
    now destruct (outcomeOf id (settled (tts s))).
  - unfold ttsContinue. destruct (awaited (tts s)) as [job|]; [|reflexivity].
    destruct (outcomeOf _ _) as [o|]; [|reflexivity]. cbv zeta.
    rewrite sending_processNextTts. now destruct (segmentOf o job).
Qed.

Lemma sending_run es : forall s,
  betweenChunks es = true -> sending (run s es) = sending s.
Proof.
  induction es as [|e es IH]; intros s H; [reflexivity|].
  cbn [betweenChunks forallb] in H. apply andb_true_iff in H. destruct H as [He Hes].
  cbn [run fold_left]. unfold run in IH. rewrite (IH _ Hes).
  apply sending_step. cbn. now rewrite He.
Qed.

(** C10, on the code: the gate inside the chunk loop tests the flags
    the send closed over when it started.  Whatever happens between the
    send and a chunk, the audio toggle and the start of a live session
    included, a chunk that passes the length or punctuation test and is
    not blank creates a TTS job when output was enabled and no live
    session was active at the send, also when output is disabled or a
    session is active by the time the chunk arrives. *)
Theorem stale_gate_still_submits (s : State) (f : SendFrame) (es : list Event)
  (c : N) (t : jsstring) :
  sending s = Some f ->
  sf_isAudioEnabled f = true ->
  sf_isLiveSessionActive f = false ->
  betweenChunks es = true ->
  ((10 <? List.length (c :: t))%nat || Str.hasSentenceEnd (c :: t))
  && Str.truthy (Str.trim (c :: t)) = true ->
  let s1 := run s es in
  requests (tts (onChunk (Some (c :: t)) s1)) =
    requests (tts s1) ++ [(c :: t, sf_messagesLength f)].
Proof.
  intros Hf Ha Hl Hes Hc. cbv zeta.
  assert (sending (run s es) = Some f) as Hf1 by (now rewrite sending_run).
  rewrite (ChatFacts.onChunk_requests c t (run s es) Hf1 Ha Hl).
  now rewrite Hc.
Qed.

Lemma stale_gate_still_submits_witness :
  let sent := handleSendMessage (js "Thanh co o dau?") None (init true false) in
  let s1 := run sent [ToggleAudio; StartLive] in
  isAudioEnabled s1 = false /\
  isLiveSessionActive s1 = true /\
  requests (tts (onChunk (Some (js "Thanh co Quang Tri.")) s1)) =
    requests (tts s1) ++ [(js "Thanh co Quang Tri.", 1%nat)].
Proof.
  cbv zeta. split; [reflexivity|]. split; [reflexivity|].
  apply (@stale_gate_still_submits
           (handleSendMessage (js "Thanh co o dau?") None (init true false))
           (mkFrame true false 1 []) [ToggleAudio; StartLive]
           84%N (tl (js "Thanh co Quang Tri."))); reflexivity.
Defined.

End GateFacts.

(** ** The audio toggle *)

Module ToggleFacts.
Import Codec Chatbot.

Lemma idle_enqueue_continue isOpen seg buf t p :
  Player.isScheduling p = false ->
  Player.hasContext p = true ->
  Player.suspended p = false ->
  Player.audioQueue p = [] ->
  decodeAudioData (Player.audioData seg) 24000 1 = Decoded buf ->
  let p' := Player.continue t (Player.enqueue isOpen seg p) in
  Player.audioQueue p' = [] /\
  Player.sources p' =
    Player.sources p
    ++ [Player.mkSource seg (Player.bump t (Player.nextStartTime p)) (duration buf) false].
Proof.
  intros Hf Hc Hs Hq Eb. cbv zeta.
  assert (Player.enqueue isOpen seg p =
          Player.awaitHead isOpen seg
            (Player.set_isScheduling true
               (Player.set_pushed (Player.pushed p ++ [seg])
                  (Player.set_audioQueue [seg] p)))) as E.
  { unfold Player.enqueue, Player.scheduleAudio.
    cbn [Player.isScheduling Player.set_pushed Player.set_audioQueue
         Player.set_isScheduling Player.hasContext Player.suspended].
    rewrite Hf, Hc, Hs, Hq. reflexivity. }
  rewrite E. unfold Player.continue, Player.awaitHead.
  cbn [Player.pass Player.set_pass]. rewrite Eb.
  unfold Player.loopHead, Player.playItem.
  destruct isOpen, (Player.messageIndex seg); split; reflexivity.
Qed.

(** C4, the claim as stated, fails.  Three segments of a live
    session have been started back to back, the first is sounding and
    no pass is in flight when output is toggled off at device time
    21/20.  The toggle stops the source started last only: the first is
    still sounding.  The segment the session delivers afterwards is
    started on the output device while output is still disabled. *)
Lemma live_segment_plays_while_muted :
  let audio d := LiveMessage true true (mkLiveMessage None None (Some d) false) in
  let before := run (init true false)
                    [audio [x00; x40]; PassContinue 1;
                     audio [x00; x20]; PassContinue 1;
                     audio [x00; x10]; PassContinue 1] in
  let muted := step before ToggleAudio in
  let after := run muted [audio [x00; x08]; PassContinue (11 # 10)] in
  Player.pass (player before) = Player.NoPass /\
  existsb (Player.playingAt (21 # 20)) (Player.sources (player before)) = true /\
  Player.audioQueue (player muted) = [] /\
  map (fun src => (Player.audioData (Player.src_item src), Player.src_stopped src))
      (Player.sources (player muted)) =
    [([x00; x40], false); ([x00; x20], false); ([x00; x10], true)] /\
  existsb (Player.playingAt (21 # 20)) (Player.sources (player muted)) = true /\
  isAudioEnabled after = false /\
  map (fun src => (Player.audioData (Player.src_item src), Player.src_stopped src))
      (Player.sources (player after)) =
    [([x00; x40], false); ([x00; x20], false); ([x00; x10], true);
     ([x00; x08], false)].
Proof.
  repeat split.
Qed.

(** C4, amended: toggling output off empties the pending queue and
    clears the playing marker.  A segment that a live session delivers
    afterwards is appended to the queue and handed to the scheduler as
    usual: with an output context that is running, no pass in flight and
    a payload that decodes, the next continuation starts it on the
    output device, with output still disabled. *)
Theorem toggle_off_flushes_but_live_audio_plays
  (eager isOpen : bool) (s : State) (b : byte) (d : list byte) (t : Q) :
  isAudioEnabled s = true ->
  let seg := Player.mkSegment (b :: d) None in
  let s1 := toggleAudio s in
  let s2 := handleLiveMessage eager isOpen
              (mkLiveMessage None None (Some (b :: d)) false) s1 in
  let s3 := step s2 (PassContinue t) in
  (isAudioEnabled s1 = false /\
   Player.audioQueue (player s1) = [] /\
   Player.currentlyPlayingIndex (player s1) = None) /\
  (isAudioEnabled s2 = false /\
   Player.audioQueue (player s2) = [seg] /\
   Player.pushed (player s2) = Player.pushed (player s) ++ [seg]) /\
  (Player.isScheduling (player s) = false ->
   Player.hasContext (player s) = true ->
   Player.suspended (player s) = false ->
   Player.decodes seg = true ->
   isAudioEnabled s3 = false /\
   Player.audioQueue (player s3) = [] /\
   exists src,
     Player.sources (player s3) = Player.sources (player s1) ++ [src] /\
     Player.src_item src = seg /\ Player.src_stopped src = false).
Proof.
  intros Hen seg s1 s2 s3.
  assert (player s1 = Player.stopAndClear (player s)) as Ep1
    by (unfold s1, toggleAudio; now rewrite Hen).
  assert (isAudioEnabled s1 = false) as Ea1
    by (unfold s1, toggleAudio; now rewrite Hen).
  assert (player s2 = Player.enqueue isOpen seg (player s1)) as Ep2
    by (subst s2; now destruct eager).
  assert (isAudioEnabled s2 = false) as Ea2 by (subst s2; now destruct eager).
  split; [|split].
  - split; [exact Ea1|]. rewrite Ep1. unfold Player.stopAndClear.
    split; reflexivity.
  - split; [exact Ea2|]. rewrite Ep2.
    destruct (PlayerFacts.enqueue_queue isOpen seg (player s1)) as [-> ->].
    rewrite Ep1. unfold Player.stopAndClear.
    destruct (Player.audioSource (player s)); auto.
  - intros Hf Hc Hs Hd. split; [exact Ea2|].
    assert (player s3 = Player.continue t (player s2)) as Ep3 by reflexivity.
    rewrite Ep3, Ep2.
    unfold Player.decodes in Hd.
    destruct (decodeAudioData (Player.audioData seg) 24000 1) as [buf|] eqn:Eb;
      [|discriminate].
    destruct (@idle_enqueue_continue isOpen seg buf t (player s1)) as [A B];
      try exact Eb; try (rewrite Ep1; unfold Player.stopAndClear;
                         destruct (Player.audioSource (player s)); assumption || reflexivity).
    split; [exact A|]. eexists. split; [exact B|]. split; reflexivity.
Qed.

Lemma toggle_off_flushes_but_live_audio_plays_witness :
  let s := run (init true false)
               [LiveMessage true true (mkLiveMessage None None (Some [x00; x40]) false);
                PassContinue 0] in
  let s1 := toggleAudio s in
  let s2 := handleLiveMessage true true
              (mkLiveMessage None None (Some [x00; x08]) false) s1 in
  let s3 := step s2 (PassContinue (1 # 10)) in
  Player.audioQueue (player s1) = [] /\
  Player.audioQueue (player s2) = [Player.mkSegment [x00; x08] None] /\
  isAudioEnabled s3 = false /\
  exists src,
    Player.sources (player s3) = Player.sources (player s1) ++ [src] /\
    Player.src_item src = Player.mkSegment [x00; x08] None /\
    Player.src_stopped src = false.
Proof.
  cbv zeta.
  destruct (@toggle_off_flushes_but_live_audio_plays true true
              (run (init true false)
                 [LiveMessage true true (mkLiveMessage None None (Some [x00; x40]) false);
                  PassContinue 0])
              x00 [x08] (1 # 10)) as ((_ & A & _) & (_ & B & _) & C).
  - reflexivity.
  - split; [exact A|]. split; [exact B|].
    destruct C as (C1 & _ & C3); try reflexivity. split; [exact C1|exact C3].
Defined.

End ToggleFacts.

(** ** The TTS promise queue *)

Module TtsFacts.
Import Chatbot.

Lemma jobsFrom_snoc reqs : forall k txt idx,
  jobsFrom k (reqs ++ [(txt, idx)]) =
  jobsFrom k reqs ++ [mkJob (k + List.length reqs) idx].
Proof.
  induction reqs as [|[t i] reqs IH]; intros k txt idx; cbn.
  - now rewrite Nat.add_0_r.
  - rewrite IH.
    replace (S k + List.length reqs)%nat with (k + S (List.length reqs))%nat by lia.
    reflexivity.
Qed.

Lemma outcomeOf_app id l l' :
  outcomeOf id (l ++ l') =
  match outcomeOf id l with
  | Some o => Some o
  | None => outcomeOf id l'
  end.
Proof.
  induction l as [|[k o] l IH]; cbn; [reflexivity|].
  destruct (k =? id)%nat; auto.
Qed.

Lemma segmentsOf_app st l l' :
  segmentsOf st (l ++ l') = segmentsOf st l ++ segmentsOf st l'.
Proof.
  apply flat_map_app.
Qed.

(** A promise settles once: what settled jobs gave does not change. *)
Lemma segmentsOf_stable st extra l :
  Forall (fun j => outcomeOf (promise j) st <> None) l ->
  segmentsOf (st ++ extra) l = segmentsOf st l.
Proof.
  intros H. induction H as [|j l Hj Hl IH]; [reflexivity|].
  cbn. rewrite outcomeOf_app.
  destruct (outcomeOf (promise j) st); [|congruence].
  f_equal. exact IH.
Qed.

Lemma settled_stable st extra l :
  Forall (fun j => outcomeOf (promise j) st <> None) l ->
  Forall (fun j => outcomeOf (promise j) (st ++ extra) <> None) l.
Proof.
  intros H. eapply Forall_impl; [|exact H].
  intros j Hj. cbn in *. rewrite outcomeOf_app.
  destruct (outcomeOf (promise j) st); congruence.
Qed.


Lemma TtsInv_init ctx susp : TtsInv (init ctx susp) [].
Proof.
  split; cbn; auto.
Qed.

Lemma TtsInv_ext s s' done :
  tts s' = tts s -> ttsPushed s' = ttsPushed s -> TtsInv s done -> TtsInv s' done.
Proof.
  intros Et Ep [H1 H2 H3 H4 H5]. split; rewrite ?Et, ?Ep; assumption.
Qed.

Lemma TtsInv_processTtsQueue txt idx s done :
  TtsInv s done -> TtsInv (processTtsQueue txt idx s) done.
Proof.
  intros [H1 H2 H3 H4 H5]. unfold processTtsQueue.
  destruct (Str.truthy (Str.trim txt)); [|now split].
  unfold jobs, waiting, ttsPushed in *.
  destruct s as [ms ld la le ae lv [q pr aw rq st] pl tm sd]. cbn in *.
  destruct pr.
  - destruct aw as [j|]; [|discriminate].
    split; cbn; auto.
    + unfold jobs, waiting. cbn.
      rewrite jobsFrom_snoc, H1. cbn. now rewrite <- app_assoc.
    + discriminate.
  - destruct aw as [j|]; [discriminate|]. rewrite (H5 eq_refl) in *.
    split; cbn; auto.
    unfold jobs, waiting. cbn. rewrite jobsFrom_snoc, H1, app_nil_r. reflexivity.
Qed.

Lemma TtsInv_ttsSettle id o s done :
  TtsInv s done -> TtsInv (ttsSettle id o s) done.
Proof.
  intros [H1 H2 H3 H4 H5]. unfold ttsSettle.
  destruct (id <? _)%nat; [|now split].
  destruct (outcomeOf id (settled (tts s))) eqn:E; [now split|].
  destruct s as [ms ld la le ae lv [q pr aw rq st] pl tm sd].
  unfold jobs, waiting, ttsPushed in *. cbn in *.
  split; cbn; auto.
  - unfold ttsPushed. cbn. now rewrite segmentsOf_stable.
  - now apply settled_stable.
Qed.

Lemma ttsPushed_enqueue isOpen seg s :
  ttsPushed (set_player (Player.enqueue isOpen seg (player s)) s) =
  ttsPushed s ++ (if fromTts seg then [seg] else []).
Proof.
  unfold ttsPushed. cbn.
  destruct (PlayerFacts.enqueue_queue isOpen seg (player s)) as [_ ->].
  rewrite filter_app. cbn. now destruct (fromTts seg).
Qed.

Lemma segmentOf_fromTts o j seg : segmentOf o j = Some seg -> fromTts seg = true.
Proof.
  destruct o as [[[|b d]|]|]; cbn; try discriminate.
  intros H. injection H as <-. reflexivity.
Qed.

Lemma TtsInv_ttsContinue isOpen s done :
  TtsInv s done ->
  exists done', TtsInv (ttsContinue isOpen s) done'.
Proof.
  intros H. unfold ttsContinue.
  destruct (awaited (tts s)) as [j|] eqn:Ea; [|now exists done].
  destruct (outcomeOf (promise j) (settled (tts s))) as [o|] eqn:Eo; [|now exists done].
  exists (done ++ [j]).
  set (s1 := match segmentOf o j with
             | Some seg => set_player (Player.enqueue isOpen seg (player s)) s
             | None => s
             end).
  assert (tts s1 = tts s) as Et by (unfold s1; destruct (segmentOf o j); reflexivity).
  assert (ttsPushed s1 = segmentsOf (settled (tts s)) (done ++ [j])) as Ep.
  { rewrite segmentsOf_app, <- (inv_pushed H). cbn. rewrite Eo. unfold s1.
    destruct (segmentOf o j) as [seg|] eqn:Es.
    - rewrite ttsPushed_enqueue, (segmentOf_fromTts _ _ Es). now rewrite app_nil_r.
    - now rewrite app_nil_r. }
  destruct H as [H1 H2 H3 H4 H5].
  unfold processNextTts. rewrite Et.
  unfold jobs, waiting in *. rewrite Ea in H1.
  destruct (ttsPromiseQueue (tts s)) as [|j' rest] eqn:Eq.
  - split; cbn; auto.
    + unfold jobs, waiting. cbn. now rewrite app_nil_r.
    + apply Forall_app. split; [exact H3|]. constructor; [congruence|constructor].
  - split; cbn; auto.
    + unfold jobs, waiting. cbn. rewrite H1, <- app_assoc. reflexivity.
    + apply Forall_app. split; [exact H3|]. constructor; [congruence|constructor].
    + discriminate.
Qed.

(** *** The other handlers leave the TTS queue and its pushes alone *)

Lemma playItem_pushed isOpen item b t p :
  Player.pushed (Player.playItem isOpen item b t p) = Player.pushed p.
Proof.
  unfold Player.playItem. destruct isOpen, (Player.messageIndex item); reflexivity.
Qed.

Lemma finally_pushed isOpen p :
  Player.pushed (Player.finally isOpen p) = Player.pushed p.
Proof.
  unfold Player.finally. cbv zeta.
  change (Player.audioQueue (Player.leave p)) with (Player.audioQueue p).
  destruct (Player.audioQueue p); [reflexivity|].
  now destruct (PlayerFacts.scheduleAudio_queue isOpen
                  (Player.set_reinvocations (S (Player.reinvocations (Player.leave p)))
                     (Player.leave p))) as [_ ->].
Qed.

Lemma continue_pushed t p :
  Player.pushed (Player.continue t p) = Player.pushed p.
Proof.
  unfold Player.continue.
  destruct (Player.pass p) as [|isOpen|isOpen item [b|]].
  - reflexivity.
  - now destruct (PlayerFacts.loopHead_queue isOpen (Player.set_suspended false p))
      as [_ ->].
  - destruct (PlayerFacts.loopHead_queue isOpen (Player.playItem isOpen item b t p))
      as [_ ->].
    apply playItem_pushed.
  - apply finally_pushed.
Qed.

Lemma onended_pushed isOpen t p :
  Player.pushed (Player.onended isOpen t p) = Player.pushed p.
Proof.
  unfold Player.onended. destruct (Player.audioQueue p); [|reflexivity].
  destruct (Qltb _ _); [|reflexivity]. now destruct isOpen.
Qed.

Lemma stopAndClear_pushed p :
  Player.pushed (Player.stopAndClear p) = Player.pushed p.
Proof.
  unfold Player.stopAndClear. now destruct (Player.audioSource p).
Qed.

Lemma handleLiveMessage_tts eager isOpen m s :
  tts (handleLiveMessage eager isOpen m s) = tts s /\
  ttsPushed (handleLiveMessage eager isOpen m s) = ttsPushed s.
Proof.
  split; [apply (HandlerFacts.handleLiveMessage_sameBut eager isOpen m s)|].
  unfold ttsPushed. rewrite HandlerFacts.handleLiveMessage_player.
  unfold audioOf, onInlineData. destruct (inlineData m) as [[|b d]|]; try reflexivity.
  change (ttsPushed (set_player
            (Player.enqueue isOpen (Player.mkSegment (b :: d) None) (player s)) s)
          = ttsPushed s).
  rewrite ttsPushed_enqueue. cbn. apply app_nil_r.
Qed.

Lemma TtsInv_step e s done :
  TtsInv s done -> exists done', TtsInv (step s e) done'.
Proof.
  intros H.
  destruct e as [ | | | | | |eager isOpen m| | | |k|input img|c| | |id o|isOpen|t|isOpen t];
    cbn [step];
    try (exists done; apply (TtsInv_ext (s:=s)); [reflexivity|reflexivity|exact H]).
  - exists done. apply (TtsInv_ext (s:=s)); [| |exact H];
      unfold toggleAudio; destruct (isAudioEnabled s); try reflexivity.
    unfold ttsPushed. cbn [player set_player set_isAudioEnabled].
    now rewrite stopAndClear_pushed.
  - exists done. destruct (handleLiveMessage_tts eager isOpen m s) as [T P].
    now apply (TtsInv_ext (s:=s)).
  - exists done. unfold fireTimer.
    destruct (nth_error (timers s) k) as [[d []]|]; [|exact H].
    now apply (TtsInv_ext (s:=s)).
  - exists done. unfold handleSendMessage.
    destruct (_ || _)%bool; [exact H|]. now apply (TtsInv_ext (s:=s)).
  - exists done. unfold onChunk.
    destruct (sending s) as [f|]; [|exact H].
    destruct c as [[|c t]|]; try exact H. cbv zeta.
    match goal with
    | |- context [processTtsQueue _ _ ?x] =>
        assert (TtsInv x done) as Hx by now apply (TtsInv_ext (s:=s))
    end.
    destruct (_ && _)%bool; [|exact Hx].
    destruct (_ || _)%bool; [|exact Hx].
    exact (TtsInv_processTtsQueue _ _ Hx).
  - exists done. exact (TtsInv_ttsSettle id o H).
  - exact (TtsInv_ttsContinue isOpen H).
  - exists done. apply (TtsInv_ext (s:=s)); [reflexivity| |exact H].
    unfold ttsPushed. cbn [player set_player]. now rewrite continue_pushed.
  - exists done. apply (TtsInv_ext (s:=s)); [reflexivity| |exact H].
    unfold ttsPushed. cbn [player set_player]. now rewrite onended_pushed.
Qed.

Lemma TtsInv_run es : forall s done,
  TtsInv s done -> exists done', TtsInv (run s es) done'.
Proof.
  induction es as [|e es IH]; intros s done H; [now exists done|].
  cbn [run fold_left]. destruct (TtsInv_step e H) as [done' H'].
  exact (IH _ _ H').
Qed.

(** *** The drain loop ends *)

Lemma ttsContinue_settled isOpen s j o :
  awaited (tts s) = Some j ->
  outcomeOf (promise j) (settled (tts s)) = Some o ->
  waiting (tts (ttsContinue isOpen s)) = ttsPromiseQueue (tts s) /\
  settled (tts (ttsContinue isOpen s)) = settled (tts s) /\
  requests (tts (ttsContinue isOpen s)) = requests (tts s).
Proof.
  intros Ea Eo. unfold ttsContinue. rewrite Ea, Eo. cbv zeta.
  match goal with
  | |- context [processNextTts ?x] =>
      assert (tts x = tts s) as Et by (destruct (segmentOf o j); reflexivity);
      generalize dependent x
  end.
  intros s1 Et. unfold processNextTts, waiting. rewrite Et.
  destruct (ttsPromiseQueue (tts s)); cbn; auto.
Qed.


Lemma drain_tts isOpen n : forall s done,
  TtsInv s done ->
  all_settled s ->
  (List.length (waiting (tts s)) <= n)%nat ->
  let s' := run s (repeat (TtsContinue isOpen) n) in
  awaited (tts s') = None /\
  settled (tts s') = settled (tts s) /\
  requests (tts s') = requests (tts s) /\
  exists done', TtsInv s' done'.
Proof.
  induction n as [|n IH]; intros s done H Hall Hlen; cbv zeta.
  - cbn. unfold waiting in Hlen.
    destruct (awaited (tts s)); [cbn in Hlen; lia|]. eauto.
  - cbn [repeat run fold_left step].
    change (fold_left step (repeat (TtsContinue isOpen) n) (ttsContinue isOpen s))
      with (run (ttsContinue isOpen s) (repeat (TtsContinue isOpen) n)).
    destruct (awaited (tts s)) as [j|] eqn:Ea.
    + assert (exists o, outcomeOf (promise j) (settled (tts s)) = Some o) as [o Eo].
      { unfold all_settled, waiting in Hall. rewrite Ea in Hall.
        inversion Hall as [|? ? Hj _]; subst.
        destruct (outcomeOf (promise j) (settled (tts s))) as [o|]; [now exists o|congruence]. }
      destruct (ttsContinue_settled isOpen s Ea Eo) as (Ew & Es & Er).
      destruct (TtsInv_ttsContinue isOpen H) as [done' H'].
      destruct (IH _ _ H') as (A & B & C & D).
      * unfold all_settled. rewrite Ew, Es.
        unfold all_settled, waiting in Hall. rewrite Ea in Hall.
        now inversion Hall.
      * rewrite Ew. unfold waiting in Hlen. rewrite Ea in Hlen. cbn in Hlen. lia.
      * rewrite B, C, Es, Er. auto.
    + assert (ttsContinue isOpen s = s) as -> by (unfold ttsContinue; now rewrite Ea).
      apply (IH _ _ H Hall).
      unfold waiting. rewrite Ea, (inv_idle H Ea). cbn. lia.
Qed.

End TtsFacts.

(** ** The capture worklet *)

Module WorkletFacts.
Import Worklet.

Lemma firstn_store {A} (l : list A) (w : nat) (x : A) :
  (w < List.length l)%nat -> firstn (S w) (store l w x) = firstn w l ++ [x].
Proof.
  revert w. induction l as [|h t IH]; intros [|w] H; cbn in *; try lia.
  - reflexivity.
  - f_equal. apply IH. lia.
Qed.

Lemma wf_init : wf init.
Proof.
  split; [apply repeat_length|]. unfold bufferSize. cbn. lia.
Qed.

Lemma write_spec (s : State) (posted : list (list num)) (x : num) :
  wf s -> windows posted ->
  wf (fst (write (s, posted) x)) /\
  windows (snd (write (s, posted) x)) /\
  List.concat (snd (write (s, posted) x)) ++ unsent (fst (write (s, posted) x)) =
    List.concat posted ++ unsent s ++ [x].
Proof.
  intros [Hlen Hw] Hp. unfold write.
  assert (firstn (S (bytesWritten s)) (store (buffer s) (bytesWritten s) x)
          = unsent s ++ [x]) as E by (apply firstn_store; lia).
  destruct (Nat.leb_spec bufferSize (S (bytesWritten s))) as [Hfull|Hroom]; cbn [fst snd].
  - assert (S (bytesWritten s) = bufferSize) as Es by lia.
    split; [|split].
    + split; cbn; [now rewrite CodecFacts.store_length|lia].
    + apply Forall_app. split; [exact Hp|]. constructor; [|constructor].
      now rewrite CodecFacts.store_length.
    + rewrite concat_app. unfold unsent at 1.
      cbn [buffer bytesWritten firstn List.concat]. rewrite !app_nil_r, <- E, Es.
      rewrite firstn_all2 by (rewrite CodecFacts.store_length; lia). reflexivity.
  - split; [|split].
    + split; cbn; [now rewrite CodecFacts.store_length|lia].
    + exact Hp.
    + unfold unsent at 1. cbn [buffer bytesWritten]. now rewrite E.
Qed.

Lemma writes_spec (xs : list num) : forall s posted,
  wf s -> windows posted ->
  wf (fst (fold_left write xs (s, posted))) /\
  windows (snd (fold_left write xs (s, posted))) /\
  List.concat (snd (fold_left write xs (s, posted)))
    ++ unsent (fst (fold_left write xs (s, posted))) =
    List.concat posted ++ unsent s ++ xs.
Proof.
  induction xs as [|x xs IH]; intros s posted Hs Hp.
  - cbn. now rewrite app_nil_r.
  - cbn [fold_left].
    destruct (write_spec x Hs Hp) as (Hs' & Hp' & E).
    destruct (write (s, posted) x) as [s' posted'] eqn:Ew. cbn [fst snd] in *.
    destruct (IH s' posted' Hs' Hp') as (A & B & C).
    split; [exact A|]. split; [exact B|].
    rewrite C, app_assoc, E, <- !app_assoc. reflexivity.
Qed.

Lemma process_spec inputs s :
  wf s ->
  wf (fst (process inputs s)) /\
  windows (snd (process inputs s)) /\
  List.concat (snd (process inputs s)) ++ unsent (fst (process inputs s)) =
    unsent s ++ samplesOf inputs.
Proof.
  intros Hs. unfold process, samplesOf.
  destruct inputs as [|[|channelData channels] rest];
    try (cbn; rewrite app_nil_r; repeat split; try apply Hs; constructor).
  apply (writes_spec channelData Hs (Forall_nil _)).
Qed.

Lemma processAll_spec calls : forall s,
  wf s ->
  wf (fst (processAll calls s)) /\
  windows (snd (processAll calls s)) /\
  List.concat (snd (processAll calls s)) ++ unsent (fst (processAll calls s)) =
    unsent s ++ List.concat (map samplesOf calls).
Proof.
  induction calls as [|inputs calls IH]; intros s Hs.
  - cbn. rewrite app_nil_r. repeat split; try apply Hs. constructor.
  - cbn [processAll map concat].
    destruct (process_spec inputs Hs) as (H1 & P1 & E1).
    destruct (process inputs s) as [s1 p1]. cbn [fst snd] in *.
    destruct (IH s1 H1) as (H2 & P2 & E2).
    destruct (processAll calls s1) as [s2 p2]. cbn [fst snd] in *.
    split; [exact H2|]. split; [apply Forall_app; now split|].
    rewrite concat_app, <- app_assoc, E2, app_assoc, E1, <- app_assoc. reflexivity.
Qed.

(** X1: whatever the calls of [process], every posted window holds
    exactly 4096 samples, and the posted windows followed by the samples
    written but not yet posted are the samples received, in order:
    nothing is lost, repeated or reordered. *)
Theorem capture_preserves_samples (calls : list (list (list (list num)))) :
  let s := fst (processAll calls init) in
  let posted := snd (processAll calls init) in
  Forall (fun w => List.length w = 4096%nat) posted /\
  (bytesWritten s < 4096)%nat /\
  List.concat posted ++ unsent s = List.concat (map samplesOf calls).
Proof.
  cbv zeta. destruct (processAll_spec calls wf_init) as ((_ & Hw) & Hp & E).
  split; [exact Hp|]. split; [exact Hw|]. exact E.
Qed.

Lemma concat_windows (posted : list (list num)) :
  windows posted ->
  List.length (List.concat posted) = (bufferSize * List.length posted)%nat.
Proof.
  intros H. induction H as [|w posted Hw Hp IH].
  - now rewrite Nat.mul_0_r.
  - cbn [List.concat List.length]. rewrite length_app, IH, Hw.
    generalize bufferSize. intros n. lia.
Qed.

(** X2: the number of windows posted is the number of samples received
    divided by 4096, rounded down, and the remainder waits in the
    buffer: the samples of an incomplete window are never sent.  Every
    posted window becomes a blob of 8192 bytes. *)
Theorem capture_posts_whole_windows (calls : list (list (list (list num)))) :
  let s := fst (processAll calls init) in
  let posted := snd (processAll calls init) in
  let total := List.length (List.concat (map samplesOf calls)) in
  List.length posted = (total / 4096)%nat /\
  bytesWritten s = (total mod 4096)%nat /\
  Forall (fun w => List.length (Codec.blob_data (onmessage w)) = (2 * 4096)%nat) posted.
Proof.
  cbv zeta.
  destruct (processAll_spec calls wf_init) as ((Hlen & Hw) & Hp & E).
  set (s := fst (processAll calls init)) in *.
  set (posted := snd (processAll calls init)) in *.
  assert (List.length (List.concat (map samplesOf calls))
          = (bufferSize * List.length posted + bytesWritten s)%nat) as Et.
  { change (unsent init ++ List.concat (map samplesOf calls))
      with (List.concat (map samplesOf calls)) in E.
    rewrite <- E, length_app, (concat_windows Hp). f_equal.
    unfold unsent. rewrite length_firstn. lia. }
  change 4096%nat with bufferSize. split; [|split].
  - apply (Nat.div_unique _ _ _ (bytesWritten s)); [exact Hw|exact Et].
  - apply (Nat.mod_unique _ _ (List.length posted)); [exact Hw|exact Et].
  - eapply Forall_impl; [|exact Hp]. intros w Hwl. cbn beta in Hwl.
    unfold onmessage, Codec.createPcmBlob, Codec.toInt16Array. cbn [Codec.blob_data].
    rewrite CodecFacts.bufferBytes_length, length_map, Hwl. reflexivity.
Qed.

End WorkletFacts.

(** ** The quiz *)

Module QuizFacts.
Import Quiz.

Lemma handleAnswer_answers questionIndex optionIndex s q :
  nth_error (userAnswers (handleAnswer questionIndex optionIndex s)) q =
  match nth_error (userAnswers s) q with
  | Some None => if (questionIndex =? q)%nat then Some (Some optionIndex) else Some None
  | other => other
  end.
Proof.
  unfold handleAnswer.
  destruct (nth_error (userAnswers s) questionIndex) as [[a|]|] eqn:E.
  - destruct (nth_error (userAnswers s) q) as [[b|]|] eqn:Eq; try reflexivity.
    destruct (Nat.eqb_spec questionIndex q) as [->|]; [congruence|reflexivity].
  - cbn [userAnswers]. rewrite CodecFacts.nth_error_store.
    assert (questionIndex < List.length (userAnswers s))%nat as Hlt
      by (apply nth_error_Some; congruence).
    rewrite (proj2 (Nat.ltb_lt _ _) Hlt), andb_true_r, Nat.eqb_sym.
    destruct (Nat.eqb_spec questionIndex q) as [->|]; [now rewrite E|].
    now destruct (nth_error (userAnswers s) q) as [[b|]|].
  - destruct (nth_error (userAnswers s) q) as [[b|]|] eqn:Eq; try reflexivity.
    destruct (Nat.eqb_spec questionIndex q) as [->|]; [congruence|reflexivity].
Qed.

(** X3: after any list of clicks, a question that was unanswered
    holds the first option clicked for it (or stays unanswered), a
    question already answered keeps its answer, and an index past the
    end of the answers adds nothing: the array never grows. *)
Theorem first_answer_wins (clicks : list (nat * Z)) (s : State) (q : nat) :
  nth_error (userAnswers (answerAll clicks s)) q =
  match nth_error (userAnswers s) q with
  | Some None => Some (firstChoice clicks q)
  | other => other
  end.
Proof.
  revert s. induction clicks as [|[qi o] clicks IH]; intros s.
  - cbn. now destruct (nth_error (userAnswers s) q) as [[a|]|].
  - unfold answerAll in *. cbn [fold_left fst snd firstChoice].
    rewrite IH, handleAnswer_answers.
    destruct (nth_error (userAnswers s) q) as [[a|]|]; try reflexivity.
    now destruct (qi =? q)%nat.
Qed.

(** *** The score *)

Lemma score_fold qs l : forall k acc,
  fold_left (scoreStep qs) (combine (seq k (List.length l)) l) acc =
  (acc + pointsFrom qs k l)%nat.
Proof.
  induction l as [|a t IH]; intros k acc; cbn [List.length seq combine fold_left pointsFrom].
  - lia.
  - rewrite IH. unfold scoreStep, point. cbn [fst snd].
    destruct (nth_error qs k) as [q|]; [|lia].
    destruct a as [v|]; [|lia]. destruct (v =? correctIndex q)%Z; lia.
Qed.

Lemma calculateScore_points s :
  calculateScore s = pointsFrom (questions s) 0 (userAnswers s).
Proof.
  unfold calculateScore. now rewrite score_fold.
Qed.

Lemma pointsFrom_store qs l : forall k i o,
  nth_error l i = Some None ->
  pointsFrom qs k (store l i (Some o)) =
  (pointsFrom qs k l + point qs (k + i) (Some o))%nat.
Proof.
  induction l as [|a t IH]; intros k [|i] o H; cbn in H; try discriminate.
  - injection H as ->. cbn [store pointsFrom]. rewrite Nat.add_0_r.
    unfold point at 2. destruct (nth_error qs k); lia.
  - cbn [store pointsFrom]. rewrite (IH (S k) i o H).
    replace (S k + i)%nat with (k + S i)%nat by lia. lia.
Qed.

Lemma pointsFrom_bound qs l : forall k,
  (pointsFrom qs k l <= List.length qs - k)%nat /\
  (pointsFrom qs k l <= List.length (filter (fun a => match a with Some _ => true | None => false end) l))%nat.
Proof.
  induction l as [|a t IH]; intros k; cbn [pointsFrom filter]; [split; lia|].
  destruct (IH (S k)) as [A B]. unfold point.
  destruct (nth_error qs k) as [q|] eqn:E.
  - assert (k < List.length qs)%nat by (apply nth_error_Some; congruence).
    destruct a as [v|]; cbn [List.length]; [destruct (v =? correctIndex q)%Z|]; split; lia.
  - destruct a; cbn [List.length]; split; lia.
Qed.

(** X4: the score never exceeds the number of questions nor the number
    of answers given; recording an answer adds one point exactly when
    the question exists, was unanswered and the option is its correct
    index, and otherwise leaves the score as it was. *)
Theorem score_counts_correct_answers (questionIndex : nat) (optionIndex : Z) (s : State) :
  (calculateScore s <= List.length (questions s))%nat /\
  (calculateScore s <=
     List.length (filter (fun a => match a with Some _ => true | None => false end)
                         (userAnswers s)))%nat /\
  calculateScore (handleAnswer questionIndex optionIndex s) =
    (calculateScore s +
     match nth_error (userAnswers s) questionIndex with
     | Some None => point (questions s) questionIndex (Some optionIndex)
     | _ => 0
     end)%nat.
Proof.
  rewrite !calculateScore_points.
  destruct (pointsFrom_bound (questions s) (userAnswers s) 0) as [A B].
  split; [lia|]. split; [exact B|].
  unfold handleAnswer.
  destruct (nth_error (userAnswers s) questionIndex) as [[a|]|] eqn:E; try lia.
  cbn [questions userAnswers]. now rewrite (pointsFrom_store _ _ 0 _ _ E).
Qed.

(** *** Moving through the questions *)

(** X5: from a valid question index, [k] clicks on "next" lead to
    question [min (i + k) (n - 1)]: the index never leaves the list of
    questions; the result screen is shown from the click made on the
    last question on, and questions and answers are untouched. *)
Theorem next_stays_in_range (k : nat) (s : State) :
  (currentIndex s < List.length (questions s))%nat ->
  let s' := clickNext k s in
  currentIndex s' = Nat.min (currentIndex s + k) (List.length (questions s) - 1) /\
  showResult s' = (showResult s || (List.length (questions s) - currentIndex s <=? k)%nat) /\
  questions s' = questions s /\ userAnswers s' = userAnswers s.
Proof.
  revert s. induction k as [|k IH]; intros s H; cbv zeta.
  - cbn [clickNext]. rewrite Nat.add_0_r.
    rewrite (proj2 (Nat.leb_gt _ _)) by lia. rewrite orb_false_r.
    repeat split. lia.
  - cbn [clickNext]. unfold nextQuestion at 1 2 3 4.
    destruct (Z.ltb_spec (Z.of_nat (currentIndex s))
                         (Z.of_nat (List.length (questions s)) - 1)) as [Hlt|Hge].
    + match goal with |- context [clickNext k ?x] => destruct (IH x) as (A & B & C & D) end;
        [cbn; lia|]. cbn [currentIndex questions showResult userAnswers] in *.
      rewrite A, B, C, D. repeat split; [lia|]. f_equal.
      destruct (Nat.leb_spec (List.length (questions s) - S (currentIndex s)) k),
               (Nat.leb_spec (List.length (questions s) - currentIndex s) (S k));
        try reflexivity; lia.
    + match goal with |- context [clickNext k ?x] => destruct (IH x) as (A & B & C & D) end;
        [cbn; lia|]. cbn [currentIndex questions showResult userAnswers] in *.
      rewrite A, B, C, D. repeat split; [lia|].
      rewrite (proj2 (Nat.leb_le _ (S k))) by lia. now rewrite orb_true_r.
Qed.

Lemma next_stays_in_range_witness :
  let q := mkQuestion (js "Nam nao?") [js "1972"; js "1975"] 0 (js "1972") in
  let s := quizLoaded [q; q; q] (generateQuiz (js "Thanh Co") init) in
  currentIndex (clickNext 5 s) = 2%nat /\ showResult (clickNext 5 s) = true /\
  currentIndex (clickNext 1 s) = 1%nat /\ showResult (clickNext 2 s) = false.
Proof.
  cbv zeta.
  pose (q := mkQuestion (js "Nam nao?") [js "1972"; js "1975"] 0 (js "1972")).
  pose (s := quizLoaded [q; q; q] (generateQuiz (js "Thanh Co") init)).
  assert (currentIndex s < List.length (questions s))%nat as H by (cbn; lia).
  destruct (next_stays_in_range 5 s H) as (A5 & B5 & _).
  destruct (next_stays_in_range 1 s H) as (A1 & _).
  destruct (next_stays_in_range 2 s H) as (_ & B2 & _).
  split; [exact A5|]. split; [exact B5|]. split; [exact A1|exact B2].
Defined.

End QuizFacts.

(** ** The API service *)

Module ApiFacts.
Import Chatbot Api.

Lemma history_fold (l : list Message) : forall acc,
  fold_left historyStep l acc =
  acc ++ map entryOf (filter (fun m => Str.truthy (text m)) l).
Proof.
  induction l as [|m l IH]; intros acc; cbn [fold_left filter map].
  - now rewrite app_nil_r.
  - rewrite IH. unfold historyStep.
    destruct (Str.truthy (text m)) eqn:E; cbn [negb andb map].
    + rewrite andb_false_r, <- app_assoc. reflexivity.
    + now destruct (isUser m).
Qed.

(** X6: the history is made of the messages before the last one whose
    text is not empty, in their order, each with its role and its text
    as only part; a message without text is left out whatever its role
    (a user message that is only an image too), and image data never
    enters the history.  With the list [handleSendMessage] passes, the
    message being sent is never part of the history. *)
Theorem history_keeps_earlier_texts (messages : list Message) (userMessage : Message) :
  formatHistory messages =
    map entryOf (filter (fun m => Str.truthy (text m)) (removelast messages)) /\
  historyOfSend messages userMessage =
    map entryOf (filter (fun m => Str.truthy (text m)) messages) /\
  formatHistory [] = [] /\ formatHistory [userMessage] = [].
Proof.
  unfold historyOfSend, formatHistory. rewrite !history_fold.
  rewrite removelast_last. repeat split.
Qed.

End ApiFacts.

(** ** More on the playback scheduler *)

Module SchedulerFacts.
Import Codec Player.

(** *** Order of playback *)

Lemma fifo_loopHead isOpen s :
  pushed s = map src_item (sources s) ++ audioQueue s -> fifo (loopHead isOpen s).
Proof.
  intros H. unfold loopHead, fifo, headAwaited.
  destruct (audioQueue s) as [|item rest] eqn:E; cbn; rewrite ?E; split; eauto.
Qed.

Lemma fifo_scheduleAudio isOpen s :
  fifo s -> fifo (scheduleAudio isOpen s).
Proof.
  intros [H1 H2]. unfold scheduleAudio.
  destruct (isScheduling s); [now split|]. cbn.
  destruct (hasContext s); cbn; [|now split].
  destruct (suspended s).
  - split; [exact H1|exact I].
  - now apply fifo_loopHead.
Qed.

Lemma fifo_playItem isOpen item b t s :
  fifo s -> pass s = AwaitDecode isOpen item (Decoded b) ->
  pushed (playItem isOpen item b t s) =
  map src_item (sources (playItem isOpen item b t s))
  ++ audioQueue (playItem isOpen item b t s).
Proof.
  intros [H1 H2] Hp. unfold headAwaited in H2. rewrite Hp in H2.
  destruct H2 as [rest Hq].
  unfold playItem. destruct isOpen, (messageIndex item); cbn;
    rewrite H1, Hq, map_app, <- app_assoc; reflexivity.
Qed.

Lemma fifo_step s e :
  (match e with StopAndClear => false | _ => true end) = true ->
  fifo s -> fifo (step s e).
Proof.
  intros He H. destruct e as [isOpen seg|t|isOpen t|]; [| | |discriminate]; cbn [step].
  - unfold enqueue. apply fifo_scheduleAudio.
    destruct H as [H1 H2]. unfold fifo, headAwaited in *. cbn.
    split; [rewrite H1, app_assoc; reflexivity|].
    destruct (pass s); auto. destruct H2 as [rest ->]. now exists (rest ++ [seg]).
  - unfold continue. destruct (pass s) as [|isOpen|isOpen item [b|]] eqn:Ep.
    + exact H.
    + apply fifo_loopHead. exact (proj1 H).
    + apply fifo_loopHead. now apply fifo_playItem.
    + destruct H as [H1 _]. unfold finally. cbv zeta.
      change (audioQueue (leave s)) with (audioQueue s).
      destruct (audioQueue s) eqn:Eq.
      * rewrite <- Eq in H1. split; [exact H1|exact I].
      * rewrite <- Eq in H1. apply fifo_scheduleAudio. split; [exact H1|exact I].
  - unfold onended.
    destruct (audioQueue s) eqn:Eq; [|exact H].
    destruct (Qltb _ _); [|exact H].
    destruct H as [H1 H2]. unfold fifo, headAwaited in *.
    destruct isOpen; cbn; rewrite Eq; rewrite Eq in H1, H2; split; auto.
Qed.

(** X7: as long as the audio toggle does not flush, the segments
    pushed so far are those already started, in the order they were
    pushed, followed by those still queued: playback follows the order
    of the pushes, nothing is skipped and nothing is started twice, with
    or without an output context and even when a decode fails. *)
Theorem playback_follows_push_order (ctx susp : bool) (es : list Event) :
  noFlush es = true ->
  let s := run (init ctx susp) es in
  pushed s = map src_item (sources s) ++ audioQueue s.
Proof.
  intros H. cbv zeta.
  assert (forall s0, fifo s0 -> fifo (run s0 es)) as Hrun.
  { clear ctx susp. induction es as [|e es IH]; intros s0 H0; [exact H0|].
    cbn in H. apply andb_prop in H. destruct H as [He Hes].
    cbn [run fold_left]. apply (IH Hes). now apply fifo_step. }
  apply Hrun. split; [reflexivity|exact I].
Qed.

Lemma playback_follows_push_order_witness :
  let a := mkSegment [x00; x40] None in
  let b := mkSegment [x01] (Some 1%nat) in
  let c := mkSegment [x00; x20] None in
  let s := run (init true false)
               [Enqueue true a; Enqueue true b; Continue 0; Enqueue true c;
                Continue 1; Continue 2] in
  pushed s = map src_item (sources s) ++ audioQueue s.
Proof.
  cbv zeta.
  apply (@playback_follows_push_order true false
           [Enqueue true (mkSegment [x00; x40] None);
            Enqueue true (mkSegment [x01] (Some 1%nat)); Continue 0;
            Enqueue true (mkSegment [x00; x20] None); Continue 1; Continue 2]).
  reflexivity.
Defined.

(** *** A payload that does not decode *)

Lemma continue_failed_head isOpen item rest t s :
  pass s = AwaitDecode isOpen item NotSupportedError ->
  isScheduling s = true ->
  hasContext s = true ->
  suspended s = false ->
  audioQueue s = item :: rest ->
  decodeAudioData (audioData item) 24000 1 = NotSupportedError ->
  continue t s = set_reinvocations (S (reinvocations s)) s.
Proof.
  intros Hp Hf Hc Hs Hq Hd. unfold continue. rewrite Hp.
  unfold finally. cbv zeta.
  change (audioQueue (leave s)) with (audioQueue s). rewrite Hq.
  unfold scheduleAudio. cbn. rewrite Hc, Hs. cbn.
  unfold loopHead. cbn. rewrite Hq. unfold awaitHead. cbn.
  rewrite Hd. destruct s. cbn in *. subst. reflexivity.
Qed.

(** X8: a segment whose payload gives no frame is never taken off
    the queue: every continuation fails on it again, clears the flag
    and calls the scheduler once more on the same head.  The state only
    counts the calls; no source is started and the segments behind it
    wait for ever. *)
Theorem undecodable_head_blocks_queue
  (isOpen : bool) (item : Segment) (rest : list Segment) (ts : list Q) (s : State) :
  pass s = AwaitDecode isOpen item NotSupportedError ->
  isScheduling s = true ->
  hasContext s = true ->
  suspended s = false ->
  audioQueue s = item :: rest ->
  decodeAudioData (audioData item) 24000 1 = NotSupportedError ->
  run s (map Continue ts) =
    set_reinvocations (reinvocations s + List.length ts) s.
Proof.
  revert s. induction ts as [|t ts IH]; intros s Hp Hf Hc Hs Hq Hd.
  - cbn. rewrite Nat.add_0_r. now destruct s.
  - cbn [map run fold_left step].
    rewrite (@continue_failed_head isOpen item rest t s Hp Hf Hc Hs Hq Hd).
    change (fold_left step (map Continue ts) ?x) with (run x (map Continue ts)).
    rewrite IH; auto. destruct s. unfold set_reinvocations.
    cbn [audioQueue isAudioPlaying isScheduling nextStartTime audioSource
         currentlyPlayingIndex hasContext suspended sources pass pushed
         reinvocations List.length].
    f_equal. lia.
Qed.

Lemma undecodable_head_blocks_queue_witness :
  let bad := mkSegment [x01] None in
  let good := mkSegment [x00; x40] None in
  let s := run (init true false) [Enqueue true bad; Enqueue true good] in
  run s (map Continue [0; 1; 2]) = set_reinvocations 3 s.
Proof.
  cbv zeta.
  apply (@undecodable_head_blocks_queue true (mkSegment [x01] None)
           [mkSegment [x00; x40] None] [0; 1; 2]
           (run (init true false)
              [Enqueue true (mkSegment [x01] None);
               Enqueue true (mkSegment [x00; x40] None)])); reflexivity.
Defined.

(** *** Without an output context *)

Lemma silent_step s e : silent s -> silent (step s e).
Proof.
  intros (Hc & Hp & Hf & Hs & Hm).
  assert (silent s) as Hsil by (repeat split; auto).
  destruct e as [isOpen seg|t|isOpen t|]; cbn [step].
  - unfold enqueue, scheduleAudio. cbn. rewrite Hf, Hc. cbn.
    repeat split; auto.
  - unfold continue. now rewrite Hp.
  - unfold onended. destruct (audioQueue s) eqn:Eq; [|exact Hsil].
    destruct (Qltb _ _); [|exact Hsil].
    unfold silent. destruct isOpen; cbn; repeat split; auto.
  - unfold stopAndClear, silent.
    destruct (audioSource s); cbn; rewrite ?Hs; repeat split; auto.
    unfold stopSource. now destruct n.
Qed.

(** X9: when the output context could not be created, every call of
    the scheduler returns at once: whatever happens, nothing is ever
    started, the playing marker stays empty and the flag is never left
    set. *)
Theorem no_context_nothing_plays (susp : bool) (es : list Event) :
  let s := run (init false susp) es in
  sources s = [] /\ currentlyPlayingIndex s = None /\
  isScheduling s = false /\ pass s = NoPass.
Proof.
  cbv zeta.
  assert (forall s0, silent s0 -> silent (run s0 es)) as Hrun.
  { induction es as [|e es IH]; intros s0 H0; [exact H0|].
    cbn [run fold_left]. apply IH. now apply silent_step. }
  destruct (Hrun (init false susp)) as (_ & Hp & Hf & Hs & Hm).
  - repeat split.
  - auto.
Qed.

(** *** The flag and the suspended pass *)

Lemma settled_loopHead isOpen s :
  isScheduling s = true -> settledOrBusy (loopHead isOpen s).
Proof.
  intros H. unfold loopHead, settledOrBusy.
  destruct (audioQueue s) eqn:E; cbn; auto.
Qed.

Lemma settled_scheduleAudio isOpen s :
  hasContext s = true -> settledOrBusy s -> settledOrBusy (scheduleAudio isOpen s).
Proof.
  intros Hc H. unfold scheduleAudio.
  destruct (isScheduling s) eqn:Ef; [exact H|]. cbn. rewrite Hc. cbn.
  destruct (suspended s); [reflexivity|]. now apply settled_loopHead.
Qed.

Lemma hasContext_step s e : hasContext (step s e) = hasContext s.
Proof.
  destruct e as [isOpen seg|t|isOpen t|]; cbn [step].
  - unfold enqueue, scheduleAudio. cbn.
    destruct (isScheduling s); [reflexivity|]. cbn.
    destruct (hasContext s) eqn:Ec; cbn; [|exact Ec].
    destruct (suspended s); [exact Ec|].
    unfold loopHead. cbn. destruct (audioQueue s ++ [seg]); exact Ec.
  - unfold continue. destruct (pass s) as [|isOpen|isOpen item [b|]]; try reflexivity.
    + unfold loopHead. cbn. now destruct (audioQueue s).
    + unfold loopHead. destruct (PlayerFacts.playItem_frame isOpen item b t s) as (Eq & _ & Ec).
      destruct (audioQueue (playItem isOpen item b t s)); exact Ec.
    + unfold finally, scheduleAudio. cbn.
      destruct (audioQueue s) eqn:Eq; [reflexivity|]. cbn.
      destruct (hasContext s) eqn:Ec; cbn; [|exact Ec].
      destruct (suspended s); [exact Ec|].
      unfold loopHead. cbn. now rewrite Eq.
  - unfold onended. destruct (audioQueue s); [|reflexivity].
    destruct (Qltb _ _); [|reflexivity]. now destruct isOpen.
  - unfold stopAndClear. now destruct (audioSource s).
Qed.

Lemma settled_step s e :
  hasContext s = true -> settledOrBusy s -> settledOrBusy (step s e).
Proof.
  intros Hc H. destruct e as [isOpen seg|t|isOpen t|]; cbn [step].
  - unfold enqueue. unfold scheduleAudio. cbn.
    unfold settledOrBusy in H.
    destruct (isScheduling s) eqn:Ef.
    + unfold settledOrBusy. cbn. destruct (pass s); [destruct H; congruence|auto|auto].
    + cbn. rewrite Hc. cbn. destruct (suspended s); [reflexivity|].
      now apply settled_loopHead.
  - unfold continue. unfold settledOrBusy in H.
    destruct (pass s) as [|isOpen|isOpen item [b|]] eqn:Ep.
    + unfold settledOrBusy. now rewrite Ep.
    + now apply settled_loopHead.
    + apply settled_loopHead.
      destruct (PlayerFacts.playItem_frame isOpen item b t s) as (_ & -> & _). exact H.
    + unfold finally. cbv zeta.
      change (audioQueue (leave s)) with (audioQueue s).
      destruct (audioQueue s) eqn:Eq.
      * unfold settledOrBusy. cbn. auto.
      * unfold scheduleAudio. cbn. rewrite Hc. cbn.
        destruct (suspended s); [reflexivity|]. now apply settled_loopHead.
  - unfold onended. destruct (audioQueue s) eqn:Eq; [|exact H].
    destruct (Qltb _ _); [|exact H].
    unfold settledOrBusy in *. destruct isOpen; cbn; rewrite Eq in *; exact H.
  - unfold stopAndClear, settledOrBusy in *.
    destruct (audioSource s); cbn; destruct (pass s); auto; destruct H; auto.
Qed.

(** X10: with an output context, in every state the component can
    reach, the in-flight flag is set exactly while a pass is suspended at
    an [await], and a scheduler at rest has an empty queue: a pushed
    segment is never left behind without a pass in charge of it,
    whatever decode fails and whenever the toggle flushes. *)
Theorem never_idle_with_pending_segments (susp : bool) (es : list Event) :
  let s := run (init true susp) es in
  (pass s = NoPass -> isScheduling s = false /\ audioQueue s = []) /\
  (pass s <> NoPass -> isScheduling s = true).
Proof.
  cbv zeta.
  assert (forall s0, hasContext s0 = true -> settledOrBusy s0 ->
                     settledOrBusy (run s0 es)) as Hrun.
  { induction es as [|e es IH]; intros s0 Hc H0; [exact H0|].
    cbn [run fold_left]. apply IH; [now rewrite hasContext_step|now apply settled_step]. }
  specialize (Hrun (init true susp) eq_refl (conj eq_refl eq_refl)).
  unfold settledOrBusy in Hrun.
  destruct (pass (run (init true susp) es)); split; intros; auto; congruence.
Qed.

(** *** Back to back *)

Lemma loopHead_times isOpen s :
  sources (loopHead isOpen s) = sources s /\
  nextStartTime (loopHead isOpen s) = nextStartTime s.
Proof.
  unfold loopHead. destruct (audioQueue s); split; reflexivity.
Qed.

Lemma scheduleAudio_times isOpen s :
  sources (scheduleAudio isOpen s) = sources s /\
  nextStartTime (scheduleAudio isOpen s) = nextStartTime s.
Proof.
  unfold scheduleAudio. destruct (isScheduling s); [now split|]. cbn.
  destruct (hasContext s); cbn; [|now split].
  destruct (suspended s); [now split|].
  apply (loopHead_times isOpen (set_isScheduling true s)).
Qed.

Lemma finally_times isOpen s :
  sources (finally isOpen s) = sources s /\
  nextStartTime (finally isOpen s) = nextStartTime s.
Proof.
  unfold finally. cbv zeta.
  change (audioQueue (leave s)) with (audioQueue s).
  destruct (audioQueue s); [now split|].
  apply (scheduleAudio_times isOpen
           (set_reinvocations (S (reinvocations (leave s))) (leave s))).
Qed.

Lemma playItem_times isOpen item b t s :
  sources (playItem isOpen item b t s) =
    sources s ++ [mkSource item (bump t (nextStartTime s)) (duration b) false] /\
  nextStartTime (playItem isOpen item b t s) =
    bump t (nextStartTime s) + duration b.
Proof.
  unfold playItem. destruct isOpen, (messageIndex item); split; reflexivity.
Qed.

Lemma cursorAtEnd_frame s s' :
  sources s' = sources s -> nextStartTime s' = nextStartTime s ->
  cursorAtEnd s -> cursorAtEnd s'.
Proof.
  intros Es En H l a. rewrite Es, En. apply H.
Qed.

Lemma cursorAtEnd_step s e : cursorAtEnd s -> cursorAtEnd (step s e).
Proof.
  intros H. destruct e as [isOpen seg|t|isOpen t|]; cbn [step].
  - unfold enqueue.
    match goal with |- cursorAtEnd (scheduleAudio _ ?x) =>
      destruct (scheduleAudio_times isOpen x) as [Es En] end.
    now apply (@cursorAtEnd_frame _ _ Es En).
  - unfold continue. destruct (pass s) as [|isOpen|isOpen item [b|]].
    + exact H.
    + destruct (loopHead_times isOpen (set_suspended false s)) as [Es En].
      now apply (@cursorAtEnd_frame _ _ Es En).
    + destruct (loopHead_times isOpen (playItem isOpen item b t s)) as [Es En].
      destruct (playItem_times isOpen item b t s) as [Ps Pn].
      intros l a. rewrite Es, En, Ps, Pn. intros E.
      apply app_inj_tail in E. destruct E as [_ <-]. reflexivity.
    + destruct (finally_times isOpen s) as [Es En].
      now apply (@cursorAtEnd_frame _ _ Es En).
  - unfold onended. destruct (audioQueue s); [|exact H].
    destruct (Qltb _ _); [|exact H]. destruct isOpen; exact H.
  - unfold stopAndClear. destruct (audioSource s) as [k|]; [|exact H].
    intros l a. cbn. intros E.
    pose proof (PlayerFacts.stopSource_times k (sources s)) as F. rewrite E in F.
    apply Forall2_app_inv_r in F. destruct F as (l0 & l1 & _ & F1 & E0).
    inversion F1 as [|a0 ? ? ? Ha F2]; subst. inversion F2; subst.
    destruct Ha as [<- <-]. now apply (H l0).
Qed.

Lemma cursorAtEnd_run es : forall s, cursorAtEnd s -> cursorAtEnd (run s es).
Proof.
  induction es as [|e es IH]; intros s H; [exact H|].
  cbn [run fold_left]. apply IH. now apply cursorAtEnd_step.
Qed.

Lemma cursorAtEnd_init ctx susp : cursorAtEnd (init ctx susp).
Proof.
  intros l a E. cbn in E. now destruct l.
Qed.

(** X11: in every reachable state the cursor is exactly the end of
    the source started last; so when the device clock has not passed
    that end, the next segment starts exactly where the previous one
    ends, with no gap. *)
Theorem next_source_starts_at_previous_end
  (ctx susp : bool) (es : list Event) (t : Q) (isOpen : bool) (item : Segment)
  (audioBuffer : AudioBuffer) (l : list Source) (a : Source) :
  let s := run (init ctx susp) es in
  pass s = AwaitDecode isOpen item (Decoded audioBuffer) ->
  sources s = l ++ [a] ->
  t <= src_start a + src_duration a ->
  nextStartTime s = src_start a + src_duration a /\
  sources (continue t s) =
    sources s ++ [mkSource item (src_start a + src_duration a) (duration audioBuffer) false].
Proof.
  intros s Hp Hs Ht.
  pose proof (@cursorAtEnd_run es _ (@cursorAtEnd_init ctx susp) l a Hs) as Hc.
  fold s in Hc. split; [exact Hc|].
  unfold continue. rewrite Hp.
  destruct (loopHead_times isOpen (playItem isOpen item audioBuffer t s)) as [-> _].
  destruct (playItem_times isOpen item audioBuffer t s) as [-> _].
  unfold bump. rewrite Hc.
  now rewrite (proj2 (Qltb_false (src_start a + src_duration a) t) Ht).
Qed.

Lemma next_source_starts_at_previous_end_witness :
  let a := mkSegment [x00; x40; x00; x20] None in
  let b := mkSegment [x00; x10] None in
  let s := run (init true false) [Enqueue true a; Enqueue true b; Continue 0] in
  nextStartTime s = 0 + (2 # 1) / 24000 /\
  sources (continue 0 s) =
    sources s ++ [mkSource b (0 + (2 # 1) / 24000) ((1 # 1) / 24000) false].
Proof.
  cbv zeta.
  apply (@next_source_starts_at_previous_end true false
           [Enqueue true (mkSegment [x00; x40; x00; x20] None);
            Enqueue true (mkSegment [x00; x10] None); Continue 0] 0 true
           (mkSegment [x00; x10] None)
           {| numberOfChannels := 1; frames := 1; sampleRate := 24000;
              channels := [[Fin (4096 # 32768)]] |}
           [] (mkSource (mkSegment [x00; x40; x00; x20] None) 0
                 ((2 # 1) / 24000) false)).
  - reflexivity.
  - reflexivity.
  - vm_compute. discriminate.
Defined.

(** *** The toggle during the wait for the context *)

Lemma stopSource_items k l : map src_item (stopSource k l) = map src_item l.
Proof.
  unfold stopSource. destruct (nth_error l k) as [src|] eqn:E; [|reflexivity].
  revert k E. induction l as [|a t IH]; intros [|k] E; cbn in *; try discriminate.
  - now injection E as ->.
  - f_equal. now apply IH.
Qed.

(** X12: when the toggle flushes while a pass waits for the output
    context to resume, what was queued is dropped; a segment pushed
    after the flush starts no second pass, the flag being set, and the
    pass already waiting takes it once the context has resumed: it is
    the only segment started, and the scheduler then comes to rest. *)
Theorem flush_during_resume_serves_newcomer
  (isOpen isOpen' : bool) (x : Segment) (audioBuffer : AudioBuffer) (t t' : Q)
  (s : State) :
  pass s = AwaitResume isOpen ->
  isScheduling s = true ->
  decodeAudioData (audioData x) 24000 1 = Decoded audioBuffer ->
  let s1 := enqueue isOpen' x (stopAndClear s) in
  let s3 := continue t' (continue t s1) in
  audioQueue s1 = [x] /\
  pass s1 = AwaitResume isOpen /\
  pushed s3 = pushed s ++ [x] /\
  audioQueue s3 = [] /\
  pass s3 = NoPass /\
  isScheduling s3 = false /\
  map src_item (sources s3) = map src_item (sources s) ++ [x].
Proof.
  intros Hp Hf Hd. cbv zeta.
  assert (enqueue isOpen' x (stopAndClear s) =
          set_pushed (pushed s ++ [x]) (set_audioQueue [x] (stopAndClear s))) as E.
  { unfold enqueue, scheduleAudio, stopAndClear.
    destruct (audioSource s); cbn; rewrite Hf; reflexivity. }
  rewrite E.
  set (s1 := set_pushed (pushed s ++ [x]) (set_audioQueue [x] (stopAndClear s))).
  assert (pass s1 = AwaitResume isOpen /\ audioQueue s1 = [x] /\
          pushed s1 = pushed s ++ [x] /\
          map src_item (sources s1) = map src_item (sources s))
    as (P1 & Q1 & U1 & S1).
  { subst s1. unfold stopAndClear.
    destruct (audioSource s); cbn; rewrite ?stopSource_items; auto. }
  clearbody s1.
  split; [exact Q1|]. split; [exact P1|].
  assert (continue t s1 = awaitHead isOpen x (set_suspended false s1)) as E1.
  { unfold continue. rewrite P1. unfold loopHead.
    cbn [audioQueue set_suspended]. now rewrite Q1. }
  rewrite E1.
  set (s2 := awaitHead isOpen x (set_suspended false s1)).
  assert (pass s2 = AwaitDecode isOpen x (Decoded audioBuffer) /\
          audioQueue s2 = [x] /\ pushed s2 = pushed s ++ [x] /\
          map src_item (sources s2) = map src_item (sources s))
    as (P2 & Q2 & U2 & S2).
  { subst s2. unfold awaitHead. cbn. rewrite Hd. auto. }
  clearbody s2.
  set (s3 := playItem isOpen x audioBuffer t' s2).
  destruct (PlayerFacts.playItem_frame isOpen x audioBuffer t' s2) as (Q3 & _ & _).
  pose proof (TtsFacts.playItem_pushed isOpen x audioBuffer t' s2) as U3.
  destruct (playItem_times isOpen x audioBuffer t' s2) as (S3 & _).
  fold s3 in Q3, U3, S3. rewrite Q2 in Q3. cbn [tl] in Q3.
  assert (continue t' s2 = leave s3) as E2.
  { unfold continue. rewrite P2. fold s3. unfold loopHead. now rewrite Q3. }
  rewrite E2. clearbody s3. unfold leave.
  cbn [pushed audioQueue pass isScheduling sources set_pass set_isScheduling].
  rewrite Q3, U3, U2, S3, map_app, S2. repeat split.
Qed.

Lemma flush_during_resume_serves_newcomer_witness :
  let a := mkSegment [x00; x40] None in
  let x := mkSegment [x00; x20] None in
  let s := enqueue true a (init true true) in
  let s3 := continue 0 (continue 0 (enqueue true x (stopAndClear s))) in
  pushed s3 = [a; x] /\ audioQueue s3 = [] /\
  map src_item (sources s3) = [x].
Proof.
  cbv zeta.
  destruct (@flush_during_resume_serves_newcomer true true
              (mkSegment [x00; x20] None)
              {| numberOfChannels := 1; frames := 1; sampleRate := 24000;
                 channels := [[Fin (8192 # 32768)]] |}
              0 0 (enqueue true (mkSegment [x00; x40] None) (init true true)))
    as (_ & _ & A & B & _ & _ & C).
  - reflexivity.
  - reflexivity.
  - reflexivity.
  - split; [exact A|]. split; [exact B|exact C].
Defined.

End SchedulerFacts.

(** ** The TTS segments in the playback queue *)

Module TtsOrderFacts.
Import Chatbot.

Lemma expectedSegments_segmentsOf st l : expectedSegments st l = segmentsOf st l.
Proof.
  unfold expectedSegments, segmentsOf, succeeded, segmentOf.
  apply flat_map_ext. intros j.
  now destruct (outcomeOf (promise j) st) as [[[[|b d]|]|]|].
Qed.

(** *** The player as the component drives it *)

Lemma player_processNextTts s : player (processNextTts s) = player s.
Proof.
  unfold processNextTts. cbv zeta. now destruct (ttsPromiseQueue (tts s)).
Qed.

Lemma player_processTtsQueue txt i s : player (processTtsQueue txt i s) = player s.
Proof.
  unfold processTtsQueue. destruct (Str.truthy _); [|reflexivity]. cbv zeta.
  destruct (isProcessingTts (tts s)); [reflexivity|].
  now rewrite player_processNextTts.
Qed.

Lemma player_step s e :
  player (step s e) = Player.run (player s) (playerEvents s e).
Proof.
  destruct e; cbn [step playerEvents]; try reflexivity.
  - unfold toggleAudio. cbv zeta. now destruct (isAudioEnabled s).
  - rewrite HandlerFacts.handleLiveMessage_player. unfold audioOf, onInlineData.
    now destruct (inlineData message) as [[|b d]|].
  - unfold fireTimer. now destruct (nth_error (timers s) k) as [[d []]|].
  - unfold handleSendMessage. now destruct (_ || _).
  - unfold onChunk. destruct (sending s) as [f|]; [|reflexivity].
    destruct chunkText as [[|c t]|]; try reflexivity. cbv zeta.
    destruct (_ && _); [|reflexivity]. destruct (_ || _); [|reflexivity].
    now rewrite player_processTtsQueue.
  - unfold ttsSettle. cbv zeta. destruct (_ <? _)%nat; [|reflexivity].
    now destruct (outcomeOf id (settled (tts s))).
  - unfold ttsContinue. destruct (awaited (tts s)) as [job|]; [|reflexivity].
    destruct (outcomeOf _ _) as [o|]; [|reflexivity]. cbv zeta.
    rewrite player_processNextTts. now destruct (segmentOf o job).
Qed.

Lemma player_run es : forall s,
  player (run s es) = Player.run (player s) (playerTrace s es).
Proof.
  induction es as [|e es IH]; intros s; [reflexivity|].
  cbn [run fold_left playerTrace]. unfold run in IH. rewrite IH, player_step.
  unfold Player.run. now rewrite fold_left_app.
Qed.

Lemma noFlush_trace es : forall s,
  noToggle es = true -> Player.noFlush (playerTrace s es) = true.
Proof.
  induction es as [|e es IH]; intros s H; [reflexivity|].
  cbn [noToggle forallb] in H. apply andb_true_iff in H. destruct H as [He Hes].
  cbn [playerTrace]. unfold Player.noFlush. rewrite forallb_app.
  apply andb_true_iff. split; [|now apply IH].
  destruct e; try discriminate; cbn [playerEvents]; try reflexivity.
  - now destruct (inlineData message) as [[|b d]|].
  - destruct (awaited (tts s)) as [job|]; [|reflexivity].
    destruct (outcomeOf _ _) as [o|]; [|reflexivity].
    now destruct (segmentOf o job).
Qed.

Lemma fifo_run pes : forall p,
  Player.noFlush pes = true -> Player.fifo p -> Player.fifo (Player.run p pes).
Proof.
  induction pes as [|e pes IH]; intros p H Hp; [exact Hp|].
  cbn in H. apply andb_prop in H. destruct H as [He Hes].
  cbn [Player.run fold_left]. apply (IH _ Hes). now apply SchedulerFacts.fifo_step.
Qed.

Lemma settled_run pes : forall p,
  Player.hasContext p = true -> Player.settledOrBusy p ->
  Player.settledOrBusy (Player.run p pes).
Proof.
  induction pes as [|e pes IH]; intros p Hc Hp; [exact Hp|].
  cbn [Player.run fold_left]. apply IH.
  - now rewrite SchedulerFacts.hasContext_step.
  - now apply SchedulerFacts.settled_step.
Qed.

(** Without the toggle, what the TTS path pushed is what is started
    or queued of it. *)
Lemma lineup_pushed ctx susp es :
  noToggle es = true ->
  let s := run (init ctx susp) es in
  filter fromTts (Player.lineup (player s)) = ttsPushed s.
Proof.
  intros H. cbv zeta. unfold ttsPushed, Player.lineup.
  rewrite player_run.
  destruct (@fifo_run (playerTrace (init ctx susp) es) (Player.init ctx susp))
    as [E _].
  - now apply noFlush_trace.
  - split; [reflexivity|exact I].
  - cbn [player init] in *. now rewrite E.
Qed.

Lemma at_rest_queue_empty susp es :
  let s := run (init true susp) es in
  Player.pass (player s) = Player.NoPass -> Player.audioQueue (player s) = [].
Proof.
  cbv zeta. rewrite player_run. intros Hp.
  pose proof (@settled_run (playerTrace (init true susp) es) (Player.init true susp)
                eq_refl (conj eq_refl eq_refl)) as H.
  unfold Player.settledOrBusy in H. cbn [player init] in *.
  rewrite Hp in H. apply H.
Qed.

Lemma run_app (s : State) (es es' : list Event) :
  run s (es ++ es') = run (run s es) es'.
Proof. apply fold_left_app. Qed.

Lemma noToggle_drain es isOpen n :
  noToggle es = true -> noToggle (es ++ repeat (TtsContinue isOpen) n) = true.
Proof.
  intros H. unfold noToggle in *. rewrite forallb_app, H. cbn [andb].
  induction n as [|n IH]; [reflexivity|exact IH].
Qed.

(** C2: over every run of the component, the segments the TTS path
    has appended to the playback queue are those of the jobs dealt with
    so far whose synthesis succeeded, in the order the jobs were made;
    the jobs dealt with are a prefix of the jobs made, whatever the
    order in which the promises settle.  As long as the audio toggle has
    not flushed the queue, these are the TTS segments actually started
    or waiting in the queue, in that order.  Once every waiting job has
    settled, one continuation of the drain loop per waiting job ends the
    loop; the appended segments are then those of all the jobs made
    whose synthesis succeeded, in the order of the jobs: a rejected or
    empty synthesis adds nothing and holds nothing back.  With an output
    context the scheduler is never at rest with a segment left in the
    queue. *)
Theorem tts_order_preserved (ctx susp : bool) (es : list Event) (isOpen : bool) :
  let s := run (init ctx susp) es in
  (exists done,
      jobs (tts s) = done ++ waiting (tts s) /\
      ttsPushed s = expectedSegments (settled (tts s)) done /\
      (noToggle es = true ->
       filter fromTts (Player.lineup (player s)) =
         expectedSegments (settled (tts s)) done)) /\
  (awaited (tts s) = None ->
   ttsPushed s = expectedSegments (settled (tts s)) (jobs (tts s))) /\
  (all_settled s ->
   let s' := run s (repeat (TtsContinue isOpen) (List.length (waiting (tts s)))) in
   awaited (tts s') = None /\
   ttsPushed s' = expectedSegments (settled (tts s)) (jobs (tts s)) /\
   (noToggle es = true ->
    filter fromTts (Player.lineup (player s')) =
      expectedSegments (settled (tts s)) (jobs (tts s))) /\
   (ctx = true ->
    Player.pass (player s') = Player.NoPass -> Player.audioQueue (player s') = [])).
Proof.
  cbv zeta.
  destruct (TtsFacts.TtsInv_run es (TtsFacts.TtsInv_init ctx susp)) as [done H].
  assert (forall s0 d0, TtsInv s0 d0 -> awaited (tts s0) = None ->
                        ttsPushed s0 = segmentsOf (settled (tts s0)) (jobs (tts s0)))
    as Hidle.
  { intros s0 d0 H0 Ea. rewrite (inv_jobs H0). unfold waiting.
    rewrite Ea, (inv_idle H0 Ea), app_nil_r. apply (inv_pushed H0). }
  rewrite !expectedSegments_segmentsOf.
  split; [|split].
  - exists done. rewrite expectedSegments_segmentsOf.
    split; [apply (inv_jobs H)|]. split; [apply (inv_pushed H)|].
    intros Hn. rewrite (lineup_pushed ctx susp es Hn). apply (inv_pushed H).
  - apply (Hidle _ _ H).
  - intros Hall.
    destruct (@TtsFacts.drain_tts isOpen _ _ _ H Hall (le_n _))
      as (A & B & C & done' & H').
    assert (ttsPushed
              (run (run (init ctx susp) es)
                 (repeat (TtsContinue isOpen)
                    (List.length (waiting (tts (run (init ctx susp) es)))))) =
            segmentsOf (settled (tts (run (init ctx susp) es)))
                       (jobs (tts (run (init ctx susp) es)))) as E.
    { rewrite (Hidle _ _ H' A), B. unfold jobs. now rewrite C. }
    split; [exact A|]. split; [exact E|]. split.
    + intros Hn. rewrite <- E, <- run_app.
      apply lineup_pushed. now apply noToggle_drain.
    + intros -> Hp. rewrite <- run_app in *. now apply at_rest_queue_empty in Hp.
Qed.

Lemma tts_order_preserved_witness :
  let chat := [Send (js "ke chuyen") None;
               Chunk (Some (js "Mot.")); Chunk (Some (js "Hai."));
               Chunk (Some (js "Ba."))] in
  let settle := [TtsSettle 2 (Resolved (Some [x00; x10]));
                 TtsSettle 0 (Resolved (Some [x00; x40]));
                 TtsSettle 1 (Resolved None)] in
  let s := run (init true false) (chat ++ settle) in
  let s' := run s (repeat (TtsContinue true) 3) in
  awaited (tts s') = None /\
  filter fromTts (Player.lineup (player s')) =
    [Player.mkSegment [x00; x40] (Some 1%nat);
     Player.mkSegment [x00; x10] (Some 1%nat)].
Proof.
  cbv zeta.
  pose proof (proj2 (proj2 (tts_order_preserved true false
            ([Send (js "ke chuyen") None;
              Chunk (Some (js "Mot.")); Chunk (Some (js "Hai."));
              Chunk (Some (js "Ba."))]
             ++ [TtsSettle 2 (Resolved (Some [x00; x10]));
                 TtsSettle 0 (Resolved (Some [x00; x40]));
                 TtsSettle 1 (Resolved None)]) true))) as P.
  cbv zeta in P.
  match type of P with
  | ?A -> _ => assert A as Hall
      by (unfold all_settled; vm_compute; repeat constructor; discriminate)
  end.
  destruct (P Hall) as (P1 & _ & P3 & _). specialize (P3 eq_refl).
  split; [exact P1|].
  vm_compute in P3. vm_compute. exact P3.
Defined.

End TtsOrderFacts.

(** ** The playing indicator *)

Module IndicatorFacts.
Import Codec Chatbot.

(** *** The player keeps its indices *)

Section Indices.
Variable P : nat -> Prop.

Lemma Indexed_loopHead isOpen s :
  Forall (fun seg => Player.optP P (Player.messageIndex seg)) (Player.audioQueue s) ->
  Player.optP P (Player.currentlyPlayingIndex s) ->
  Player.Indexed P (Player.loopHead isOpen s).
Proof.
  intros Hq Hm. unfold Player.loopHead.
  destruct (Player.audioQueue s) as [|item rest] eqn:E.
  - constructor; cbn; [rewrite E; constructor|exact I|exact Hm].
  - constructor; cbn; [now rewrite E| |exact Hm].
    now inversion Hq.
Qed.

Lemma Indexed_scheduleAudio isOpen s :
  Player.Indexed P s -> Player.Indexed P (Player.scheduleAudio isOpen s).
Proof.
  intros [Hq Hp Hm]. unfold Player.scheduleAudio.
  destruct (Player.isScheduling s); [now constructor|]. cbn.
  destruct (Player.hasContext s); cbn.
  - destruct (Player.suspended s).
    + constructor; [exact Hq|exact I|exact Hm].
    + apply Indexed_loopHead; assumption.
  - constructor; assumption.
Qed.

Lemma Indexed_enqueue isOpen seg s :
  Player.Indexed P s -> Player.optP P (Player.messageIndex seg) ->
  Player.Indexed P (Player.enqueue isOpen seg s).
Proof.
  intros [Hq Hp Hm] Hs. unfold Player.enqueue. apply Indexed_scheduleAudio.
  constructor; cbn; [|exact Hp|exact Hm].
  apply Forall_app. split; [exact Hq|]. now constructor.
Qed.

Lemma Indexed_continue t s :
  Player.Indexed P s -> Player.Indexed P (Player.continue t s).
Proof.
  intros [Hq Hp Hm]. unfold Player.continue.
  destruct (Player.pass s) as [|isOpen|isOpen item [b|]] eqn:E.
  - constructor; [exact Hq|now rewrite E|exact Hm].
  - apply Indexed_loopHead; assumption.
  - apply Indexed_loopHead.
    + unfold Player.playItem.
      assert (Forall (fun seg => Player.optP P (Player.messageIndex seg))
                     (tl (Player.audioQueue s))) as Ht.
      { destruct (Player.audioQueue s); [constructor|now inversion Hq]. }
      destruct isOpen, (Player.messageIndex item); exact Ht.
    + unfold Player.playItem.
      destruct isOpen, (Player.messageIndex item) eqn:Ei; cbn; try exact Hm.
      exact Hp.
  - unfold Player.finally. cbv zeta.
    change (Player.audioQueue (Player.leave s)) with (Player.audioQueue s).
    destruct (Player.audioQueue s) eqn:Eq.
    + constructor; cbn; [now rewrite Eq|exact I|exact Hm].
    + apply Indexed_scheduleAudio.
      constructor; cbn; [now rewrite Eq|exact I|exact Hm].
Qed.

Lemma Indexed_onended isOpen t s :
  Player.Indexed P s -> Player.Indexed P (Player.onended isOpen t s).
Proof.
  intros [Hq Hp Hm]. unfold Player.onended.
  destruct (Player.audioQueue s) eqn:Eq; [|constructor; [now rewrite Eq| |]; assumption].
  destruct (Qltb _ _); [|constructor; [now rewrite Eq| |]; assumption].
  destruct isOpen; constructor; cbn; try rewrite Eq; try assumption; try constructor.
Qed.

Lemma Indexed_stopAndClear s :
  Player.Indexed P s -> Player.Indexed P (Player.stopAndClear s).
Proof.
  intros [Hq Hp Hm]. unfold Player.stopAndClear.
  destruct (Player.audioSource s); constructor; cbn; try constructor; exact Hp.
Qed.

End Indices.

Lemma Indexed_mono (P Q : nat -> Prop) s :
  (forall i, P i -> Q i) -> Player.Indexed P s -> Player.Indexed Q s.
Proof.
  intros H [Hq Hp Hm].
  assert (forall o, Player.optP P o -> Player.optP Q o) as Ho.
  { intros [i|]; cbn; auto. }
  constructor.
  - eapply Forall_impl; [|exact Hq]. intros seg. apply Ho.
  - destruct (Player.pass s); auto.
  - now apply Ho.
Qed.

(** *** Roles never change *)

Lemma roles_updateLast f l :
  (forall m, role (f m) = role m) -> map role (updateLast f l) = map role l.
Proof.
  intros Hf. induction l as [|m [|m' rest] IH]; [reflexivity|cbn; now rewrite Hf|].
  change (updateLast f (m :: m' :: rest)) with (m :: updateLast f (m' :: rest)).
  cbn [map]. now rewrite IH.
Qed.

Lemma roles_updateFirstUser f l :
  (forall m, role (f m) = role m) -> map role (updateFirstUser f l) = map role l.
Proof.
  intros Hf. induction l as [|m rest IH]; [reflexivity|]. cbn.
  destruct (isUser m); cbn; [now rewrite Hf|now rewrite IH].
Qed.

Lemma roles_updateLastUser f l :
  (forall m, role (f m) = role m) -> map role (updateLastUser f l) = map role l.
Proof.
  intros Hf. unfold updateLastUser.
  now rewrite map_rev, roles_updateFirstUser, <- map_rev, rev_involutive.
Qed.

Lemma grows_refl l : grows l l.
Proof. exists []. now rewrite app_nil_r. Qed.

Lemma grows_trans l1 l2 l3 : grows l1 l2 -> grows l2 l3 -> grows l1 l3.
Proof.
  intros [x Hx] [y Hy]. exists (x ++ y). now rewrite Hy, Hx, app_assoc.
Qed.

Lemma grows_roles l l' : map role l' = map role l -> grows l l'.
Proof. intros H. exists []. now rewrite app_nil_r. Qed.

Lemma grows_app l x : grows l (l ++ x).
Proof. exists (map role x). apply map_app. Qed.

Lemma userAt_grows l l' i : grows l l' -> userAt l i -> userAt l' i.
Proof.
  unfold userAt. intros [x Hx] H. rewrite Hx.
  rewrite nth_error_app1; [exact H|].
  apply nth_error_Some. now rewrite H.
Qed.

Lemma setText_role v m : role (setText v m) = role m.
Proof. reflexivity. Qed.

(** *** The invariant *)

Lemma IndexInv_frame s s' :
  grows (messages s) (messages s') ->
  player s' = player s ->
  waiting (tts s') = waiting (tts s) ->
  sending s' = sending s \/ sending s' = None ->
  IndexInv s -> IndexInv s'.
Proof.
  intros Hg Hp Hw Hs [Ip It Is].
  constructor.
  - rewrite Hp. eapply Indexed_mono; [|exact Ip].
    intros i. now apply userAt_grows.
  - rewrite Hw. eapply Forall_impl; [|exact It].
    intros j. now apply userAt_grows.
  - destruct Hs as [-> | ->]; [|exact I].
    destruct (sending s); [|exact I]. now apply (userAt_grows Hg).
Qed.

Lemma IndexInv_player s p :
  Player.Indexed (userAt (messages s)) p ->
  IndexInv s -> IndexInv (set_player p s).
Proof.
  intros Hp [_ It Is]. constructor; assumption.
Qed.

Lemma IndexInv_handleLiveMessage eager isOpen m s :
  IndexInv s -> IndexInv (handleLiveMessage eager isOpen m s).
Proof.
  intros [Hp Ht Hs].
  destruct (HandlerFacts.handleLiveMessage_sameBut eager isOpen m s)
    as ((Et & Ef & _) & Hg).
  constructor.
  - rewrite HandlerFacts.handleLiveMessage_player.
    apply (@Indexed_mono (userAt (messages s))); [intros i; now apply userAt_grows|].
    unfold audioOf, onInlineData.
    destruct (inlineData m) as [[|b d]|]; try exact Hp.
    cbn [player set_player]. apply Indexed_enqueue; [exact Hp|exact I].
  - rewrite Et. eapply Forall_impl; [|exact Ht]. intros j. now apply userAt_grows.
  - rewrite Ef. destruct (sending s); [|exact I]. now apply (userAt_grows Hg).
Qed.

Lemma waiting_queue (P : TtsJob -> Prop) t :
  Forall P (waiting t) -> Forall P (ttsPromiseQueue t).
Proof.
  unfold waiting. destruct (awaited t); [|auto]. intros H. now inversion H.
Qed.

Lemma IndexInv_processNextTts s :
  Forall (fun j => userAt (messages s) (job_messageIndex j)) (ttsPromiseQueue (tts s)) ->
  Player.Indexed (userAt (messages s)) (player s) ->
  match sending s with
  | Some f => userAt (messages s) (sf_messagesLength f)
  | None => True
  end ->
  IndexInv (processNextTts s).
Proof.
  intros Hq Hp Hs. unfold processNextTts. cbv zeta.
  destruct (ttsPromiseQueue (tts s)) as [|job rest]; constructor; cbn;
    assumption.
Qed.

Lemma IndexInv_processTtsQueue txt i s :
  userAt (messages s) i -> IndexInv s -> IndexInv (processTtsQueue txt i s).
Proof.
  intros Hi H. unfold processTtsQueue.
  destruct (Str.truthy (Str.trim txt)); [|exact H]. cbv zeta.
  destruct H as [Hp Ht Hs].
  assert (Forall (fun j => userAt (messages s) (job_messageIndex j))
                 (ttsPromiseQueue (tts s) ++
                  [mkJob (List.length (requests (tts s))) i])) as Hq.
  { apply Forall_app. split; [now apply waiting_queue|]. now constructor. }
  destruct (isProcessingTts (tts s)).
  - constructor; cbn; try assumption.
    unfold waiting in *. cbn. destruct (awaited (tts s)); [|exact Hq].
    inversion Ht; subst. now constructor.
  - apply IndexInv_processNextTts; cbn; assumption.
Qed.

Lemma segmentOf_index o job seg :
  segmentOf o job = Some seg ->
  Player.messageIndex seg = Some (job_messageIndex job).
Proof.
  unfold segmentOf. destruct o as [[[|b d]|]|]; try discriminate.
  now intros [= <-].
Qed.

Lemma IndexInv_ttsContinue isOpen s : IndexInv s -> IndexInv (ttsContinue isOpen s).
Proof.
  intros H. unfold ttsContinue.
  destruct (awaited (tts s)) as [job|] eqn:Ea; [|exact H].
  destruct (outcomeOf (promise job) (settled (tts s))) as [o|]; [|exact H].
  cbv zeta. destruct H as [Hp Ht Hs].
  unfold waiting in Ht. rewrite Ea in Ht. inversion Ht as [|? ? Hj Hq]; subst.
  destruct (segmentOf o job) as [seg|] eqn:Es.
  - apply IndexInv_processNextTts; cbn; try assumption.
    apply Indexed_enqueue; [exact Hp|].
    rewrite (segmentOf_index _ _ Es). exact Hj.
  - apply IndexInv_processNextTts; assumption.
Qed.

Lemma IndexInv_handleSendMessage input image s :
  IndexInv s -> IndexInv (handleSendMessage input image s).
Proof.
  intros H. unfold handleSendMessage.
  destruct (_ || _); [exact H|]. cbv zeta.
  set (u := mkMessage User input image).
  assert (grows (messages s) ((messages s ++ [u]) ++ [mkMessage Model [] None])) as Hg.
  { eapply grows_trans; apply grows_app. }
  destruct H as [Hp Ht Hs]. constructor; cbn.
  - eapply Indexed_mono; [|exact Hp]. intros i. now apply userAt_grows.
  - eapply Forall_impl; [|exact Ht]. intros j. now apply userAt_grows.
  - unfold userAt. rewrite !map_app, <- app_assoc.
    rewrite nth_error_app2; rewrite length_map; [|apply Nat.le_refl].
    now rewrite Nat.sub_diag.
Qed.

Lemma IndexInv_onChunk c s : IndexInv s -> IndexInv (onChunk c s).
Proof.
  intros H. unfold onChunk.
  destruct (sending s) as [f|] eqn:Ef; [|exact H].
  destruct c as [[|c t]|]; try exact H. cbv zeta.
  set (full := fullText f ++ c :: t).
  set (s1 := set_messages _ _).
  assert (IndexInv s1) as H1.
  { subst s1. destruct H as [Hp Ht Hs].
    assert (grows (messages s)
              (updateLast (fun m => if isUser m then m else setText full m)
                          (messages s))) as Hg.
    { apply grows_roles. apply roles_updateLast. intros m. now destruct (isUser m). }
    constructor; cbn.
    - eapply Indexed_mono; [|exact Hp]. intros i. now apply userAt_grows.
    - eapply Forall_impl; [|exact Ht]. intros j. now apply userAt_grows.
    - rewrite Ef in Hs. now apply (userAt_grows Hg). }
  assert (userAt (messages s1) (sf_messagesLength f)) as Hi.
  { apply (ii_sending H1). }
  clearbody s1.
  destruct (_ && _); [|exact H1].
  destruct (_ || _); [|exact H1].
  now apply IndexInv_processTtsQueue.
Qed.

Lemma IndexInv_step s e : IndexInv s -> IndexInv (step s e).
Proof.
  intros H. destruct e; cbn [step].
  - unfold toggleAudio. cbv zeta. destruct (isAudioEnabled s).
    + destruct H as [Hp Ht Hs]. constructor; cbn; try assumption.
      now apply Indexed_stopAndClear.
    + destruct H as [Hp Ht Hs]. constructor; assumption.
  - revert H. apply IndexInv_frame; [apply grows_app|reflexivity|reflexivity|now left].
  - revert H. apply IndexInv_frame; [apply grows_refl|reflexivity|reflexivity|now left].
  - revert H. apply IndexInv_frame; [apply grows_refl|reflexivity|reflexivity|now left].
  - revert H. apply IndexInv_frame; [apply grows_refl|reflexivity|reflexivity|now left].
  - revert H. apply IndexInv_frame; [apply grows_refl|reflexivity|reflexivity|now left].
  - now apply IndexInv_handleLiveMessage.
  - revert H. apply IndexInv_frame; [apply grows_refl|reflexivity|reflexivity|now left].
  - revert H. apply IndexInv_frame; [apply grows_refl|reflexivity|reflexivity|now left].
  - revert H. apply IndexInv_frame; [apply grows_refl|reflexivity|reflexivity|now left].
  - unfold fireTimer. destruct (nth_error (timers s) k) as [[d []]|]; [|exact H].
    revert H. apply IndexInv_frame; [apply grows_refl|reflexivity|reflexivity|now left].
  - now apply IndexInv_handleSendMessage.
  - now apply IndexInv_onChunk.
  - revert H. apply IndexInv_frame; [apply grows_refl|reflexivity|reflexivity|now right].
  - revert H. apply IndexInv_frame; [apply grows_app|reflexivity|reflexivity|now right].
  - unfold ttsSettle. cbv zeta. destruct (_ <? _)%nat; [|exact H].
    destruct (outcomeOf id (settled (tts s))); [exact H|].
    revert H. apply IndexInv_frame; [apply grows_refl|reflexivity|reflexivity|now left].
  - now apply IndexInv_ttsContinue.
  - apply IndexInv_player; [|exact H]. apply Indexed_continue, (ii_player H).
  - apply IndexInv_player; [|exact H]. apply Indexed_onended, (ii_player H).
Qed.

Lemma IndexInv_run es : forall s, IndexInv s -> IndexInv (run s es).
Proof.
  induction es as [|e es IH]; intros s H; [exact H|].
  cbn [run fold_left]. apply IH. now apply IndexInv_step.
Qed.

Lemma IndexInv_init ctx susp : IndexInv (init ctx susp).
Proof.
  constructor; cbn; [|constructor|exact I].
  constructor; cbn; [constructor|exact I|exact I].
Qed.

(** X13: the index given to the synthesis of a streamed reply is the
    length of the message list before the user's message was appended, so
    it is the index of that user message; messages are never removed and
    never change role.  The playing indicator, drawn only on a model
    message whose index is the playing marker, is therefore drawn on no
    message in any reachable state. *)
Theorem indicator_never_shown (ctx susp : bool) (es : list Event) (idx : nat) :
  showsIndicator (run (init ctx susp) es) idx = false.
Proof.
  pose proof (IndexInv_run es (IndexInv_init ctx susp)) as H.
  set (s := run (init ctx susp) es) in *.
  pose proof (Player.ix_marker (ii_player H)) as Hm.
  unfold showsIndicator.
  destruct (nth_error (messages s) idx) as [msg|] eqn:En; [|reflexivity].
  destruct (Player.currentlyPlayingIndex (player s)) as [i|];
    [|apply andb_false_r].
  destruct (Nat.eqb_spec i idx) as [->|]; [|apply andb_false_r].
  cbn in Hm. unfold userAt in Hm.
  rewrite nth_error_map, En in Hm. cbn in Hm.
  injection Hm as ->. reflexivity.
Qed.

End IndicatorFacts.

(** ** The stream of a text reply *)

Module StreamFacts.
Import Chatbot.

Lemma updateLast_snoc f l m : updateLast f (l ++ [m]) = l ++ [f m].
Proof.
  induction l as [|a l IH]; [reflexivity|].
  cbn [app]. destruct (l ++ [m]) as [|b r] eqn:E.
  - now destruct l.
  - change (updateLast f (a :: b :: r)) with (a :: updateLast f (b :: r)).
    now rewrite IH.
Qed.

Lemma processTtsQueue_display txt i s :
  messages (processTtsQueue txt i s) = messages s /\
  isLoading (processTtsQueue txt i s) = isLoading s /\
  sending (processTtsQueue txt i s) = sending s.
Proof.
  unfold processTtsQueue. destruct (Str.truthy _); [|now repeat split]. cbv zeta.
  destruct (isProcessingTts (tts s)); [now repeat split|].
  unfold processNextTts. cbn.
  destruct (ttsPromiseQueue (tts s)); now repeat split.
Qed.

Lemma replying_step base s e :
  streaming [e] = true ->
  replying base s ->
  replying base (step s e) /\
  forall f f', sending s = Some f -> sending (step s e) = Some f' ->
               fullText f' = fullText f ++ chunkTexts [e].
Proof.
  intros He (Hl & f & Hf & Hm). destruct e; try discriminate; cbn [step].
  - (* a second send *)
    unfold handleSendMessage. rewrite Hl, orb_true_r.
    split; [split; [exact Hl|exists f; now split]|].
    intros f0 f' E0 E'. rewrite E0 in E'. injection E' as <-.
    cbn. now rewrite app_nil_r.
  - unfold onChunk. rewrite Hf.
    destruct chunkText as [[|c t]|].
    + split; [split; [exact Hl|exists f; now split]|].
      intros f0 f' E0 E'.
      assert (f0 = f) as -> by congruence. assert (f' = f) as -> by congruence.
      cbn. now rewrite app_nil_r.
    + cbv zeta.
      set (full := fullText f ++ c :: t).
      set (s1 := set_messages _ _).
      assert (isLoading s1 = true /\
              sending s1 = Some (mkFrame (sf_isAudioEnabled f)
                                         (sf_isLiveSessionActive f)
                                         (sf_messagesLength f) full) /\
              messages s1 = base ++ [mkMessage Model full None]) as (A & B & C).
      { subst s1. cbn. rewrite Hm, updateLast_snoc. now repeat split. }
      clearbody s1.
      assert (forall s2, messages s2 = messages s1 -> isLoading s2 = isLoading s1 ->
                         sending s2 = sending s1 ->
                         replying base s2 /\
                         (forall f0 f', Some f = Some f0 -> sending s2 = Some f' ->
                                        fullText f' = fullText f0 ++ chunkTexts [Chunk (Some (c :: t))]))
        as K.
      { intros s2 E1 E2 E3. split.
        - split; [now rewrite E2|]. eexists. split; [rewrite E3; exact B|].
          now rewrite E1.
        - intros f0 f' [= <-] E'. rewrite E3, B in E'. injection E' as <-.
          cbn. now rewrite app_nil_r. }
      destruct (_ && _); [|now apply K].
      destruct (_ || _); [|now apply K].
      destruct (processTtsQueue_display (c :: t) (sf_messagesLength f) s1)
        as (E1 & E2 & E3).
      now apply K.
    + split; [split; [exact Hl|exists f; now split]|].
      intros f0 f' E0 E'.
      assert (f0 = f) as -> by congruence. assert (f' = f) as -> by congruence.
      cbn. now rewrite app_nil_r.
Qed.

Lemma replying_run base es : forall s f,
  streaming es = true ->
  replying base s -> sending s = Some f ->
  isLoading (run s es) = true /\
  messages (run s es) = base ++ [mkMessage Model (fullText f ++ chunkTexts es) None].
Proof.
  induction es as [|e es IH]; intros s f Hs Hr Hf.
  - cbn. rewrite app_nil_r. destruct Hr as (Hl & f0 & E0 & Hm).
    rewrite Hf in E0. injection E0 as <-. now split.
  - cbn [streaming forallb] in Hs. apply andb_true_iff in Hs. destruct Hs as [He Hs].
    assert (streaming [e] = true) as He1 by (cbn; now rewrite He).
    destruct (replying_step e He1 Hr) as [Hr' Hk].
    destruct Hr' as (Hl' & f' & Hf' & Hm').
    cbn [run fold_left].
    destruct (IH (step s e) f' Hs (conj Hl' (ex_intro _ f' (conj Hf' Hm'))) Hf')
      as [A B].
    split; [exact A|]. unfold run in B. rewrite B.
    rewrite (Hk f f' Hf Hf').
    unfold chunkTexts. cbn [flat_map]. now rewrite app_nil_r, app_assoc.
Qed.

(** X14: from a send that is accepted until the stream ends, with
    nothing else happening, the list shows the earlier messages, the
    user's message and one model message whose text is the concatenation
    of the chunk texts so far; chunks without text change nothing, and
    further attempts to send are ignored. *)
Theorem reply_is_concatenation_of_chunks
  (s : State) (input : jsstring) (image : option jsstring) (es : list Event) :
  isLoading s = false ->
  Str.truthy (Str.trim input) = true \/ image <> None ->
  streaming es = true ->
  let s' := run (handleSendMessage input image s) es in
  isLoading s' = true /\
  messages s' =
    messages s ++ [mkMessage User input image; mkMessage Model (chunkTexts es) None].
Proof.
  intros Hl Hi Hs. cbv zeta.
  assert (handleSendMessage input image s =
          set_sending (Some (mkFrame (isAudioEnabled s) (isLiveSessionActive s)
                                     (List.length (messages s)) []))
            (set_messages ((messages s ++ [mkMessage User input image])
                           ++ [mkMessage Model [] None])
               (set_isLoading true
                  (set_messages (messages s ++ [mkMessage User input image]) s))))
    as E.
  { unfold handleSendMessage. rewrite Hl, orb_false_r.
    destruct Hi as [-> | Hi]; [reflexivity|].
    destruct image; [now rewrite andb_false_r|congruence]. }
  rewrite E.
  match goal with |- context [run ?x es] => set (s0 := x) end.
  destruct (@replying_run (messages s ++ [mkMessage User input image]) es s0
              (mkFrame (isAudioEnabled s) (isLiveSessionActive s)
                       (List.length (messages s)) []) Hs) as [A B].
  - split; [reflexivity|]. eexists. split; reflexivity.
  - reflexivity.
  - split; [exact A|]. rewrite B. cbn [fullText app]. now rewrite <- app_assoc.
Qed.

Lemma reply_is_concatenation_of_chunks_witness :
  let s' := run (handleSendMessage (js "Hi") None (init true false))
                [Chunk (Some chunk_Xin); Send (js "again") None; Chunk None;
                 Chunk (Some chunk_chao)] in
  isLoading s' = true /\
  messages s' =
    messages (init true false) ++
    [mkMessage User (js "Hi") None;
     mkMessage Model (chunkTexts [Chunk (Some chunk_Xin); Send (js "again") None;
                                  Chunk None; Chunk (Some chunk_chao)]) None].
Proof.
  apply (@reply_is_concatenation_of_chunks (init true false) (js "Hi") None
           [Chunk (Some chunk_Xin); Send (js "again") None; Chunk None;
            Chunk (Some chunk_chao)]).
  - reflexivity.
  - left. reflexivity.
  - reflexivity.
Defined.

End StreamFacts.

(** ** The live session's resources *)

Module SessionFacts.
Import Chatbot.

Lemma tidy_release h :
  tidy h = true -> release h = mkHandle false false (abandoned h).
Proof.
  destruct h as [[] [] n]; cbn; intros H; try reflexivity; discriminate.
Qed.

Lemma live_processTtsQueue txt i s : live (processTtsQueue txt i s) = live s.
Proof.
  unfold processTtsQueue. destruct (Str.truthy _); [|reflexivity]. cbv zeta.
  destruct (isProcessingTts (tts s)); [reflexivity|].
  unfold processNextTts. cbn.
  destruct (ttsPromiseQueue (tts s)); reflexivity.
Qed.

Lemma tidyLive_handles lv lv' :
  handlesOf lv' = handlesOf lv -> tidyLive lv = true -> tidyLive lv' = true.
Proof.
  unfold handlesOf, tidyLive. intros [= -> -> -> ->]. auto.
Qed.

Lemma tidyLive_step s e : tidyLive (live s) = true -> tidyLive (live (step s e)) = true.
Proof.
  intros H. destruct e; cbn [step]; try exact H.
  - unfold toggleAudio. cbv zeta. now destruct (isAudioEnabled s).
  - unfold tidyLive in *. cbn.
    apply andb_true_iff in H. destruct H as [H H4].
    apply andb_true_iff in H. destruct H as [H H3].
    apply andb_true_iff in H. destruct H as [H1 H2].
    now rewrite H1, H3, H4.
  - unfold tidyLive in *. cbn.
    apply andb_true_iff in H. destruct H as [H H4].
    apply andb_true_iff in H. destruct H as [H H3].
    apply andb_true_iff in H. destruct H as [H1 H2].
    now rewrite H1, H2.
  - unfold tidyLive in *. cbn.
    apply andb_true_iff in H. destruct H as [H H4].
    apply andb_true_iff in H. destruct H as [H H3].
    apply andb_true_iff in H. destruct H as [H1 H2].
    now rewrite H2, H3, H4.
  - revert H. apply tidyLive_handles.
    apply (HandlerFacts.handleLiveMessage_sameBut eager isOpen message s).
  - unfold tidyLive. cbn.
    now destruct (live s) as [[[] [] n1] [[] [] n2] [[] [] n3] [[] [] n4] u m].
  - unfold fireTimer. destruct (nth_error (timers s) k) as [[d []]|]; exact H.
  - unfold handleSendMessage. destruct (_ || _); exact H.
  - unfold onChunk. destruct (sending s) as [f|]; [|exact H].
    destruct chunkText as [[|c t]|]; try exact H. cbv zeta.
    destruct (_ && _); [|exact H]. destruct (_ || _); [|exact H].
    now rewrite live_processTtsQueue.
  - unfold ttsSettle. cbv zeta. destruct (_ <? _)%nat; [|exact H].
    destruct (outcomeOf id (settled (tts s))); exact H.
  - unfold ttsContinue. destruct (awaited (tts s)) as [job|]; [|exact H].
    destruct (outcomeOf _ _) as [o|]; [|exact H]. cbv zeta.
    unfold processNextTts. cbv zeta.
    destruct (segmentOf o job); cbn;
      match goal with |- context [match ?q with [] => _ | _ :: _ => _ end] =>
        destruct q end; exact H.
Qed.

Lemma tidyLive_run es : forall s,
  tidyLive (live s) = true -> tidyLive (live (run s es)) = true.
Proof.
  induction es as [|e es IH]; intros s H; [exact H|].
  cbn [run fold_left]. apply IH. now apply tidyLive_step.
Qed.

(** X15: in every reachable state, stopping the live session
    releases the four resources its refs hold and clears the refs, marks
    the session inactive and keeps both transcription buffers; a second
    stop changes nothing.  It releases nothing else: a resource a ref
    was made to forget stays held.  That happens to the microphone
    stream when a session is started while the stream of the previous
    one is still held, as it is after an error. *)
Theorem stop_releases_what_refs_hold (ctx susp : bool) (es : list Event) :
  let s := run (init ctx susp) es in
  let s' := stopLiveSession s in
  let again := stopLiveSession (run s [StartLive; MicGranted]) in
  handlesOf (live s') =
    (mkHandle false false (abandoned (liveSession (live s))),
     mkHandle false false (abandoned (microphoneStream (live s))),
     mkHandle false false (abandoned (audioWorkletNode (live s))),
     mkHandle false false (abandoned (inputAudioContext (live s)))) /\
  isLiveSessionActive s' = false /\
  currentUserTranscription (live s') = currentUserTranscription (live s) /\
  currentModelTranscription (live s') = currentModelTranscription (live s) /\
  stopLiveSession s' = s' /\
  (held (microphoneStream (live s)) = true ->
   abandoned (microphoneStream (live again)) =
     S (abandoned (microphoneStream (live s)))).
Proof.
  cbv zeta.
  assert (tidyLive (live (run (init ctx susp) es)) = true) as H
    by (apply tidyLive_run; reflexivity).
  set (s := run (init ctx susp) es) in *. clearbody s.
  unfold tidyLive in H.
  apply andb_true_iff in H. destruct H as [H H4].
  apply andb_true_iff in H. destruct H as [H H3].
  apply andb_true_iff in H. destruct H as [H1 H2].
  unfold stopLiveSession, handlesOf. cbn.
  rewrite (tidy_release _ H1), (tidy_release _ H2),
          (tidy_release _ H3), (tidy_release _ H4).
  repeat split. intros Hh. now rewrite Hh.
Qed.

Lemma stop_releases_what_refs_hold_witness :
  let s := run (init true false) [StartLive; MicGranted; Open; Connected; LiveError] in
  let again := stopLiveSession (run s [StartLive; MicGranted]) in
  held (microphoneStream (live s)) = true /\
  held (microphoneStream (live again)) = false /\
  abandoned (microphoneStream (live again)) = 1%nat.
Proof.
  cbv zeta. split; [reflexivity|]. split; [reflexivity|].
  destruct (stop_releases_what_refs_hold true false
              [StartLive; MicGranted; Open; Connected; LiveError])
    as (_ & _ & _ & _ & _ & A).
  exact (A eq_refl).
Defined.

(** X16: neither stopping nor starting a session clears the
    transcription buffer, so what was heard of a turn that did not
    complete is shown again in front of the first transcription of the
    next session. *)
Theorem unfinished_turn_text_carries_over
  (s : State) (eager isOpen : bool) (t : jsstring) :
  messages (handleLiveMessage eager isOpen (mkLiveMessage (Some t) None None false)
              (startLiveSession (stopLiveSession s))) =
  messages s ++
    [mkMessage User ((currentUserTranscription (live s) ++ t) ++ Str.ellipsis) None].
Proof.
  unfold handleLiveMessage. destruct eager; cbn -[Str.ellipsis];
    now rewrite StreamFacts.updateLast_snoc.
Qed.

(** X17: the timeout armed by a failed start is not cancelled by a
    new start, so when the new session then reports an error, that older
    timeout, on firing, removes the newer error message while the newer
    timeout is still pending. *)
Theorem older_timer_clears_newer_error (s : State) :
  let s1 := onerror (startLiveSession (startFailed s)) in
  let s2 := fireTimer (List.length (timers s)) s1 in
  liveError s1 = Some serverError /\
  liveError s2 = None /\
  timers s2 = timers s ++ [(5000%N, ClearLiveError)].
Proof.
  cbv zeta. split; [reflexivity|].
  unfold fireTimer.
  assert (timers (onerror (startLiveSession (startFailed s))) =
          timers s ++ [(5000%N, ClearLiveError); (5000%N, ClearLiveError)]) as E.
  { cbn. now rewrite <- app_assoc. }
  rewrite E.
  rewrite nth_error_app2, Nat.sub_diag by apply Nat.le_refl. cbn [nth_error].
  split; [reflexivity|]. cbn [timers set_liveError set_timers].
  rewrite firstn_app, Nat.sub_diag, firstn_all. cbn [firstn].
  rewrite app_nil_r.
  replace (S (List.length (timers s))) with (List.length (timers s) + 1)%nat by lia.
  rewrite skipn_app, skipn_all2 by lia.
  replace (List.length (timers s) + 1 - List.length (timers s))%nat with 1%nat by lia.
  reflexivity.
Qed.

End SessionFacts.

(** ** Decoding, then encoding *)

Module ReencodeFacts.
Import Codec.

Lemma clamp_unit (q : Q) :
  -1 <= q -> q <= 1 -> exists s, clamp (Fin q) = Fin s /\ s == q.
Proof.
  intros Hlo Hhi. unfold clamp. cbn.
  exists (Qmax (-1) (Qmin 1 q)). split; [reflexivity|].
  destruct (Q.min_spec 1 q) as [[H1 E1]|[H1 E1]];
    destruct (Q.max_spec (-1) (Qmin 1 q)) as [[H2 E2]|[H2 E2]];
    rewrite E2; rewrite ?E1 in *; lra.
Qed.

Lemma encode_word (v : Z) (s : Q) :
  (-32768 <= v < 32768)%Z ->
  s == inject_Z v / 32768 ->
  ToInt16 (scale (Fin s)) = if (0 <? v)%Z then (v - 1)%Z else v.
Proof.
  intros Hv Hs. rewrite Qdiv_32768 in Hs.
  assert (-32768 <= inject_Z v) as Hlo
    by (change (-32768) with (inject_Z (-32768)); rewrite <- Zle_Qle; lia).
  assert (inject_Z v < 32768) as Hhi
    by (change 32768 with (inject_Z 32768); rewrite <- Zlt_Qlt; lia).
  unfold scale. cbn [ltz].
  destruct (Z.ltb_spec 0 v) as [Hpos|Hneg].
  - assert (0 < inject_Z v) as Hq
      by (change 0 with (inject_Z 0); rewrite <- Zlt_Qlt; lia).
    rewrite (proj2 (Qltb_false s 0)) by (set (z := inject_Z v) in *; clearbody z; lra).
    cbn [mulc ToInt16].
    rewrite Qtrunc_nonneg by (set (z := inject_Z v) in *; clearbody z; lra).
    assert (s * 32767 == inject_Z (v * 32767) / inject_Z 32768) as E.
    { rewrite inject_Z_mult. change (inject_Z 32767) with 32767.
      change (inject_Z 32768) with 32768. rewrite Qdiv_32768.
      set (z := inject_Z v) in *. clearbody z. lra. }
    rewrite (Qfloor_comp _ _ E), <- Zdiv_Qdiv.
    replace (v * 32767 / 32768)%Z with (v - 1)%Z
      by (Z.to_euclidean_division_equations; lia).
    apply wrap16. lia.
  - destruct (Z.eq_dec v 0) as [->|Hnz].
    + assert (s == 0) as E by (rewrite Hs; reflexivity).
      rewrite (proj2 (Qltb_false s 0)) by lra.
      cbn [mulc ToInt16]. rewrite Qtrunc_nonneg by lra.
      assert (s * 32767 == inject_Z 0) as E0 by (rewrite E; reflexivity).
      rewrite (Qfloor_comp _ _ E0), Qfloor_Z. reflexivity.
    + assert (inject_Z v < 0) as Hq
        by (change 0 with (inject_Z 0); rewrite <- Zlt_Qlt; lia).
      rewrite (proj2 (Qltb_true s 0)) by (set (z := inject_Z v) in *; clearbody z; lra).
      cbn [mulc ToInt16].
      rewrite Qtrunc_neg by (set (z := inject_Z v) in *; clearbody z; lra).
      assert (s * 32768 == inject_Z v) as E
        by (set (z := inject_Z v) in *; clearbody z; lra).
      rewrite (Qceiling_comp _ _ E), Qceiling_Z.
      apply wrap16. lia.
Qed.

Lemma reencode_word (v : Z) :
  (-32768 <= v < 32768)%Z ->
  ToInt16 (scale (clamp (Fin (inject_Z v / 32768)))) =
  if (0 <? v)%Z then (v - 1)%Z else v.
Proof.
  intros Hv.
  assert (-32768 <= inject_Z v) as Hlo
    by (change (-32768) with (inject_Z (-32768)); rewrite <- Zle_Qle; lia).
  assert (inject_Z v < 32768) as Hhi
    by (change 32768 with (inject_Z 32768); rewrite <- Zlt_Qlt; lia).
  destruct (@clamp_unit (inject_Z v / 32768)) as (s & -> & Hs).
  - rewrite Qdiv_32768. set (z := inject_Z v) in *. clearbody z. lra.
  - rewrite Qdiv_32768. set (z := inject_Z v) in *. clearbody z. lra.
  - now apply encode_word.
Qed.

(** X18: decoding a stream of 16-bit words and encoding the samples
    again does not give the stream back: every positive word comes out
    one less, the others unchanged (the decoder divides by 32768, the
    encoder multiplies non-negative samples by 32767 and truncates). *)
Theorem reencoding_lowers_positive_words (l : list Z) :
  Forall (fun v => (-32768 <= v < 32768)%Z) l ->
  blob_data (createPcmBlob (toFloat32 (bufferBytes l))) =
  bufferBytes (map (fun v => if (0 <? v)%Z then (v - 1)%Z else v) l).
Proof.
  intros Hl. rewrite (CodecFacts.toFloat32_bufferBytes Hl).
  unfold createPcmBlob, toInt16Array. cbn [blob_data]. f_equal.
  rewrite map_map. apply map_ext_in. intros v Hv.
  rewrite Forall_forall in Hl. now apply reencode_word, Hl.
Qed.

Lemma reencoding_lowers_positive_words_witness :
  blob_data (createPcmBlob (toFloat32 (bufferBytes [100; 0; -100; 32767; -32768]%Z))) =
  bufferBytes (map (fun v => if (0 <? v)%Z then (v - 1)%Z else v)
                   [100; 0; -100; 32767; -32768]%Z).
Proof.
  apply (@reencoding_lowers_positive_words [100; 0; -100; 32767; -32768]%Z).
  repeat constructor; lia.
Defined.

End ReencodeFacts.
